(** * memory-search: hybrid BM25 + vector retrieval with RRF fusion

    A shallow embedding of [scripts/memory-search.py]: the Markdown and
    JSON chunkers, the FTS5 query sanitizer, the index tables and the
    statements run on them, the BM25 and vector searches, Reciprocal Rank
    Fusion with trigram-Jaccard deduplication, and the search entry point.

    Python [str] values are sequences of Unicode code points, Python
    [float]s are IEEE-754 binary64 numbers (Rocq's [SpecFloat] at
    precision 53), Python [int]s are [Z], and the SQLite tables are finite
    maps from their primary key to their rows. *)

From Stdlib Require Import ZArith NArith List String Ascii Bool Lia DecimalString.
From Stdlib Require Import Sorting.Sorted.
From Stdlib Require Import Floats.SpecFloat.
From stdpp Require Import gmap sorting.
Import ListNotations.

Local Open Scope Z_scope.

(** ** Python strings *)

Module PyStr.

(** A code point. *)
Definition char := N.

(** A Python [str]. *)
Definition str := list char.

(** An ASCII literal as a [str]. *)
Fixpoint lit (s : string) : str :=
  match s with
  | EmptyString => []
  | String a s' => N_of_ascii a :: lit s'
  end.

Definition len (s : str) : Z := Z.of_nat (length s).

Definition char_eqb (a b : char) : bool := N.eqb a b.

Fixpoint str_eqb (a b : str) : bool :=
  match a, b with
  | [], [] => true
  | x :: a', y :: b' => char_eqb x y && str_eqb a' b'
  | _, _ => false
  end.

(** [str.isspace] on one code point (CPython's [_PyUnicode_IsWhitespace]). *)
Definition is_space (c : char) : bool :=
  (((9 <=? c) && (c <=? 13)) || ((28 <=? c) && (c <=? 32))
   || (c =? 133) || (c =? 160) || (c =? 5760)
   || ((8192 <=? c) && (c <=? 8202))
   || (c =? 8232) || (c =? 8233) || (c =? 8239) || (c =? 8287)
   || (c =? 12288))%N.

Fixpoint drop_while (p : char -> bool) (s : str) : str :=
  match s with
  | [] => []
  | c :: s' => if p c then drop_while p s' else s
  end.

(** [s.lstrip()], [s.rstrip()] and [s.strip()] without argument. *)
Definition lstrip (s : str) : str := drop_while is_space s.
Definition rstrip (s : str) : str := rev (drop_while is_space (rev s)).
Definition strip (s : str) : str := rstrip (lstrip s).

(** [s.lstrip(cs)]: leading characters that occur in [cs] are removed. *)
Definition lstrip_chars (cs : str) (s : str) : str :=
  drop_while (fun c => existsb (char_eqb c) cs) s.

(** [s.startswith(p)]. *)
Fixpoint startswith (p s : str) : bool :=
  match p, s with
  | [], _ => true
  | x :: p', y :: s' => char_eqb x y && startswith p' s'
  | _ :: _, [] => false
  end.

(** [sub in s]. *)
Fixpoint contains (sub s : str) : bool :=
  startswith sub s ||
  match s with
  | [] => false
  | _ :: s' => contains sub s'
  end.

(** [s.split(sep)] for a one-character separator: the pieces between the
    occurrences of [sep]; there is always at least one piece. *)
Fixpoint split_char_aux (sep : char) (cur : str) (s : str) : list str :=
  match s with
  | [] => [rev cur]
  | c :: s' =>
      if char_eqb c sep then rev cur :: split_char_aux sep [] s'
      else split_char_aux sep (c :: cur) s'
  end.

Definition split_char (sep : char) (s : str) : list str :=
  split_char_aux sep [] s.

(** [s.split()] without argument: the maximal runs of non-whitespace. *)
Fixpoint split_ws_aux (cur : str) (s : str) : list str :=
  match s with
  | [] => match cur with [] => [] | _ => [rev cur] end
  | c :: s' =>
      if is_space c
      then match cur with
           | [] => split_ws_aux [] s'
           | _ => rev cur :: split_ws_aux [] s'
           end
      else split_ws_aux (c :: cur) s'
  end.

Definition split_ws (s : str) : list str := split_ws_aux [] s.

(** [sep.join(parts)]. *)
Fixpoint join (sep : str) (parts : list str) : str :=
  match parts with
  | [] => []
  | [p] => p
  | p :: rest => p ++ sep ++ join sep rest
  end.

(** [s.replace(old, new)] for a one-character [old]. *)
Definition replace_char (old : char) (new : str) (s : str) : str :=
  flat_map (fun c => if char_eqb c old then new else [c]) s.

(** [os.path.basename] (posixpath): what follows the last slash. *)
Definition basename (p : str) : str :=
  List.last (split_char 47%N p) [].

Definition NL : char := 10%N.
Definition HASH : char := 35%N.
Definition DQUOTE : char := 34%N.

End PyStr.

Import PyStr.

(** ** The Chunker *)

Record chunk := mk_chunk {
  title : str;
  content : str;
  line_start : Z;
  line_end : Z
}.

(** The local variables of [chunk_markdown]'s loop. *)
Record md_state := mk_md {
  md_chunks : list chunk;
  current_title : str;
  current_lines : list str;
  current_start : Z
}.

(** The chunk text is kept when it is longer than 20 characters. *)
Definition append_chunk (chunks : list chunk) (ttl : str) (lines : list str)
    (ls le : Z) : list chunk :=
  let chunk_text := strip (join [NL] lines) in
  if 20 <? len chunk_text
  then chunks ++ [mk_chunk ttl chunk_text ls le]
  else chunks.

(** One iteration of [for i, line in enumerate(lines, 1)]. *)
Definition md_step (max_chunk_lines : Z) (st : md_state) (i : Z) (line : str)
    : md_state :=
  match startswith [HASH] line, current_lines st with
  | true, _ :: _ =>
      let chunks := append_chunk (md_chunks st) (current_title st)
                      (current_lines st) (current_start st) (i - 1) in
      let heading := strip (lstrip_chars [HASH] line) in
      mk_md chunks
            (match heading with [] => current_title st | _ => heading end)
            [line] i
  | _, _ =>
      let cl := current_lines st ++ [line] in
      if max_chunk_lines <=? Z.of_nat (length cl)
      then mk_md (append_chunk (md_chunks st) (current_title st) cl
                    (current_start st) i)
                 (current_title st) [] (i + 1)
      else mk_md (md_chunks st) (current_title st) cl (current_start st)
  end.

Fixpoint md_loop (max_chunk_lines : Z) (st : md_state) (i : Z)
    (lines : list str) : md_state :=
  match lines with
  | [] => st
  | line :: rest =>
      md_loop max_chunk_lines (md_step max_chunk_lines st i line) (i + 1) rest
  end.

Definition chunk_markdown (content : str) (filepath : str)
    (max_chunk_lines : Z) : list chunk :=
  let lines := split_char NL content in
  let st := md_loop max_chunk_lines
              (mk_md [] (basename filepath) [] 1) 1 lines in
  match current_lines st with
  | [] => md_chunks st
  | _ :: _ =>
      append_chunk (md_chunks st) (current_title st) (current_lines st)
        (current_start st) (Z.of_nat (length lines))
  end.

(** The default of [max_chunk_lines]. *)
Definition MAX_CHUNK_LINES : Z := 30.

(** ** Query sanitization for FTS5 *)

(** The character class [[\u4e00-\u9fff\u3400-\u4dbf]]. *)
Definition is_cjk (c : char) : bool :=
  (((0x4e00 <=? c) && (c <=? 0x9fff)) || ((0x3400 <=? c) && (c <=? 0x4dbf)))%N.

Definition STAR : char := 42%N.
Definition SPACE : char := 32%N.

(** The token between double quotes, each double quote in it doubled. *)
Definition quote_term (s : str) : str :=
  [DQUOTE] ++ replace_char DQUOTE [DQUOTE; DQUOTE] s ++ [DQUOTE].

(** The body of [for t in tokens]. *)
Definition sanitize_token (sanitized : list str) (t0 : str) : list str :=
  let t := strip t0 in
  match t with
  | [] => sanitized
  | _ :: _ =>
      let cjk_part := List.filter is_cjk t in
      let non_cjk := strip (List.filter (fun c => negb (is_cjk c)) t) in
      match cjk_part, non_cjk with
      | _ :: _, [] => sanitized ++ [cjk_part ++ [STAR]]
      | _ :: _, _ :: _ =>
          (sanitized ++ [cjk_part ++ [STAR]]) ++ [quote_term non_cjk]
      | [], _ => sanitized ++ [quote_term t]
      end
  end.

Definition sanitize_fts_query (query : str) : str :=
  join [SPACE] (fold_left sanitize_token (split_ws query) []).

(** ** Python floats and exceptions *)

Definition float := spec_float.

Definition prec : Z := 53.
Definition emax : Z := 1024.

Definition fadd : float -> float -> float := SFadd prec emax.
Definition fmul : float -> float -> float := SFmul prec emax.
Definition fdiv : float -> float -> float := SFdiv prec emax.
Definition flt : float -> float -> bool := SFltb.
Definition fneg : float -> float := SFopp.

Definition float_zero : float := S754_zero false.
Definition float_one : float := Eval vm_compute in SFone prec emax.

Inductive exn_kind :=
| ZeroDivisionError
| OverflowError
| TypeError
| OSError
| OperationalError
| IntegrityError.

(** An exception with the text [str(e)] gives. *)
Record exn := mk_exn { exn_kind_of : exn_kind; exn_msg : str }.

Inductive res (A : Type) :=
| Ok (a : A)
| Raise (e : exn).
Arguments Ok {A} a.
Arguments Raise {A} e.

(** [float(z)]: the nearest binary64, [OverflowError] beyond its range. *)
Definition float_of_int (z : Z) : res float :=
  match binary_normalize prec emax z 0 false with
  | S754_infinity _ => Raise (mk_exn OverflowError (lit "int too large to convert to float"))
  | f => Ok f
  end.

Definition is_zero (f : float) : bool :=
  match f with S754_zero _ => true | _ => false end.

(** [x / n] for a float [x] and an int [n]. *)
Definition float_div_int (x : float) (n : Z) : res float :=
  match float_of_int n with
  | Raise e => Raise e
  | Ok d =>
      if is_zero d
      then Raise (mk_exn ZeroDivisionError (lit "float division by zero"))
      else Ok (fdiv x d)
  end.

(** [a / b] for ints [0 <= a] and [0 < b]: the quotient rounded once. *)
Definition int_truediv (a b : Z) : float :=
  match a, b with
  | Zpos p, Zpos q => fdiv (S754_finite false p 0) (S754_finite false q 0)
  | _, _ => float_zero
  end.

(** ** RRF fusion and deduplication *)

Definition MAX_RESULTS : Z := 6.
Definition RRF_K : Z := 60.
Definition VECTOR_CANDIDATES : Z := 20.
Definition BM25_CANDIDATES : Z := 20.

(** The literal [0.83]. *)
Definition JACCARD_THRESHOLD : float := Eval vm_compute in int_truediv 83 100.

(** A result of [bm25_search] or [vector_search]. *)
Record hit := mk_hit {
  rowid : Z;
  path : str;
  category : str;
  h_title : str;
  snippet : str;
  h_content : str;
  score : float
}.

(** An entry of [fused]: the result's fields with those fusion adds. *)
Record fused_hit := mk_fused {
  f_hit : hit;
  rrf_score : float;
  sources : list str;
  bm25_rank : option Z;
  vec_rank : option Z
}.

Definition set_snippet (s : str) (h : hit) : hit :=
  mk_hit (rowid h) (path h) (category h) (h_title h) s (h_content h) (score h).

(** [text[i:i+3] for i in range(len(text) - 3 + 1)]. *)
Fixpoint trigrams (s : str) : list str :=
  match s with
  | a :: ((b :: c :: _) as s') => [a; b; c] :: trigrams s'
  | _ => []
  end.

Definition trigram_set (s : str) : gset str := list_to_set (trigrams s).

Definition _jaccard_similarity (text_a text_b : str) : float :=
  if (len text_a <? 3) || (len text_b <? 3)
  then if str_eqb text_a text_b then float_one else float_zero
  else
    let set_a := trigram_set text_a in
    let set_b := trigram_set text_b in
    let intersection := Z.of_nat (size (set_a ∩ set_b)) in
    let union := Z.of_nat (size (set_a ∪ set_b)) in
    if 0 <? union then int_truediv intersection union else float_zero.

(** [fused] is a dict in insertion order, keyed by [rowid]. *)
Definition fused_dict := list (Z * fused_hit).

Fixpoint dict_get (rid : Z) (d : fused_dict) : option fused_hit :=
  match d with
  | [] => None
  | (r, v) :: d' => if r =? rid then Some v else dict_get rid d'
  end.

Fixpoint dict_set (rid : Z) (v : fused_hit) (d : fused_dict) : fused_dict :=
  match d with
  | [] => [(rid, v)]
  | (r, v0) :: d' =>
      if r =? rid then (r, v) :: d' else (r, v0) :: dict_set rid v d'
  end.

Definition fresh_entry (result : hit) : fused_hit :=
  mk_fused result float_zero [] None None.

Definition entry_for (fused : fused_dict) (result : hit) : fused_hit :=
  match dict_get (rowid result) fused with
  | Some e => e
  | None => fresh_entry result
  end.

(** The body of the loop over [bm25_results]. *)
Definition fuse_bm25_step (k : Z) (fused : fused_dict) (rank : Z)
    (result : hit) : res fused_dict :=
  let e := entry_for fused result in
  match float_div_int float_one (k + rank) with
  | Raise x => Raise x
  | Ok c =>
      Ok (dict_set (rowid result)
            (mk_fused (f_hit e) (fadd (rrf_score e) c)
               (sources e ++ [lit "bm25"]) (Some rank) (vec_rank e))
            fused)
  end.

(** The body of the loop over [vector_results]. *)
Definition fuse_vector_step (k : Z) (fused : fused_dict) (rank : Z)
    (result : hit) : res fused_dict :=
  let e := entry_for fused result in
  match float_div_int float_one (k + rank) with
  | Raise x => Raise x
  | Ok c =>
      let srcs := sources e ++ [lit "vector"] in
      let marked := contains (lit ">>>") (snippet (f_hit e)) in
      let h :=
        if existsb (str_eqb (lit "bm25")) srcs && marked then f_hit e
        else if negb marked then set_snippet (snippet result) (f_hit e)
        else f_hit e in
      Ok (dict_set (rowid result)
            (mk_fused h (fadd (rrf_score e) c) srcs (bm25_rank e) (Some rank))
            fused)
  end.

(** [for rank, result in enumerate(results, 1)] from rank [rank]. *)
Fixpoint fuse_loop (step : fused_dict -> Z -> hit -> res fused_dict)
    (fused : fused_dict) (rank : Z) (results : list hit) : res fused_dict :=
  match results with
  | [] => Ok fused
  | result :: rest =>
      match step fused rank result with
      | Raise x => Raise x
      | Ok fused' => fuse_loop step fused' (rank + 1) rest
      end
  end.

(** [sorted(xs, key=..., reverse=True)]: the sort is stable, so among equal
    keys the original order is kept. *)
Fixpoint insert_desc {A} (key : A -> float) (x : A) (l : list A) : list A :=
  match l with
  | [] => [x]
  | y :: l' =>
      if flt (key x) (key y) then y :: insert_desc key x l' else x :: l
  end.

Definition sorted_desc {A} (key : A -> float) (l : list A) : list A :=
  fold_right (insert_desc key) [] l.

Definition is_dup (item : fused_hit) (deduped : list fused_hit) : bool :=
  existsb (fun existing =>
             flt JACCARD_THRESHOLD
               (_jaccard_similarity (h_content (f_hit item))
                  (h_content (f_hit existing))))
          deduped.

(** The deduplication loop, with its [break]. *)
Fixpoint dedup_loop (max_results : Z) (deduped : list fused_hit)
    (ranked : list fused_hit) : list fused_hit :=
  match ranked with
  | [] => deduped
  | item :: rest =>
      let deduped' :=
        if is_dup item deduped then deduped else deduped ++ [item] in
      if max_results <=? Z.of_nat (length deduped') then deduped'
      else dedup_loop max_results deduped' rest
  end.

Definition rrf_fuse (bm25_results vector_results : list hit) (k : Z)
    (max_results : Z) : res (list fused_hit) :=
  match fuse_loop (fuse_bm25_step k) [] 1 bm25_results with
  | Raise x => Raise x
  | Ok fused1 =>
      match fuse_loop (fuse_vector_step k) fused1 1 vector_results with
      | Raise x => Raise x
      | Ok fused =>
          let ranked := sorted_desc rrf_score (map snd fused) in
          Ok (dedup_loop max_results [] ranked)
      end
  end.

(** ** The JSON chunker *)

(** A record of [facts.json]: the fields [chunk_json] reads, each absent
    or a string (the format is: id, fact, category, status, evidence,
    timestamp). *)
Record fact := mk_fact {
  fact_id : option str;
  fact_text : option str;
  fact_category : option str;
  fact_status : option str;
  fact_evidence : option str
}.

(** What [json.loads] made of a file, by the shapes [chunk_json] tells
    apart. *)
Inductive json_data :=
| JsonFacts (facts : list fact)
    (** a dict whose entry [facts] is a list of records *)
| JsonDict (items : list (str * str))
    (** another dict: its keys in order, each with the text
        [json.dumps(value, ensure_ascii=False)] of its value *)
| JsonPlain
    (** a list or a string in which [facts] does not occur *)
| JsonUnsupported (msg : str).
    (** a value on which the membership test or the subscript raises
        [TypeError]: a number, a boolean, null, or a list or string in
        which [facts] occurs *)

Definition or_else (o : option str) (d : str) : str :=
  match o with
  | Some s => s
  | None => d
  end.

(** Truth value of [fact.get(key)]. *)
Definition truthy (o : option str) : bool :=
  match o with
  | Some (_ :: _) => true
  | _ => false
  end.

Definition fact_chunk (filepath : str) (f : fact) : chunk :=
  let text := lit "[" ++ or_else (fact_category f) [] ++ lit "] "
              ++ or_else (fact_text f) [] in
  let text := if truthy (fact_evidence f)
              then text ++ lit " (evidence: " ++ or_else (fact_evidence f) []
                     ++ lit ")"
              else text in
  mk_chunk (or_else (fact_id f) (basename filepath)) text 1 1.

Definition is_active (f : fact) : bool :=
  bool_decide (fact_status f = Some (lit "active")).

(** [chunk_json] after [json.loads(content)] returned [Some data] or raised
    [JSONDecodeError] ([None]). *)
Definition chunk_json_of (parsed : option json_data) (content filepath : str)
    : res (list chunk) :=
  match parsed with
  | None => Ok [mk_chunk (basename filepath) (firstn 2000 content) 1 1]
  | Some (JsonFacts facts) =>
      Ok (fold_left
            (fun chunks f =>
               if is_active f then chunks ++ [fact_chunk filepath f]
               else chunks)
            facts [])
  | Some (JsonDict items) =>
      Ok (fold_left
            (fun chunks kv =>
               chunks ++ [mk_chunk (fst kv)
                            (fst kv ++ lit ": " ++ firstn 500 (snd kv)) 1 1])
            items [])
  | Some JsonPlain => Ok []
  | Some (JsonUnsupported msg) => Raise (mk_exn TypeError msg)
  end.

(** ** The index: tables, connection, environment *)

Definition vec := list float.
Definition blob := list N.

(** [files (path PRIMARY KEY, hash, category, updated_at)]. *)
Record file_row := mk_file_row {
  fr_hash : str;
  fr_category : str;
  fr_updated_at : str
}.

(** [chunks (path, category, title, content)], an FTS5 table, by rowid. *)
Record chunk_row := mk_chunk_row {
  cr_path : str;
  cr_category : str;
  cr_title : str;
  cr_content : str
}.

(** [chunks_meta (rowid PRIMARY KEY, path, line_start, line_end)]. *)
Record meta_row := mk_meta_row {
  mr_path : str;
  mr_line_start : Z;
  mr_line_end : Z
}.

(** [embeddings (chunk_rowid PRIMARY KEY, embedding, model, content_hash)]. *)
Record emb_row := mk_emb_row {
  er_embedding : blob;
  er_model : str;
  er_content_hash : str
}.

Record db := mk_db {
  files : gmap str file_row;
  chunks : gmap Z chunk_row;
  chunks_meta : gmap Z meta_row;
  embeddings : gmap Z emb_row;
  vec_meta : gmap str str
}.

Definition empty_db : db := mk_db ∅ ∅ ∅ ∅ ∅.

Definition set_files (f : gmap str file_row) (d : db) : db :=
  mk_db f (chunks d) (chunks_meta d) (embeddings d) (vec_meta d).
Definition set_chunks (c : gmap Z chunk_row) (d : db) : db :=
  mk_db (files d) c (chunks_meta d) (embeddings d) (vec_meta d).
Definition set_chunks_meta (m : gmap Z meta_row) (d : db) : db :=
  mk_db (files d) (chunks d) m (embeddings d) (vec_meta d).
Definition set_embeddings (e : gmap Z emb_row) (d : db) : db :=
  mk_db (files d) (chunks d) (chunks_meta d) e (vec_meta d).
Definition set_vec_meta (v : gmap str str) (d : db) : db :=
  mk_db (files d) (chunks d) (chunks_meta d) (embeddings d) v.

(** The rows of a table keyed by rowid, in rowid order: the order in which
    a SELECT without ORDER BY scans them. *)
Definition rowid_le {V} (a b : Z * V) : Prop := fst a <= fst b.

#[global] Instance rowid_le_dec {V} (a b : Z * V) : Decision (rowid_le a b) :=
  Z_le_dec (fst a) (fst b).

Definition rows_of {V} (m : gmap Z V) : list (Z * V) :=
  merge_sort rowid_le (map_to_list m).

(** The rowid an insert into the FTS5 table gets: one past the largest. *)
Definition next_rowid {V} (m : gmap Z V) : Z :=
  map_fold (fun k _ acc => Z.max k acc) 0 m + 1.

(** A loaded [TextEmbedding] model. *)
Record embedder := mk_embedder {
  embed : list str -> list vec;
  query_embed : str -> list vec
}.

Inductive fastembed_status :=
| NotInstalled
    (** [from fastembed import TextEmbedding] raises [ImportError] *)
| LoadFails (err : str)
    (** [TextEmbedding(model_name=...)] raises *)
| Loads (m : embedder).

(** A row the full-text engine returns for a MATCH: rowid, snippet, rank. *)
Record fts_row := mk_fts_row {
  fts_rowid : Z;
  fts_snippet : str;
  fts_rank : float
}.

(** What the script takes from the operating system and from libraries. *)
Record Env := mk_env {
  MEMORY_DIR : str;
    (** [os.path.expanduser] of the memory directory *)
  os_stat : str -> res (float * Z);
    (** [st_mtime] and [st_size] of a path *)
  read_text : str -> res str;
    (** [open(path, encoding=utf-8, errors=ignore).read()] *)
  collect_files : list str;
    (** the sorted, duplicate-free result of the glob patterns *)
  now_isoformat : str;
    (** [datetime.now().isoformat()] *)
  float_str : float -> str;
    (** [str] of a float *)
  round4 : float -> float;
    (** [round(x, 4)] *)
  py_sum : list float -> float;
    (** the builtin [sum] on floats *)
  md5_hexdigest : str -> str;
    (** [hashlib.md5(text.encode()).hexdigest()] *)
  _vec_to_blob : vec -> blob;
  _blob_to_vec : blob -> vec;
    (** [struct.pack] and [struct.unpack] of little-endian float32 *)
  json_loads : str -> option json_data;
    (** [json.loads], [None] when it raises [JSONDecodeError] *)
  fts5_match : gmap Z chunk_row -> str -> res (list fts_row);
    (** the rows of the FTS5 table that MATCH an expression, ordered by
        rank, or the error SQLite raises on the expression *)
  fastembed : fastembed_status;
  _detect_best_model : str
    (** the model name the cache probe chooses once fastembed imports *)
}.

Inductive stream := Stdout | Stderr.

(** The database file and the process: the committed database ([None]
    while the file does not exist), the open connection's view of it, the
    module globals [_embedding_model] and [_model_name], and what was
    printed. *)
Record state := mk_state {
  st_file : option db;
  st_conn : db;
  st_model : option embedder;
  st_model_name : option str;
  st_out : list (stream * str)
}.

Definition M (A : Type) : Type := state -> res A * state.

Definition ret {A} (a : A) : M A := fun s => (Ok a, s).

Definition bind {A B} (m : M A) (k : A -> M B) : M B :=
  fun s =>
    match m s with
    | (Ok a, s') => k a s'
    | (Raise e, s') => (Raise e, s')
    end.

Definition lift {A} (r : res A) : M A := fun s => (r, s).

Definition raise {A} (e : exn) : M A := fun s => (Raise e, s).

(** [try: m except Exception as e: h e]. *)
Definition try_except {A} (m : M A) (h : exn -> M A) : M A :=
  fun s =>
    match m s with
    | (Ok a, s') => (Ok a, s')
    | (Raise e, s') => h e s'
    end.

Declare Scope py_scope.
Delimit Scope py_scope with py.
Notation "x <- c ;; k" := (bind c (fun x => k))
  (at level 100, c at next level, right associativity) : py_scope.
Notation "c ;;; k" := (bind c (fun _ => k))
  (at level 100, right associativity) : py_scope.
Local Open Scope py_scope.

Definition get_state : M state := fun s => (Ok s, s).

Definition conn : M db := fun s => (Ok (st_conn s), s).

Definition update_conn (f : db -> db) : M unit :=
  fun s => (Ok tt, mk_state (st_file s) (f (st_conn s)) (st_model s)
                     (st_model_name s) (st_out s)).

(** [print(text, file=f, end=...)]: [text] carries its end. *)
Definition print (f : stream) (text : str) : M unit :=
  fun s => (Ok tt, mk_state (st_file s) (st_conn s) (st_model s)
                     (st_model_name s) (st_out s ++ [(f, text)])).

(** [sqlite3.connect(DB_PATH)]. *)
Definition connect : M unit :=
  fun s => (Ok tt, mk_state (st_file s)
                     (match st_file s with Some d => d | None => empty_db end)
                     (st_model s) (st_model_name s) (st_out s)).

(** [init_db]: the tables are created where they do not exist; the
    script commits at once. *)
Definition init_db : M unit :=
  fun s => (Ok tt, mk_state
                     (match st_file s with
                      | Some d => Some d
                      | None => Some (st_conn s)
                      end)
                     (st_conn s) (st_model s) (st_model_name s) (st_out s)).

(** [conn.commit()]. *)
Definition commit : M unit :=
  fun s => (Ok tt, mk_state (Some (st_conn s)) (st_conn s) (st_model s)
                     (st_model_name s) (st_out s)).

(** [os.remove(DB_PATH)] when the file exists. *)
Definition remove_db : M unit :=
  fun s => (Ok tt, mk_state None (st_conn s) (st_model s) (st_model_name s)
                     (st_out s)).

Fixpoint for_each {A} (l : list A) (body : A -> M unit) : M unit :=
  match l with
  | [] => ret tt
  | x :: rest => body x ;;; for_each rest body
  end.

(** [str(z)] for an int. *)
Definition str_of_Z (z : Z) : str :=
  lit (DecimalString.NilZero.string_of_int (Z.to_int z)).

(** [s.replace(old, new)] for a non-empty [old]. *)
Fixpoint replace_aux (old new : str) (skip : nat) (s : str) : str :=
  match s with
  | [] => []
  | c :: s' =>
      match skip with
      | S n => replace_aux old new n s'
      | O =>
          if startswith old s
          then new ++ replace_aux old new (length old - 1) s'
          else c :: replace_aux old new O s'
      end
  end.

Definition replace (old new s : str) : str := replace_aux old new O s.

Definition endswith (suffix s : str) : bool :=
  startswith (rev suffix) (rev s).

(** [s[:n]] for any int [n]. *)
Definition slice_to {A} (n : Z) (l : list A) : list A :=
  if n <? 0 then firstn (Z.to_nat (Z.of_nat (length l) + n)) l
  else firstn (Z.to_nat n) l.

(** [LIMIT n]: a negative limit is no limit. *)
Definition sql_limit {A} (n : Z) (l : list A) : list A :=
  if n <? 0 then l else firstn (Z.to_nat n) l.

(** A result of [search]: a searcher's result tagged with its source, or a
    fused one. *)
Inductive search_result :=
| Tagged (h : hit) (srcs : list str)
| Fused (f : fused_hit).

(** Texts the script prints. *)
Definition MSG_VEC_SKIPPED : str :=
  [32; 32; 21521; 37327; 32034; 24341; 36339; 36807; 32; 40; 102; 97; 115;
   116; 101; 109; 98; 101; 100; 32; 19981; 21487; 29992; 65292; 112; 105;
   112; 32; 105; 110; 115; 116; 97; 108; 108; 32; 102; 97; 115; 116; 101;
   109; 98; 101; 100; 41]%N.
Definition MSG_MODEL_CHANGED : str :=
  [32; 32; 27169; 22411; 21464; 26356; 58; 32]%N.
Definition MSG_ARROW : str := [32; 8594; 32]%N.
Definition MSG_CLEARING : str :=
  [65292; 28165; 31354; 21521; 37327; 32034; 24341]%N.
Definition MSG_EMBEDDING : str :=
  [32; 32; 29983; 25104; 21521; 37327; 58; 32]%N.
Definition MSG_N_CHUNKS : str :=
  [32; 20010; 32; 99; 104; 117; 110; 107; 115; 32; 46; 46; 46]%N.
Definition MSG_FAILED : str := [32; 22833; 36133]%N.
Definition MSG_DONE : str := [32; 23436; 25104]%N.
Definition MSG_LOADING : str :=
  [32; 32; 21152; 36733; 23884; 20837; 27169; 22411; 58; 32]%N.
Definition MSG_INDEXED : str := [32; 32; 32034; 24341; 58; 32]%N.
Definition MSG_BLOCKS : str := [32; 22359; 41]%N.
Definition MSG_SKIPPED : str := [32; 32; 36339; 36807; 58; 32]%N.
Definition MSG_BM25_DONE : str :=
  [10; 66; 77; 50; 53; 32; 32034; 24341; 23436; 25104; 58; 32]%N.
Definition MSG_N_FILES : str := [32; 20010; 25991; 20214; 44; 32]%N.
Definition MSG_N_BLOCKS : str := [32; 20010; 22359]%N.
Definition MSG_VEC_DONE : str :=
  [21521; 37327; 32034; 24341; 23436; 25104; 58; 32]%N.
Definition MSG_N_EMB : str := [32; 20010; 23884; 20837]%N.
Definition MSG_SYNTAX : str :=
  [25628; 32034; 35821; 27861; 38169; 35823; 58; 32]%N.

Definition count {A} (l : list A) : Z := Z.of_nat (length l).

Fixpoint fold_m {A B} (f : B -> A -> M B) (l : list A) (acc : B) : M B :=
  match l with
  | [] => ret acc
  | x :: rest => acc' <- f acc x ;; fold_m f rest acc'
  end.

Fixpoint zip3 {A B C} (a : list A) (b : list B) (c : list C)
    : list (A * B * C) :=
  match a, b, c with
  | x :: a', y :: b', z :: c' => (x, y, z) :: zip3 a' b' c'
  | _, _, _ => []
  end.

(** The text embedded for a chunk row: title, colon, content. *)
Definition embedded_text (r : Z * chunk_row) : str :=
  cr_title (snd r) ++ lit ": " ++ cr_content (snd r).

Section Engine.

Variable E : Env.

Definition set_model (m : option embedder) : M unit :=
  fun s => (Ok tt, mk_state (st_file s) (st_conn s) m (st_model_name s)
                     (st_out s)).

Definition set_model_name (n : option str) : M unit :=
  fun s => (Ok tt, mk_state (st_file s) (st_conn s) (st_model s) n
                     (st_out s)).

(** The lazily loaded model: loaded once, then taken from the global. *)
Definition _get_embedding_model : M (option embedder) :=
  s <- get_state ;;
  match st_model s with
  | Some m => ret (Some m)
  | None =>
      match fastembed E with
      | NotInstalled => ret None
      | LoadFails err =>
          set_model_name (Some (_detect_best_model E)) ;;;
          print Stderr (MSG_LOADING ++ _detect_best_model E ++ lit " ...") ;;;
          print Stderr (MSG_FAILED ++ lit ": " ++ err ++ [NL]) ;;;
          ret None
      | Loads m =>
          set_model_name (Some (_detect_best_model E)) ;;;
          print Stderr (MSG_LOADING ++ _detect_best_model E ++ lit " ...") ;;;
          set_model (Some m) ;;;
          print Stderr (MSG_DONE ++ lit " (dim=384)" ++ [NL]) ;;;
          ret (Some m)
      end
  end.

Definition _embed_texts (texts : list str) : M (list vec) :=
  model <- _get_embedding_model ;;
  match model with
  | None => ret []
  | Some m => ret (embed m texts)
  end.

Definition _embed_query (query : str) : M (option vec) :=
  model <- _get_embedding_model ;;
  match model with
  | None => ret None
  | Some m =>
      match query_embed m query with
      | v :: _ => ret (Some v)
      | [] => ret None
      end
  end.

Definition _cosine_similarity (a b : vec) : float :=
  py_sum E (map (fun xy => fmul (fst xy) (snd xy)) (combine a b)).

Definition get_file_hash (filepath : str) : res str :=
  match os_stat E filepath with
  | Raise e => Raise e
  | Ok (st_mtime, st_size) =>
      Ok (float_str E st_mtime ++ lit ":" ++ str_of_Z st_size)
  end.

Definition relative (filepath : str) : str :=
  replace (MEMORY_DIR E ++ lit "/") [] filepath.

Definition categorize_file (filepath : str) : str :=
  let rel := relative filepath in
  if startswith (lit "areas/projects/shared-db/") rel then lit "schema"
  else if startswith (lit "areas/projects/") rel
          && contains (lit "/rules.md") rel then lit "rules"
  else if startswith (lit "areas/projects/") rel
          && contains (lit "/summary.md") rel then lit "project-summary"
  else if startswith (lit "areas/projects/") rel
          && contains (lit "facts.json") rel then lit "facts"
  else if startswith (lit "areas/patterns/") rel then lit "pattern"
  else if startswith (lit "areas/tools/") rel then lit "tool"
  else if startswith (lit "daily/") rel then lit "daily"
  else if startswith (lit "sessions/") rel then lit "session"
  else if bool_decide (rel = lit "MEMORY.md") then lit "memory"
  else lit "other".

Definition chunk_json (content filepath : str) : res (list chunk) :=
  chunk_json_of (json_loads E content) content filepath.

(** The stored fingerprint of [filepath] is [file_hash]. *)
Definition unchanged (d : db) (filepath file_hash : str) : bool :=
  match files d !! filepath with
  | Some r => bool_decide (fr_hash r = file_hash)
  | None => false
  end.

Definition insert_chunk (filepath category : str) (c : chunk) : M unit :=
  d <- conn ;;
  let rid := next_rowid (chunks d) in
  update_conn (fun d =>
    set_chunks
      (<[rid := mk_chunk_row filepath category (title c) (content c)]>
         (chunks d)) d) ;;;
  d <- conn ;;
  match chunks_meta d !! rid with
  | Some _ =>
      raise (mk_exn IntegrityError
               (lit "UNIQUE constraint failed: chunks_meta.rowid"))
  | None =>
      update_conn (fun d =>
        set_chunks_meta
          (<[rid := mk_meta_row filepath (line_start c) (line_end c)]>
             (chunks_meta d)) d)
  end.

Definition index_file (filepath : str) : M Z :=
  file_hash <- lift (get_file_hash filepath) ;;
  let category := categorize_file filepath in
  d <- conn ;;
  if unchanged d filepath file_hash then ret 0
  else
    let old_rowids :=
      map fst (List.filter
                 (fun kv => bool_decide (cr_path (snd kv) = filepath))
                 (rows_of (chunks d))) in
    update_conn (fun d =>
      set_chunks
        (filter (fun kv : Z * chunk_row => cr_path (snd kv) <> filepath)
           (chunks d)) d) ;;;
    for_each old_rowids (fun rid =>
      update_conn (fun d =>
        set_chunks_meta (delete rid (chunks_meta d)) d) ;;;
      update_conn (fun d =>
        set_embeddings (delete rid (embeddings d)) d)) ;;;
    text <- lift (read_text E filepath) ;;
    new_chunks <-
      (if endswith (lit ".json") filepath
       then lift (chunk_json text filepath)
       else ret (chunk_markdown text filepath MAX_CHUNK_LINES)) ;;
    for_each new_chunks (insert_chunk filepath category) ;;;
    update_conn (fun d =>
      set_files
        (<[filepath := mk_file_row file_hash category (now_isoformat E)]>
           (files d)) d) ;;;
    ret (count new_chunks).

(** [_model_name or unknown]. *)
Definition current_model_of (s : state) : str :=
  match st_model_name s with
  | Some (c :: n) => c :: n
  | _ => lit "unknown"
  end.

Definition insert_embedding (current_model : str) (r : Z * str * vec)
    : M unit :=
  let '(rid, text, emb) := r in
  update_conn (fun d =>
    set_embeddings
      (<[rid := mk_emb_row (_vec_to_blob E emb) current_model
                  (firstn 16 (md5_hexdigest E text))]>
         (embeddings d)) d).

Definition build_embeddings (force : bool) : M Z :=
  model <- _get_embedding_model ;;
  match model with
  | None => print Stderr (MSG_VEC_SKIPPED ++ [NL]) ;;; ret 0
  | Some _ =>
      s <- get_state ;;
      let current_model := current_model_of s in
      d <- conn ;;
      force <-
        match vec_meta d !! lit "model_name" with
        | Some stored =>
            if bool_decide (stored = current_model) then ret force
            else
              print Stderr (MSG_MODEL_CHANGED ++ stored ++ MSG_ARROW
                              ++ current_model ++ MSG_CLEARING ++ [NL]) ;;;
              update_conn (set_embeddings ∅) ;;;
              ret true
        | None => ret force
        end ;;
      update_conn (fun d =>
        set_vec_meta (<[lit "model_name" := current_model]> (vec_meta d))
          d) ;;;
      d <- conn ;;
      let rows :=
        if force then rows_of (chunks d)
        else List.filter
               (fun kv => bool_decide (embeddings d !! fst kv = None))
               (rows_of (chunks d)) in
      match rows with
      | [] => ret 0
      | _ :: _ =>
          print Stderr (MSG_EMBEDDING ++ str_of_Z (count rows)
                          ++ MSG_N_CHUNKS) ;;;
          let texts := map embedded_text rows in
          let rowids := map fst rows in
          embs <- _embed_texts texts ;;
          match embs with
          | [] => print Stderr (MSG_FAILED ++ [NL]) ;;; ret 0
          | _ :: _ =>
              for_each (zip3 rowids texts embs)
                (insert_embedding current_model) ;;;
              commit ;;;
              print Stderr (MSG_DONE ++ [NL]) ;;;
              ret (count embs)
          end
      end
  end.

Definition sync_index : M Z :=
  updated <-
    fold_m (fun updated filepath =>
              try_except
                (n <- index_file filepath ;;
                 ret (if 0 <? n then updated + 1 else updated))
                (fun _ => ret updated))
      (collect_files E) 0 ;;
  (if 0 <? updated then commit else ret tt) ;;;
  ret updated.

Definition rebuild_index (rebuild_bm25 rebuild_vec : bool) : M unit :=
  (if rebuild_bm25 then
     remove_db ;;;
     connect ;;;
     init_db ;;;
     total_chunks <-
       fold_m (fun total_chunks filepath =>
                 try_except
                   (n <- index_file filepath ;;
                    (if 0 <? n
                     then print Stdout
                            (MSG_INDEXED ++ relative filepath ++ lit " ("
                               ++ str_of_Z n ++ MSG_BLOCKS ++ [NL])
                     else ret tt) ;;;
                    ret (total_chunks + n))
                   (fun e =>
                      print Stderr
                        (MSG_SKIPPED ++ filepath ++ lit " (" ++ exn_msg e
                           ++ lit ")" ++ [NL]) ;;;
                      ret total_chunks))
         (collect_files E) 0 ;;
     commit ;;;
     print Stdout
       (MSG_BM25_DONE ++ str_of_Z (count (collect_files E)) ++ MSG_N_FILES
          ++ str_of_Z total_chunks ++ MSG_N_BLOCKS ++ [NL])
   else connect ;;; init_db) ;;;
  (if rebuild_vec then
     n <- build_embeddings true ;;
     print Stdout (MSG_VEC_DONE ++ str_of_Z n ++ MSG_N_EMB ++ [NL])
   else ret tt).

(** [if category_filter:] then [category = ?]. *)
Definition category_matches (category_filter : option str) (cat : str)
    : bool :=
  match category_filter with
  | Some (c :: f) => bool_decide (cat = c :: f)
  | _ => true
  end.

(** The engine's rows joined with the columns of their chunk. *)
Definition fts_columns (d : db) (r : fts_row) : option (fts_row * chunk_row) :=
  match chunks d !! fts_rowid r with
  | Some c => Some (r, c)
  | None => None
  end.

Definition bm25_hit (rc : fts_row * chunk_row) : hit :=
  let (r, c) := rc in
  mk_hit (fts_rowid r) (relative (cr_path c)) (cr_category c) (cr_title c)
    (fts_snippet r) (cr_content c) (round4 E (fneg (fts_rank r))).

(** The SELECT of [bm25_search]. *)
Definition bm25_select (d : db) (sanitized_query : str)
    (category_filter : option str) (max_results : Z)
    : res (list (fts_row * chunk_row)) :=
  match fts5_match E (chunks d) sanitized_query with
  | Raise e => Raise e
  | Ok matched =>
      Ok (sql_limit max_results
            (List.filter
               (fun rc => category_matches category_filter
                            (cr_category (snd rc)))
               (omap (fts_columns d) matched)))
  end.

Definition bm25_search (query : str) (category_filter : option str)
    (max_results : Z) : M (list hit) :=
  let sanitized_query := sanitize_fts_query query in
  d <- conn ;;
  results <-
    try_except (lift (bm25_select d sanitized_query category_filter
                        max_results))
      (fun e =>
         match exn_kind_of e with
         | OperationalError =>
             print Stderr (MSG_SYNTAX ++ exn_msg e ++ [NL]) ;;; ret []
         | _ => raise e
         end) ;;
  ret (map bm25_hit results).

Definition embedding_columns (d : db) (r : Z * emb_row)
    : option (Z * emb_row * chunk_row) :=
  match chunks d !! fst r with
  | Some c => Some (r, c)
  | None => None
  end.

Definition vector_hit (query_vec : vec) (r : Z * emb_row * chunk_row) : hit :=
  let '(rid, e, c) := r in
  mk_hit rid (relative (cr_path c)) (cr_category c) (cr_title c)
    (firstn 200 (cr_content c)) (cr_content c)
    (round4 E (_cosine_similarity query_vec
                 (_blob_to_vec E (er_embedding e)))).

Definition vector_search (query : str) (category_filter : option str)
    (max_results : Z) : M (list hit) :=
  query_vec <- _embed_query query ;;
  match query_vec with
  | None => ret []
  | Some qv =>
      d <- conn ;;
      let rows :=
        List.filter
          (fun r => category_matches category_filter (cr_category (snd r)))
          (omap (embedding_columns d) (rows_of (embeddings d))) in
      match rows with
      | [] => ret []
      | _ :: _ =>
          ret (slice_to max_results
                 (sorted_desc score (map (vector_hit qv) rows)))
      end
  end.

Definition tag (src : str) (results : list hit) : list search_result :=
  map (fun h => Tagged h [src]) results.

(** The start of [search]: the index is built when its file is missing,
    opened, and synchronised with the files. *)
Definition open_index : M Z :=
  s <- get_state ;;
  (match st_file s with
   | None => rebuild_index true true
   | Some _ => ret tt
   end) ;;;
  connect ;;;
  init_db ;;;
  sync_index.

Definition search (query : str) (category_filter : option str)
    (max_results : Z) (mode : str) : M (list search_result) :=
  open_index ;;;
  (if bool_decide (mode = lit "hybrid") || bool_decide (mode = lit "vector")
   then build_embeddings false ;;; ret tt
   else ret tt) ;;;
  if bool_decide (mode = lit "bm25") then
    results <- bm25_search query category_filter max_results ;;
    ret (slice_to max_results (tag (lit "bm25") results))
  else if bool_decide (mode = lit "vector") then
    results <- vector_search query category_filter max_results ;;
    ret (slice_to max_results (tag (lit "vector") results))
  else
    bm25_results <- bm25_search query category_filter BM25_CANDIDATES ;;
    vector_results <- vector_search query category_filter
                        VECTOR_CANDIDATES ;;
    match vector_results with
    | [] => ret (slice_to max_results (tag (lit "bm25") bm25_results))
    | _ :: _ =>
        fused <- lift (rrf_fuse bm25_results vector_results RRF_K
                         max_results) ;;
        ret (map Fused fused)
    end.

End Engine.

(** ** Specification predicates *)

(** The chunks' line ranges follow one another: each starts after [lo] and
    after the end of the one before, and the last one ends by [hi]. *)
Fixpoint ranges_from (lo hi : Z) (cs : list chunk) : Prop :=
  match cs with
  | [] => lo <= hi
  | c :: cs' =>
      lo < line_start c /\ line_start c <= line_end c
      /\ ranges_from (line_end c) hi cs'
  end.

(** What the loop of [chunk_markdown] maintains before line [i]. *)
Definition md_inv (st : md_state) (i : Z) : Prop :=
  ranges_from 0 (current_start st - 1) (md_chunks st)
  /\ current_start st + Z.of_nat (length (current_lines st)) = i.

(** Every chunk's content is already trimmed and longer than 20. *)
Definition long_enough (c : chunk) : Prop :=
  strip (content c) = content c /\ 20 < len (content c).

(** A document: the heading [## Cache Eviction] and five lines of body. *)
Definition cache_doc : str :=
  lit "## Cache Eviction" ++ [NL]
  ++ lit "Entries are evicted in LRU order." ++ [NL]
  ++ lit "The cache holds 512 entries." ++ [NL]
  ++ lit "Eviction runs on insert." ++ [NL]
  ++ lit "Pinned entries are skipped." ++ [NL]
  ++ lit "TTL expiry is checked first.".

Definition cache_path : str := lit "/home/u/.claude/memory/areas/patterns/cache.md".

(** The text of a JSON file with one key: an opening brace, the key [a]
    between double quotes, a colon, the value 1, a closing brace. *)
Definition small_json : str := [123; 34; 97; 34; 58; 32; 49; 125]%N.

(** The sanitizer in the words of its description: a token of CJK
    characters only becomes a prefix term, a token without CJK characters
    a quoted phrase, a mixed token both. *)
Definition pure_cjk (t : str) : bool := forallb is_cjk t.
Definition pure_latin (t : str) : bool := forallb (fun c => negb (is_cjk c)) t.

Definition prefix_term (t : str) : str := t ++ [STAR].

Definition terms_of_token (t : str) : list str :=
  if pure_cjk t then [prefix_term t]
  else if pure_latin t then [quote_term t]
  else [prefix_term (List.filter is_cjk t);
        quote_term (List.filter (fun c => negb (is_cjk c)) t)].

Definition compiled_query (query : str) : str :=
  join [SPACE] (concat (map terms_of_token (split_ws query))).

(** A token of [str.split()]: not empty, no whitespace in it. *)
Definition is_token (t : str) : Prop :=
  t <> [] /\ List.Forall (fun c => is_space c = false) t.

(** The query [ji fen] in CJK characters (U+79EF U+5206). *)
Definition jifen : str := [0x79EF; 0x5206]%N.

(** ** A sample installation *)

(** The engine of the sample: every row of the table matches, the empty
    expression is a syntax error. *)
Definition sample_fts5 (table : gmap Z chunk_row) (expr : str)
    : res (list fts_row) :=
  match expr with
  | [] => Raise (mk_exn OperationalError (lit "fts5: syntax error near end"))
  | _ :: _ =>
      Ok (map (fun r => mk_fts_row (fst r) (firstn 60 (cr_content (snd r)))
                          (fneg float_one))
            (rows_of table))
  end.

Definition sample_hash : str := lit "1.0:158".

Definition sample_env (fe : fastembed_status) : Env :=
  mk_env (lit "/home/u/.claude/memory")
    (fun p => if bool_decide (p = cache_path) then Ok (float_one, 158)
              else Raise (mk_exn OSError (lit "No such file or directory")))
    (fun p => if bool_decide (p = cache_path) then Ok cache_doc
              else Raise (mk_exn OSError (lit "No such file or directory")))
    [cache_path]
    (lit "2026-01-01T00:00:00")
    (fun _ => lit "1.0")
    (fun x => x)
    (fold_right fadd float_zero)
    (fun _ => lit "d41d8cd98f00b204e9800998ecf8427e")
    (fun _ => [])
    (fun _ => [])
    (fun _ => None)
    sample_fts5
    fe
    (lit "BAAI/bge-small-zh-v1.5").

(** The index of the sample once [cache.md] is indexed. *)
Definition sample_db : db :=
  mk_db {[ cache_path := mk_file_row sample_hash (lit "pattern")
                           (lit "2026-01-01T00:00:00") ]}
        {[ 1 := mk_chunk_row cache_path (lit "pattern") (lit "cache.md")
                  cache_doc ]}
        {[ 1 := mk_meta_row cache_path 1 6 ]}
        ∅ ∅.

Definition sample_state (d : db) : state := mk_state (Some d) d None None [].

(** ** Specification of the embedding store *)

(** The rows [insert_embedding] writes, on top of [acc]. *)
Definition store_embeddings (E : Env) (current_model : str)
    (l : list (Z * str * vec)) (acc : gmap Z emb_row) : gmap Z emb_row :=
  fold_left
    (fun acc r =>
       <[fst (fst r) := mk_emb_row (_vec_to_blob E (snd r)) current_model
                          (firstn 16 (md5_hexdigest E (snd (fst r))))]> acc)
    l acc.

Definition with_conn (d : db) (s : state) : state :=
  mk_state (st_file s) d (st_model s) (st_model_name s) (st_out s).

(** A model that embeds every text as the same one-dimensional vector. *)
Definition sample_model : embedder :=
  mk_embedder (map (fun _ => [float_one])) (fun _ => [[float_one]]).

(** The sample index with an embedding stored under another model. *)
Definition switched_db : db :=
  set_vec_meta {[ lit "model_name" := lit "BAAI/bge-small-en-v1.5" ]}
    (set_embeddings
       {[ 1 := mk_emb_row [] (lit "BAAI/bge-small-en-v1.5")
                 (lit "0123456789abcdef");
          7 := mk_emb_row [] (lit "BAAI/bge-small-en-v1.5")
                 (lit "fedcba9876543210") ]}
       sample_db).

(** ** Specification of the provider and of effect frames *)

(** The model [_get_embedding_model] resolves to: the cached one, or the
    one fastembed loads. *)
Definition resolved_model (E : Env) (s : state) : option embedder :=
  match st_model s with
  | Some m => Some m
  | None =>
      match fastembed E with
      | Loads m => Some m
      | _ => None
      end
  end.

(** The vector the provider gives for a query, if any. *)
Definition query_embedding (E : Env) (s : state) (query : str) : option vec :=
  match resolved_model E s with
  | Some m => head (query_embed m query)
  | None => None
  end.

(** A computation relates every state to the state it leaves in [R]. *)
Definition keeps {A} (R : state -> state -> Prop) (c : M A) : Prop :=
  forall s, R s (snd (c s)).

(** A computation returns without raising, and relates the states in [R]. *)
Definition safe {A} (R : state -> state -> Prop) (c : M A) : Prop :=
  forall s, exists a s', c s = (Ok a, s') /\ R s s'.

Definition same_model (E : Env) (s s' : state) : Prop :=
  resolved_model E s' = resolved_model E s.

(** The chunks table and the resolved model are as before. *)
Definition same_chunks_model (E : Env) (s s' : state) : Prop :=
  chunks (st_conn s') = chunks (st_conn s)
  /\ resolved_model E s' = resolved_model E s.

(** A result tagged as coming from the lexical search only. *)
Definition lexical_only (r : search_result) : Prop :=
  exists h, r = Tagged h [lit "bm25"].

(** The sample index when [cache.md] has 21 sections, one chunk each. *)
Definition section_rows : list Z := map Z.of_nat (seq 1 21).

Definition large_db : db :=
  set_chunks
    (list_to_map
       (map (fun i => (i, mk_chunk_row cache_path (lit "pattern")
                            (lit "Section")
                            (lit "## Section" ++ [NL]
                               ++ lit "cache eviction notes, part "
                               ++ str_of_Z i)))
          section_rows))
    (set_chunks_meta
       (list_to_map (map (fun i => (i, mk_meta_row cache_path i i))
                       section_rows))
       sample_db).

(** ** Specification of the fused scores *)

(** A float that is not NaN and carries the sign [s]. *)
Definition signed (s : bool) (f : float) : Prop :=
  match f with
  | S754_zero s' | S754_infinity s' | S754_finite s' _ _ => s' = s
  | S754_nan => False
  end.

(** [1.0 / (k + r)]. *)
Definition reciprocal (k r : Z) : float :=
  fdiv float_one (binary_normalize prec emax (k + r) 0 false).

(** The 1-based rank of the row [rid] in a result list, counting from
    [rank]. *)
Fixpoint rank_from (rid : Z) (rank : Z) (results : list hit) : option Z :=
  match results with
  | [] => None
  | h :: rest =>
      if rowid h =? rid then Some rank else rank_from rid (rank + 1) rest
  end.

Definition rank_in (rid : Z) (results : list hit) : option Z :=
  rank_from rid 1 results.

(** A score with the contribution of a rank added, when there is one. *)
Definition add_rank (k : Z) (total : float) (rank : option Z) : float :=
  match rank with
  | Some r => fadd total (reciprocal k r)
  | None => total
  end.

(** The RRF score of a row: from 0.0, the contribution of its lexical rank,
    then the contribution of its vector rank. *)
Definition rrf_total (k : Z) (rid : Z) (bm25_results vector_results : list hit)
    : float :=
  add_rank k (add_rank k float_zero (rank_in rid bm25_results))
    (rank_in rid vector_results).

(** No earlier score is below a later one. *)
Definition score_ge (a b : fused_hit) : Prop :=
  flt (rrf_score a) (rrf_score b) = false.

(** An occurrence of [a] comes before an occurrence of [b]. *)
Definition before {A} (a b : A) (l : list A) : Prop :=
  exists l1 l2 l3, l = l1 ++ a :: l2 ++ b :: l3.

(** The score in the dict for a row, 0.0 while it has no entry. *)
Definition score_of (fused : fused_dict) (rid : Z) : float :=
  match dict_get rid fused with
  | Some e => rrf_score e
  | None => float_zero
  end.

(** The keys are distinct and each entry's key is its row's id. *)
Definition dict_ok (fused : fused_dict) : Prop :=
  List.NoDup (map fst fused)
  /\ List.Forall (fun p => rowid (f_hit (snd p)) = fst p) fused.

(** What a loop body of [rrf_fuse] does at a rank in range: it returns,
    keeps the dict well formed, and adds the contribution of the rank to
    the score of the result's row, and to no other. *)
Definition adds_contribution
    (step : Z -> fused_dict -> Z -> hit -> res fused_dict) : Prop :=
  forall k fused rank h,
    0 < k + rank < 2 ^ 53 -> dict_ok fused ->
    exists fused',
      step k fused rank h = Ok fused'
      /\ dict_ok fused'
      /\ forall rid,
           score_of fused' rid
           = if rowid h =? rid
             then fadd (score_of fused rid) (reciprocal k rank)
             else score_of fused rid.

(** No earlier key is below a later one. *)
Definition key_ge {A} (key : A -> float) (a b : A) : Prop :=
  flt (key a) (key b) = false.

(** ** The example of four results *)

Definition hit_A : hit :=
  mk_hit 1 (lit "areas/patterns/cache.md") (lit "pattern") (lit "A")
    (lit ">>>cache<<< eviction order") (lit "cache eviction order is LRU")
    float_zero.
Definition hit_B : hit :=
  mk_hit 2 (lit "areas/tools/redis.md") (lit "tool") (lit "B")
    (lit "redis as a >>>cache<<<") (lit "redis is used as a cache in front")
    float_zero.
Definition hit_C : hit :=
  mk_hit 3 (lit "daily/2026-01-01.md") (lit "daily") (lit "C")
    (lit "tuned the >>>cache<<<") (lit "today the cache size was tuned")
    float_zero.
Definition hit_D : hit :=
  mk_hit 4 (lit "sessions/s1.md") (lit "session") (lit "D")
    (lit "memory pressure on the hosts")
    (lit "memory pressure on the hosts was high") float_zero.

(** [0.0 + 1/(60 + r1) + 1/(60 + r2)], added in this order. *)
Definition two_ranks (r1 r2 : Z) : float :=
  fadd (fadd float_zero (reciprocal RRF_K r1)) (reciprocal RRF_K r2).

Definition one_rank (r : Z) : float :=
  fadd float_zero (reciprocal RRF_K r).

Definition fused_A : fused_hit :=
  mk_fused hit_A (two_ranks 1 2) [lit "bm25"; lit "vector"] (Some 1) (Some 2).
Definition fused_B : fused_hit :=
  mk_fused hit_B (two_ranks 2 1) [lit "bm25"; lit "vector"] (Some 2) (Some 1).
Definition fused_C : fused_hit :=
  mk_fused hit_C (one_rank 3) [lit "bm25"] (Some 3) None.
Definition fused_D : fused_hit :=
  mk_fused hit_D (one_rank 3) [lit "vector"] None (Some 3).

(** The deduplication scan without its limit: in score order, a candidate
    is dropped when it is a near-duplicate of an accepted one, and accepted
    otherwise. *)
Definition greedy_dedup (deduped ranked : list fused_hit) : list fused_hit :=
  fold_left
    (fun acc item => if is_dup item acc then acc else acc ++ [item])
    ranked deduped.

(** ** Further specification: the chunker *)

(** The lines [ls] to [le] (1-based, inclusive) of a document. *)
Definition lines_between (lines : list str) (ls le : Z) : list str :=
  firstn (Z.to_nat (le - ls + 1)) (skipn (Z.to_nat (ls - 1)) lines).

(** The content of a chunk is the trimmed text of the lines it cites. *)
Definition covers (lines : list str) (c : chunk) : Prop :=
  content c
  = strip (join [NL] (lines_between lines (line_start c) (line_end c))).

(** What the loop knows of the lines [pre] read so far: the chunks cover
    their lines, and [current_lines] holds the lines from [current_start]
    on. *)
Definition md_content_inv (all pre : list str) (st : md_state) : Prop :=
  List.Forall (covers all) (md_chunks st)
  /\ 1 <= current_start st
  /\ current_start st + Z.of_nat (length (current_lines st))
     = Z.of_nat (length pre) + 1
  /\ current_lines st = skipn (Z.to_nat (current_start st - 1)) pre.

(** A chunk cites at most [n] lines. *)
Definition spans_at_most (n : Z) (c : chunk) : Prop :=
  line_end c - line_start c + 1 <= n.

(** A title the chunker can give: the file's base name, or the text of a
    heading line of the document, which is then not empty. *)
Definition title_from (filepath : str) (lines : list str) (t : str) : Prop :=
  t = basename filepath
  \/ exists line, In line lines /\ startswith [HASH] line = true
                  /\ t = strip (lstrip_chars [HASH] line) /\ t <> [].

(** The loop never holds [n] lines and never emitted a chunk of more than
    [n] lines. *)
Definition md_span_inv (n : Z) (st : md_state) (i : Z) : Prop :=
  current_start st + Z.of_nat (length (current_lines st)) = i
  /\ Z.of_nat (length (current_lines st)) < n
  /\ List.Forall (spans_at_most n) (md_chunks st).

(** ** Further specification: the sanitizer and the similarity *)

(** The number of double quotes in a string. *)
Definition dquotes (s : str) : nat := count_occ N.eq_dec s DQUOTE.


(** ** Further specification: the fusion *)

(** The candidate [a] is too similar to [b] to be returned with it. *)
Definition near_duplicate (a b : fused_hit) : bool :=
  flt JACCARD_THRESHOLD
    (_jaccard_similarity (h_content (f_hit a)) (h_content (f_hit b))).

(** No element of the list is a near-duplicate of one before it. *)
Definition no_near_duplicates (l : list fused_hit) : Prop :=
  forall (i j : nat) a b,
    (i < j)%nat -> nth_error l i = Some a -> nth_error l j = Some b ->
    near_duplicate b a = false.

(** A fused record is one of the input records, but for its snippet. *)
Definition from_inputs (inputs : list hit) (f : fused_hit) : Prop :=
  exists h, In h inputs /\ f_hit f = set_snippet (snippet (f_hit f)) h.

(** The [sources] of a record with the ranks [b] and [v]. *)
Definition sources_of_ranks (b v : option Z) : list str :=
  match b with Some _ => [lit "bm25"] | None => [] end
  ++ match v with Some _ => [lit "vector"] | None => [] end.

(** The dict's entries are well formed and come from [inputs]. *)
Definition dict_from (inputs : list hit) (fused : fused_dict) : Prop :=
  dict_ok fused /\ List.Forall (fun p => from_inputs inputs (snd p)) fused.

(** A field of the entry of a row, [d] while the row has no entry. *)
Definition field_of {X} (proj : fused_hit -> X) (d : X) (fused : fused_dict)
    (rid : Z) : X :=
  match dict_get rid fused with
  | Some e => proj e
  | None => d
  end.

(** The first result for the row [rid] in a list, with its 1-based rank
    counted from [rank]. *)
Fixpoint result_from (rid rank : Z) (results : list hit)
    : option (Z * hit) :=
  match results with
  | [] => None
  | h :: rest =>
      if rowid h =? rid then Some (rank, h)
      else result_from rid (rank + 1) rest
  end.

Definition result_in (rid : Z) (results : list hit) : option hit :=
  option_map snd (result_from rid 1 results).

(** A field after a loop of the fusion over [results], from its value
    [x] before: the loop body changes it by [upd] at the row's result. *)
Definition field_after {X} (upd : Z -> hit -> X -> X) (rid rank : Z)
    (results : list hit) (x : X) : X :=
  match result_from rid rank results with
  | Some (r, h) => upd r h x
  | None => x
  end.

(** The snippet of a fused record, from the row's lexical and vector
    results: a highlighted lexical snippet is kept, otherwise the vector
    result's snippet is taken. *)
Definition fused_snippet (b v : option hit) : option str :=
  match b, v with
  | Some hb, Some hv =>
      Some (if contains (lit ">>>") (snippet hb) then snippet hb
            else snippet hv)
  | Some hb, None => Some (snippet hb)
  | None, Some hv => Some (snippet hv)
  | None, None => None
  end.

(** What a loop body of the fusion does to a field: it changes it at the
    result's row by [upd], and nowhere else. *)
Definition updates_field {X} (proj : fused_hit -> X) (d : X)
    (upd : Z -> hit -> X -> X)
    (step : fused_dict -> Z -> hit -> res fused_dict) : Prop :=
  forall fused rank h fused',
    step fused rank h = Ok fused' ->
    forall rid,
      field_of proj d fused' rid
      = if rowid h =? rid then upd rank h (field_of proj d fused rid)
        else field_of proj d fused rid.

(** ** Further specification: the index *)

(** A triple: from a state in [P] the computation returns some [a] in a
    state in [Q a], or raises some [e] in a state in [X e]. *)
Definition hoare {A} (P : state -> Prop) (c : M A)
    (Q : A -> state -> Prop) (X : exn -> state -> Prop) : Prop :=
  forall s, P s ->
    match c s with
    | (Ok a, s') => Q a s'
    | (Raise e, s') => X e s'
    end.

(** The tables agree: the rows with line ranges are the chunk rows, and
    every embedding belongs to a chunk row. *)
Definition consistent (d : db) : Prop :=
  dom (chunks_meta d) =@{gset Z} dom (chunks d)
  /\ dom (embeddings d) ⊆@{gset Z} dom (chunks d).

(** The committed database agrees with itself. *)
Definition file_ok (s : state) : Prop :=
  forall d, st_file s = Some d -> consistent d.

(** The connection's view is in [C], and the committed database agrees. *)
Definition on_conn (C : db -> Prop) (s : state) : Prop :=
  C (st_conn s) /\ file_ok s.

Definition index_ok : state -> Prop := on_conn consistent.

(** The tables agree but for the rowids [rest], whose chunk rows are
    deleted already. *)
Definition consistent_but (rest : list Z) (d : db) : Prop :=
  dom (chunks_meta d) ∖ list_to_set rest =@{gset Z} dom (chunks d)
  /\ dom (embeddings d) ∖ list_to_set rest ⊆@{gset Z} dom (chunks d).

(** The exception comes from reading the file: from [os.stat], from
    [open] or [read], or, for a JSON file, from [chunk_json]. *)
Definition raised_by_file (E : Env) (filepath : str) (e : exn) : Prop :=
  get_file_hash E filepath = Raise e
  \/ read_text E filepath = Raise e
  \/ exists text, read_text E filepath = Ok text
                  /\ endswith (lit ".json") filepath = true
                  /\ chunk_json E text filepath = Raise e.

(** The chunk rows of the documents other than [filepath]. *)
Definition other_rows (filepath : str) (d : db) : gmap Z chunk_row :=
  filter (fun kv : Z * chunk_row => cr_path (snd kv) <> filepath) (chunks d).

(** The connection's view and the committed database are as before. *)
Definition same_index (s s' : state) : Prop :=
  st_conn s' = st_conn s /\ st_file s' = st_file s.

(** The computation keeps the index consistent, whether it returns or
    raises. *)
Definition preserves {A} (c : M A) : Prop :=
  hoare index_ok c (fun _ => index_ok) (fun _ => index_ok).

(** The committed database is as before. *)
Definition same_file (s s' : state) : Prop := st_file s' = st_file s.

(** The rows of the documents other than [filepath] are as before: their
    chunk rows and their rows in [files]. *)
Definition same_others (filepath : str) (s s' : state) : Prop :=
  other_rows filepath (st_conn s') = other_rows filepath (st_conn s)
  /\ delete filepath (files (st_conn s'))
     = delete filepath (files (st_conn s)).

(** ** Further specification: the searchers *)

(** A result shows a chunk row of the index: its row id, and the path
    (relative to the memory directory), category, title and content of
    that row. *)
Definition hit_of_row (E : Env) (d : db) (h : hit) : Prop :=
  exists row,
    chunks d !! rowid h = Some row
    /\ path h = relative E (cr_path row)
    /\ category h = cr_category row
    /\ h_title h = cr_title row
    /\ h_content h = cr_content row.

(** A result is in the category asked for, when one is asked for. *)
Definition in_category (category_filter : option str) (h : hit) : Prop :=
  forall c, category_filter = Some c -> c <> [] -> category h = c.

(** Every value the computation returns is in [Q]. *)
Definition returns_only {A} (Q : A -> Prop) (c : M A) : Prop :=
  forall s a s', c s = (Ok a, s') -> Q a.

(** ** Further specification: the embeddings *)

(** What a failed load of the model prints. *)
Definition load_failure (E : Env) (err : str) : list (stream * str) :=
  [(Stderr, MSG_LOADING ++ _detect_best_model E ++ lit " ...");
   (Stderr, MSG_FAILED ++ lit ": " ++ err ++ [NL])].

(** The model name [build_embeddings] compares the stored one with: the
    name held once the model is loaded. *)
Definition active_model (E : Env) (s : state) : str :=
  current_model_of (snd (_get_embedding_model E s)).

(** ** Further specification: synchronising twice *)

(** Nothing is left to index for [filepath]: reading it fails, or the
    index holds its current fingerprint. *)
Definition settled (E : Env) (filepath : str) (s : state) : Prop :=
  (exists e, raised_by_file E filepath e)
  \/ exists r, files (st_conn s) !! filepath = Some r
               /\ get_file_hash E filepath = Ok (fr_hash r).

(** The index is consistent and nothing is left to index for the files
    of [done]. *)
Definition synced (E : Env) (done : list str) (s : state) : Prop :=
  index_ok s /\ forall p, In p done -> settled E p s.

(** ** Further specification: rebuilding *)

(** The index holds rows of collected files only: every chunk row and
    every row of [files] is for a path the collector returned. *)
Definition only_collected (E : Env) (d : db) : Prop :=
  (forall rid row, chunks d !! rid = Some row ->
                   In (cr_path row) (collect_files E))
  /\ (forall p r, files d !! p = Some r -> In p (collect_files E)).

(** The chunk rows and the rows of [files] are as before. *)
Definition same_rows (s s' : state) : Prop :=
  chunks (st_conn s') = chunks (st_conn s)
  /\ files (st_conn s') = files (st_conn s).

(** ** Further specification: stale embeddings *)

(** No chunk row of [filepath] has an embedding. *)
Definition fresh_for (filepath : str) (d : db) : Prop :=
  forall rid row,
    chunks d !! rid = Some row -> cr_path row = filepath ->
    embeddings d !! rid = None.

(** No chunk row is of [filepath]. *)
Definition no_rows_of (filepath : str) (d : db) : Prop :=
  forall rid row, chunks d !! rid = Some row -> cr_path row <> filepath.

(** The sample index with an older fingerprint for [cache.md] and an
    embedding for its chunk. *)
Definition stale_db : db :=
  set_files
    {[ cache_path := mk_file_row (lit "0.5:158") (lit "pattern")
                       (lit "2025-12-31T00:00:00") ]}
    (set_embeddings
       {[ 1 := mk_emb_row [] (lit "BAAI/bge-small-zh-v1.5")
                 (lit "0123456789abcdef") ]}
       sample_db).
(** * Properties *)

(** ** Line ranges of the Markdown chunker *)

Lemma ranges_from_weaken lo hi hi' cs :
  ranges_from lo hi cs -> hi <= hi' -> ranges_from lo hi' cs.
Proof.
  revert lo. induction cs as [|c cs IH]; simpl; intros lo H Hle.
  - lia.
  - destruct H as (H1 & H2 & H3). repeat split; auto.
Qed.

Lemma ranges_from_snoc lo hi hi' cs c :
  ranges_from lo hi cs ->
  hi < line_start c -> line_start c <= line_end c -> line_end c <= hi' ->
  ranges_from lo hi' (cs ++ [c]).
Proof.
  revert lo. induction cs as [|c0 cs IH]; simpl; intros lo H Hs Hse He.
  - repeat split; lia.
  - destruct H as (H1 & H2 & H3). repeat split; auto.
Qed.

Lemma ranges_from_append_chunk lo hi hi' cs ttl lines ls le :
  ranges_from lo hi cs -> hi < ls -> ls <= le -> le <= hi' ->
  ranges_from lo hi' (append_chunk cs ttl lines ls le).
Proof.
  intros H Hs Hse He. unfold append_chunk.
  destruct (20 <? len (strip (join [NL] lines))).
  - apply ranges_from_snoc with (hi := hi); simpl; auto.
  - apply ranges_from_weaken with (hi := hi); auto. lia.
Qed.

Lemma md_step_inv max st i line :
  md_inv st i -> md_inv (md_step max st i line) (i + 1).
Proof.
  intros [Hr Hi]. unfold md_step.
  assert (Hflush : forall cl : list str,
            length cl = S (length (current_lines st)) ->
            md_inv (if max <=? Z.of_nat (length cl)
                    then mk_md (append_chunk (md_chunks st) (current_title st)
                                  cl (current_start st) i)
                           (current_title st) [] (i + 1)
                    else mk_md (md_chunks st) (current_title st) cl
                           (current_start st)) (i + 1)).
  { intros cl Hcl. destruct (max <=? _); unfold md_inv;
      cbn [md_chunks current_start current_lines length]; split; try lia.
    - apply ranges_from_append_chunk with (hi := current_start st - 1);
        auto; lia.
    - exact Hr. }
  destruct (startswith [HASH] line);
    destruct (current_lines st) as [|l0 ls] eqn:Hcl.
  - apply Hflush. reflexivity.
  - (* a heading closing the accumulated lines *)
    unfold md_inv; cbn [md_chunks current_start current_lines length].
    cbn [length] in Hi. split; [|lia].
    apply ranges_from_append_chunk with (hi := current_start st - 1);
      auto; lia.
  - apply Hflush. reflexivity.
  - apply Hflush. rewrite length_app. simpl. lia.
Qed.

Lemma md_loop_inv max lines : forall st i,
  md_inv st i ->
  md_inv (md_loop max st i lines) (i + Z.of_nat (length lines)).
Proof.
  induction lines as [|line rest IH]; intros st i H.
  - cbn [md_loop length]. replace (i + Z.of_nat 0) with i by lia. exact H.
  - cbn [md_loop length].
    replace (i + Z.of_nat (S (length rest)))
      with ((i + 1) + Z.of_nat (length rest)) by lia.
    apply IH. apply md_step_inv. exact H.
Qed.

Lemma chunk_markdown_ranges_from text filepath max :
  ranges_from 0 (Z.of_nat (length (split_char NL text)))
    (chunk_markdown text filepath max).
Proof.
  unfold chunk_markdown.
  set (lines := split_char NL text).
  pose proof (md_loop_inv max lines (mk_md [] (basename filepath) [] 1) 1)
    as H.
  destruct H as [Hr Hi].
  { split; simpl; lia. }
  set (st := md_loop max _ 1 lines) in *.
  destruct (current_lines st) as [|l0 ls] eqn:Hcl; simpl in Hi.
  - apply ranges_from_weaken with (hi := current_start st - 1); auto. lia.
  - apply ranges_from_append_chunk with (hi := current_start st - 1);
      auto; lia.
Qed.

Lemma ranges_from_bounds lo hi cs :
  ranges_from lo hi cs ->
  Forall (fun c => lo < line_start c /\ line_start c <= line_end c
                   /\ line_end c <= hi) cs.
Proof.
  revert lo. induction cs as [|c cs IH]; simpl; intros lo H.
  - constructor.
  - destruct H as (H1 & H2 & H3).
    pose proof (IH _ H3) as HF.
    assert (Hhi : line_end c <= hi).
    { clear - H3. revert H3. generalize (line_end c).
      induction cs as [|c' cs IH']; simpl; intros z H; [exact H|].
      destruct H as (? & ? & H). apply IH' in H. lia. }
    constructor; [lia|].
    eapply Forall_impl; [exact HF|]. simpl. intros a Ha. lia.
Qed.

Lemma ranges_from_adjacent lo hi cs (i : nat) c1 c2 :
  ranges_from lo hi cs ->
  nth_error cs i = Some c1 -> nth_error cs (S i) = Some c2 ->
  line_end c1 < line_start c2.
Proof.
  revert lo i. induction cs as [|c cs IH]; intros lo i H H1 H2.
  - destruct i; discriminate.
  - destruct H as (_ & _ & H3). destruct i as [|i]; simpl in H1, H2.
    + injection H1 as <-. destruct cs as [|c' cs]; [discriminate|].
      injection H2 as <-. simpl in H3. lia.
    + eapply IH; eauto.
Qed.

(** C10. For every input text (and every [max_chunk_lines]) the chunks
    [chunk_markdown] returns come in document order with well-formed,
    pairwise disjoint line ranges: each chunk has
    [1 <= line_start <= line_end <= number of lines of the input], and each
    chunk starts strictly after the end of the chunk before it. *)
Theorem chunk_markdown_line_ranges (text filepath : str) (max_chunk_lines : Z) :
  let cs := chunk_markdown text filepath max_chunk_lines in
  let total := Z.of_nat (length (split_char NL text)) in
  Forall (fun c => 1 <= line_start c /\ line_start c <= line_end c
                   /\ line_end c <= total) cs
  /\ (forall (i : nat) c1 c2,
        nth_error cs i = Some c1 -> nth_error cs (S i) = Some c2 ->
        line_end c1 < line_start c2).
Proof.
  intros cs total.
  pose proof (chunk_markdown_ranges_from text filepath max_chunk_lines) as H.
  fold cs total in H. split.
  - eapply Forall_impl; [apply (ranges_from_bounds _ _ _ H)|].
    simpl. intros a Ha. lia.
  - intros i c1 c2. apply (ranges_from_adjacent _ _ _ _ _ _ H).
Qed.

(** ** Minimum length of chunks *)

Lemma drop_while_idem p s : drop_while p (drop_while p s) = drop_while p s.
Proof.
  induction s as [|c s IH]; simpl; [reflexivity|].
  destruct (p c) eqn:Hc; [exact IH|]. simpl. rewrite Hc. reflexivity.
Qed.

Lemma drop_while_app_stop p l c r :
  p c = false -> drop_while p (l ++ c :: r) = drop_while p l ++ c :: r.
Proof.
  intros Hc. induction l as [|x l IH]; simpl.
  - rewrite Hc. reflexivity.
  - destruct (p x); [exact IH|reflexivity].
Qed.

Lemma drop_while_head p s :
  match drop_while p s with
  | [] => True
  | c :: _ => p c = false
  end.
Proof.
  induction s as [|c s IH]; simpl; [exact I|].
  destruct (p c) eqn:Hc; [exact IH|]. exact Hc.
Qed.

Lemma rstrip_idem s : rstrip (rstrip s) = rstrip s.
Proof.
  unfold rstrip. rewrite rev_involutive, drop_while_idem. reflexivity.
Qed.

Lemma lstrip_rstrip_lstrip s : lstrip (rstrip (lstrip s)) = rstrip (lstrip s).
Proof.
  unfold lstrip at 2 3. pose proof (drop_while_head is_space s) as H.
  destruct (drop_while is_space s) as [|c t]; [reflexivity|].
  unfold rstrip. simpl rev. rewrite (drop_while_app_stop _ _ _ _ H).
  rewrite rev_app_distr. simpl. unfold lstrip. simpl. rewrite H. reflexivity.
Qed.

Lemma strip_idem s : strip (strip s) = strip s.
Proof.
  unfold strip. rewrite lstrip_rstrip_lstrip. apply rstrip_idem.
Qed.

Lemma append_chunk_long_enough cs ttl lines ls le :
  Forall long_enough cs ->
  Forall long_enough (append_chunk cs ttl lines ls le).
Proof.
  intros H. unfold append_chunk.
  destruct (20 <? len (strip (join [NL] lines))) eqn:Hlen; [|exact H].
  apply Forall_app. split; [exact H|]. constructor; [|constructor].
  split; simpl; [apply strip_idem | lia].
Qed.

Lemma md_step_long_enough max st i line :
  Forall long_enough (md_chunks st) ->
  Forall long_enough (md_chunks (md_step max st i line)).
Proof.
  intros H. unfold md_step.
  destruct (startswith [HASH] line); destruct (current_lines st);
    try destruct (max <=? _); cbn [md_chunks];
    auto using append_chunk_long_enough.
Qed.

Lemma md_loop_long_enough max lines : forall st i,
  Forall long_enough (md_chunks st) ->
  Forall long_enough (md_chunks (md_loop max st i lines)).
Proof.
  induction lines as [|line rest IH]; intros st i H; cbn [md_loop].
  - exact H.
  - apply IH. apply md_step_long_enough. exact H.
Qed.

Lemma chunk_markdown_long_enough text filepath max :
  Forall long_enough (chunk_markdown text filepath max).
Proof.
  unfold chunk_markdown.
  pose proof (md_loop_long_enough max (split_char NL text)
                (mk_md [] (basename filepath) [] 1) 1) as H.
  specialize (H (List.Forall_nil _)).
  destruct (current_lines _); auto using append_chunk_long_enough.
Qed.

(** C7, as amended. Every chunk [chunk_markdown] produces has content
    whose trimmed length is strictly greater than 20 characters: a shorter
    fragment is dropped and never emitted. *)
Theorem chunk_markdown_min_length (text filepath : str) (max_chunk_lines : Z) :
  Forall (fun c => 20 < len (strip (content c)))
    (chunk_markdown text filepath max_chunk_lines).
Proof.
  eapply Forall_impl; [apply chunk_markdown_long_enough|].
  intros c [Hs Hl]. rewrite Hs. exact Hl.
Qed.

(** C7, as stated, fails on the JSON path: the file with the single key
    [a] and the value 1 gives one chunk, whose content [a: 1] has four
    characters; and a file that is not JSON gives its own text, however
    short. *)
Lemma chunk_json_short_chunk :
  chunk_json_of (Some (JsonDict [(lit "a", lit "1")])) small_json
    (lit "/m/areas/projects/p/prefix-map.json")
  = Ok [mk_chunk (lit "a") (lit "a: 1") 1 1]
  /\ len (strip (lit "a: 1")) = 4
  /\ chunk_json_of None (lit "oops") (lit "/m/areas/projects/p/facts.json")
     = Ok [mk_chunk (lit "facts.json") (lit "oops") 1 1]
  /\ len (strip (lit "oops")) = 4.
Proof. repeat split. Qed.

(** ** The title of a document that opens with its heading *)

(** C2, on the code. The document made of the heading [## Cache Eviction]
    and five body lines gives exactly one chunk with lines 1 to 6, but its
    title is the base name of the file, not the heading text: the first
    line finds [current_lines] empty, so the loop appends it like a body
    line and leaves [current_title] as it was. *)
Theorem chunk_markdown_leading_heading_title :
  chunk_markdown cache_doc cache_path MAX_CHUNK_LINES
  = [mk_chunk (lit "cache.md") cache_doc 1 6]
  /\ lit "cache.md" <> lit "Cache Eviction"
  /\ 20 < len (strip cache_doc).
Proof.
  split; [vm_compute; reflexivity|]. split; [discriminate|].
  vm_compute. reflexivity.
Qed.

(** ** The query sanitizer *)

Lemma drop_while_no_space t :
  List.Forall (fun c => is_space c = false) t -> drop_while is_space t = t.
Proof.
  intros H. destruct H as [|c t Hc Ht]; simpl; [reflexivity|].
  rewrite Hc. reflexivity.
Qed.

Lemma strip_no_space t :
  List.Forall (fun c => is_space c = false) t -> strip t = t.
Proof.
  intros H. unfold strip, lstrip, rstrip.
  rewrite (drop_while_no_space t H).
  rewrite drop_while_no_space.
  - apply rev_involutive.
  - apply List.Forall_rev. exact H.
Qed.

Lemma split_ws_aux_tokens s : forall cur,
  List.Forall (fun c => is_space c = false) cur ->
  List.Forall is_token (split_ws_aux cur s).
Proof.
  induction s as [|c s IH]; intros cur Hcur; simpl.
  - destruct cur as [|x cur]; constructor; [|constructor].
    split.
    + simpl. intros Hnil. apply app_eq_nil in Hnil. destruct Hnil; discriminate.
    + apply List.Forall_rev. exact Hcur.
  - destruct (is_space c) eqn:Hc.
    + destruct cur as [|x cur].
      * apply IH. constructor.
      * constructor; [|apply IH; constructor].
        split.
        -- simpl. intros Hnil. apply app_eq_nil in Hnil.
           destruct Hnil; discriminate.
        -- apply List.Forall_rev. exact Hcur.
    + apply IH. constructor; assumption.
Qed.

Lemma split_ws_tokens query : List.Forall is_token (split_ws query).
Proof. apply split_ws_aux_tokens. constructor. Qed.

Lemma filter_all p (t : str) : forallb p t = true -> List.filter p t = t.
Proof.
  induction t as [|c t IH]; simpl; [reflexivity|].
  intros H. apply andb_prop in H. destruct H as [Hc Ht].
  rewrite Hc, IH; auto.
Qed.

Lemma filter_none p (t : str) :
  forallb (fun c => negb (p c)) t = true -> List.filter p t = [].
Proof.
  induction t as [|c t IH]; simpl; [reflexivity|].
  intros H. apply andb_prop in H. destruct H as [Hc Ht].
  destruct (p c); [discriminate|]. auto.
Qed.

Lemma filter_nil_all p (t : str) :
  List.filter p t = [] -> forallb (fun c => negb (p c)) t = true.
Proof.
  induction t as [|c t IH]; simpl; [reflexivity|].
  destruct (p c); [discriminate|]. simpl. exact IH.
Qed.

Lemma filter_neg_all p (t : str) :
  forallb p t = true -> List.filter (fun c => negb (p c)) t = [].
Proof.
  induction t as [|c t IH]; simpl; [reflexivity|].
  intros H. apply andb_prop in H. destruct H as [Hc Ht].
  rewrite Hc. simpl. auto.
Qed.

Lemma filter_neg_nil_all p (t : str) :
  List.filter (fun c => negb (p c)) t = [] -> forallb p t = true.
Proof.
  induction t as [|c t IH]; simpl; [reflexivity|].
  destruct (p c); simpl; [exact IH|discriminate].
Qed.

Lemma filter_no_space p (t : str) :
  List.Forall (fun c => is_space c = false) t ->
  List.Forall (fun c => is_space c = false) (List.filter p t).
Proof.
  induction 1 as [|c t Hc Ht IH]; simpl; [constructor|].
  destruct (p c); [constructor|]; assumption.
Qed.

(** One token: the loop body appends the terms its description gives. *)
Lemma sanitize_token_terms sanitized t :
  is_token t -> sanitize_token sanitized t = sanitized ++ terms_of_token t.
Proof.
  intros [Hne Hsp]. unfold sanitize_token, terms_of_token.
  rewrite (strip_no_space t Hsp).
  rewrite (strip_no_space _ (filter_no_space (fun c => negb (is_cjk c)) t Hsp)).
  destruct t as [|c0 t0] eqn:Et; [congruence|]. rewrite <- Et in *.
  unfold pure_cjk, pure_latin.
  destruct (forallb is_cjk t) eqn:Hall.
  - (* CJK characters only *)
    rewrite (filter_all _ _ Hall).
    rewrite (filter_neg_all _ _ Hall). rewrite Et. reflexivity.
  - destruct (forallb (fun c => negb (is_cjk c)) t) eqn:Hlat.
    + (* no CJK character *)
      rewrite (filter_none _ _ Hlat). reflexivity.
    + (* mixed *)
      destruct (List.filter is_cjk t) as [|x xs] eqn:Hc.
      { apply filter_nil_all in Hc. congruence. }
      destruct (List.filter (fun c => negb (is_cjk c)) t) as [|y ys] eqn:Hn.
      { apply filter_neg_nil_all in Hn. congruence. }
      rewrite <- app_assoc. reflexivity.
Qed.

Lemma sanitize_tokens_terms tokens : forall sanitized,
  List.Forall is_token tokens ->
  fold_left sanitize_token tokens sanitized
  = sanitized ++ concat (map terms_of_token tokens).
Proof.
  induction tokens as [|t tokens IH]; intros sanitized H; simpl.
  - rewrite app_nil_r. reflexivity.
  - inversion H as [|? ? Ht Hts]; subst.
    rewrite IH by assumption.
    rewrite sanitize_token_terms by assumption.
    rewrite <- app_assoc. reflexivity.
Qed.

(** C5. [sanitize_fts_query] splits the raw query on whitespace and maps
    each token: a pure-CJK token becomes the prefix term [token*], a token
    without CJK characters becomes a quoted phrase with its double quotes
    doubled, a mixed token gives both a CJK prefix term and a quoted term
    of the rest; the terms are joined by spaces. In particular the CJK
    query [ji fen] compiles to the single prefix term, and [cache TTL]
    compiles to the two quoted phrases. *)
Theorem sanitize_fts_query_terms :
  (forall query, sanitize_fts_query query = compiled_query query)
  /\ sanitize_fts_query jifen = jifen ++ [STAR]
  /\ sanitize_fts_query (lit "cache TTL")
     = [DQUOTE] ++ lit "cache" ++ [DQUOTE; SPACE; DQUOTE] ++ lit "TTL"
         ++ [DQUOTE]
  /\ quote_term (lit "a" ++ [DQUOTE] ++ lit "b")
     = [DQUOTE] ++ lit "a" ++ [DQUOTE; DQUOTE] ++ lit "b" ++ [DQUOTE].
Proof.
  split; [|repeat split].
  intros query. unfold sanitize_fts_query, compiled_query.
  rewrite sanitize_tokens_terms by apply split_ws_tokens.
  reflexivity.
Qed.

(** ** Fingerprint gating *)

Lemma index_file_skips (E : Env) (filepath file_hash : str) (s : state)
    (r : file_row) :
  get_file_hash E filepath = Ok file_hash ->
  files (st_conn s) !! filepath = Some r ->
  fr_hash r = file_hash ->
  index_file E filepath s = (Ok 0, s).
Proof.
  intros Hh Hr Heq. unfold index_file, bind, lift, conn, ret.
  rewrite Hh. unfold unchanged. rewrite Hr.
  rewrite bool_decide_eq_true_2 by exact Heq. reflexivity.
Qed.

(** A sync over files that all have their fingerprint stored updates
    nothing and does not commit. *)
Lemma sync_index_all_unchanged (E : Env) (s : state) :
  (forall filepath, In filepath (collect_files E) ->
     exists r, files (st_conn s) !! filepath = Some r
               /\ get_file_hash E filepath = Ok (fr_hash r)) ->
  sync_index E s = (Ok 0, s).
Proof.
  intros Hall. unfold sync_index.
  assert (Hfold : forall l, (forall f, In f l -> In f (collect_files E)) ->
            fold_m (fun updated filepath =>
                      try_except
                        (bind (index_file E filepath) (fun n =>
                           ret (if 0 <? n then updated + 1 else updated)))
                        (fun _ => ret updated)) l 0 s = (Ok 0, s)).
  { induction l as [|f l IH]; intros Hl; [reflexivity|].
    cbn [fold_m]. unfold bind at 1, try_except at 1, bind at 1.
    destruct (Hall f (Hl f (or_introl eq_refl))) as (r & Hr & Hh).
    rewrite (index_file_skips E f (fr_hash r) s r Hh Hr eq_refl).
    cbn. apply IH. intros f' Hf'. apply Hl. right. exact Hf'. }
  unfold bind at 1. rewrite (Hfold _ (fun f H => H)). reflexivity.
Qed.

(** C8. When the fingerprint stored in [files] for a path equals the
    freshly recomputed one, [index_file] returns 0 and writes nothing: the
    connection's tables (chunks, chunks_meta, embeddings, files), the
    database file and everything else are as before. *)
Theorem index_file_unchanged (E : Env) (filepath file_hash : str) (s : state)
    (r : file_row) :
  get_file_hash E filepath = Ok file_hash ->
  files (st_conn s) !! filepath = Some r ->
  fr_hash r = file_hash ->
  index_file E filepath s = (Ok 0, s).
Proof. apply index_file_skips. Qed.

Lemma index_file_unchanged_witness :
  index_file (sample_env NotInstalled) cache_path (sample_state sample_db)
  = (Ok 0, sample_state sample_db).
Proof.
  apply (index_file_unchanged (sample_env NotInstalled) cache_path sample_hash
           (sample_state sample_db)
           (mk_file_row sample_hash (lit "pattern")
              (lit "2026-01-01T00:00:00"))).
  - vm_compute. reflexivity.
  - vm_compute. reflexivity.
  - reflexivity.
Defined.

(** ** Query syntax errors *)

(** C9. When the full-text engine rejects the sanitized query with an
    operational (syntax) error, [bm25_search] catches it: it returns the
    empty result list, after printing the warning with the engine's message
    on the error stream, and changes nothing else. *)
Theorem bm25_search_syntax_error (E : Env) (query : str)
    (category_filter : option str) (max_results : Z) (s : state) (e : exn) :
  fts5_match E (chunks (st_conn s)) (sanitize_fts_query query) = Raise e ->
  exn_kind_of e = OperationalError ->
  bm25_search E query category_filter max_results s
  = (Ok [],
     mk_state (st_file s) (st_conn s) (st_model s) (st_model_name s)
       (st_out s ++ [(Stderr, MSG_SYNTAX ++ exn_msg e ++ [NL])])).
Proof.
  intros He Hk.
  unfold bm25_search, bind, conn, try_except, lift, bm25_select.
  rewrite He, Hk. reflexivity.
Qed.

Lemma bm25_search_syntax_error_witness :
  bm25_search (sample_env NotInstalled) [] None BM25_CANDIDATES
    (sample_state sample_db)
  = (Ok [],
     mk_state (Some sample_db) sample_db None None
       [(Stderr, MSG_SYNTAX ++ lit "fts5: syntax error near end" ++ [NL])]).
Proof.
  apply (bm25_search_syntax_error (sample_env NotInstalled) [] None
           BM25_CANDIDATES (sample_state sample_db)
           (mk_exn OperationalError (lit "fts5: syntax error near end"))).
  - reflexivity.
  - reflexivity.
Defined.

(** ** Model switch *)

Lemma get_model_inv E s m s1 :
  _get_embedding_model E s = (Ok (Some m), s1) ->
  st_model s1 = Some m /\ st_conn s1 = st_conn s /\ st_file s1 = st_file s.
Proof.
  unfold _get_embedding_model, bind, get_state, ret.
  destruct (st_model s) as [m0|] eqn:Hm.
  - intros H. injection H as <- <-. auto.
  - destruct (fastembed E) as [|err|m1]; cbn; intros H;
      try discriminate.
    injection H as <- <-. cbn. auto.
Qed.

Lemma get_model_cached E s m :
  st_model s = Some m -> _get_embedding_model E s = (Ok (Some m), s).
Proof.
  intros H. unfold _get_embedding_model, bind, get_state, ret.
  rewrite H. reflexivity.
Qed.

Lemma for_each_insert_embedding E cm l : forall s,
  for_each l (insert_embedding E cm) s
  = (Ok tt,
     with_conn (set_embeddings
                  (store_embeddings E cm l (embeddings (st_conn s)))
                  (st_conn s)) s).
Proof.
  induction l as [|[[rid text] emb] l IH]; intros s.
  - destruct s as [f [a b c d e] m n o]. reflexivity.
  - cbn [for_each]. unfold bind at 1.
    unfold insert_embedding at 1. unfold update_conn at 1.
    rewrite IH. reflexivity.
Qed.

Lemma store_embeddings_model E cm l : forall acc,
  map_Forall (fun _ r => er_model r = cm) acc ->
  map_Forall (fun _ r => er_model r = cm) (store_embeddings E cm l acc).
Proof.
  induction l as [|r l IH]; intros acc H; [exact H|].
  apply IH. apply map_Forall_insert_2; [reflexivity|exact H].
Qed.

Lemma store_embeddings_lookup E cm l : forall acc rid,
  is_Some (store_embeddings E cm l acc !! rid)
  <-> In rid (map (fun r => fst (fst r)) l) \/ is_Some (acc !! rid).
Proof.
  induction l as [|r l IH]; intros acc rid; simpl.
  - tauto.
  - unfold store_embeddings in *. simpl. rewrite IH.
    rewrite lookup_insert_is_Some'. tauto.
Qed.

Lemma zip3_rowids {A B C} (a : list A) : forall (b : list B) (c : list C),
  length b = length a -> length c = length a ->
  map (fun r => fst (fst r)) (zip3 a b c) = a.
Proof.
  induction a as [|x a IH]; intros [|y b] [|z c] Hb Hc; simpl in *;
    try discriminate; try reflexivity.
  f_equal. apply IH; congruence.
Qed.

Lemma rows_of_rowids {V} (m : gmap Z V) rid :
  In rid (map fst (rows_of m)) <-> is_Some (m !! rid).
Proof.
  unfold rows_of. rewrite <- list_elem_of_In.
  rewrite (merge_sort_Permutation rowid_le (map_to_list m)).
  rewrite list_elem_of_fmap. split.
  - intros [[k v] [-> Hin]]. apply elem_of_map_to_list in Hin. simpl. eauto.
  - intros [v Hv]. exists (rid, v). split; [reflexivity|].
    apply elem_of_map_to_list. exact Hv.
Qed.

(** C3. When the model name stored in [vec_meta] differs from the newly
    resolved one, [build_embeddings] (whatever [force] is) returns, and the
    embeddings table it leaves is exactly what the new inserts give on the
    empty table: every previously stored row was deleted before the first
    insert. Hence every row carries the new model name, [vec_meta] names
    the new model, and, when the provider returns one vector per chunk,
    the table has a row for each chunk and for nothing else. *)
Theorem build_embeddings_model_switch (E : Env) (force : bool) (s s1 : state)
    (m : embedder) (stored : str) :
  _get_embedding_model E s = (Ok (Some m), s1) ->
  vec_meta (st_conn s) !! lit "model_name" = Some stored ->
  stored <> current_model_of s1 ->
  let current := current_model_of s1 in
  let rows := rows_of (chunks (st_conn s)) in
  let texts := map embedded_text rows in
  exists n s',
    build_embeddings E force s = (Ok n, s')
    /\ embeddings (st_conn s')
       = store_embeddings E current
           (zip3 (map fst rows) texts (embed m texts)) ∅
    /\ map_Forall (fun _ r => er_model r = current) (embeddings (st_conn s'))
    /\ vec_meta (st_conn s') !! lit "model_name" = Some current
    /\ (length (embed m texts) = length rows ->
        forall rid, is_Some (embeddings (st_conn s') !! rid)
                    <-> is_Some (chunks (st_conn s) !! rid)).
Proof.
  intros Hm Hstored Hne current rows texts.
  destruct (get_model_inv _ _ _ _ Hm) as (Hm1 & Hc1 & Hf1).
  assert (Hall : map_Forall (fun _ r => er_model r = current)
                   (store_embeddings E current
                      (zip3 (map fst rows) texts (embed m texts)) ∅)).
  { apply store_embeddings_model. apply map_Forall_empty. }
  assert (Hdom : length (embed m texts) = length rows ->
                 forall rid,
                   is_Some (store_embeddings E current
                              (zip3 (map fst rows) texts (embed m texts)) ∅
                              !! rid)
                   <-> is_Some (chunks (st_conn s) !! rid)).
  { intros Hlen rid. rewrite store_embeddings_lookup.
    rewrite zip3_rowids.
    - unfold rows. rewrite rows_of_rowids. rewrite lookup_empty.
      split; [intros [H|H]; [exact H|destruct H; discriminate]|auto].
    - unfold texts. rewrite !length_map. reflexivity.
    - rewrite length_map. exact Hlen. }
  unfold build_embeddings. unfold bind at 1. rewrite Hm.
  unfold bind at 1. unfold get_state at 1.
  unfold bind at 1. unfold conn at 1.
  rewrite Hc1, Hstored. fold current.
  rewrite bool_decide_eq_false_2 by exact Hne.
  cbv [bind print update_conn ret conn].
  cbn [st_conn st_file st_model st_model_name st_out chunks embeddings
       vec_meta set_vec_meta set_embeddings].
  rewrite Hc1. fold rows. fold texts.
  clearbody texts. clearbody rows.
  destruct rows as [|r0 rows'].
  - eexists _, _. split; [reflexivity|].
    cbn [st_conn embeddings vec_meta set_vec_meta set_embeddings].
    split; [reflexivity|]. split; [exact Hall|].
    split; [apply lookup_insert_eq|exact Hdom].
  - cbn [st_conn st_file st_model st_model_name st_out].
    unfold _embed_texts, bind.
    rewrite (get_model_cached E _ m) by exact Hm1.
    unfold ret.
    destruct (embed m texts) as [|e0 embs'] eqn:Hembs.
    + assert (Hz : zip3 (map fst (r0 :: rows')) texts (@nil vec) = [])
        by (destruct texts; reflexivity).
      rewrite Hz in *.
      eexists _, _. split; [reflexivity|].
      cbn [st_conn embeddings vec_meta set_vec_meta set_embeddings].
      split; [reflexivity|]. split; [exact Hall|].
      split; [apply lookup_insert_eq|exact Hdom].
    + rewrite <- Hembs in *.
      rewrite for_each_insert_embedding.
      unfold commit, with_conn.
      eexists _, _. split; [reflexivity|].
      cbn [st_conn embeddings vec_meta set_embeddings set_vec_meta].
      split; [reflexivity|]. split; [exact Hall|].
      split; [apply lookup_insert_eq|exact Hdom].
Qed.

Lemma build_embeddings_model_switch_witness :
  exists n s',
    build_embeddings (sample_env (Loads sample_model)) false
      (sample_state switched_db) = (Ok n, s')
    /\ map_Forall (fun _ r => er_model r = lit "BAAI/bge-small-zh-v1.5")
         (embeddings (st_conn s'))
    /\ is_Some (embeddings (st_conn s') !! 1)
    /\ embeddings (st_conn s') !! 7 = None.
Proof.
  destruct (build_embeddings_model_switch (sample_env (Loads sample_model))
              false (sample_state switched_db)
              (snd (_get_embedding_model (sample_env (Loads sample_model))
                      (sample_state switched_db)))
              sample_model (lit "BAAI/bge-small-en-v1.5"))
    as (n & s' & Hrun & Hemb & Hall & Hmeta & Hdom).
  - reflexivity.
  - reflexivity.
  - intros H. vm_compute in H. discriminate.
  - exists n, s'. split; [exact Hrun|]. split; [exact Hall|].
    specialize (Hdom eq_refl). split.
    + apply Hdom. vm_compute. eauto.
    + destruct (embeddings (st_conn s') !! 7) eqn:H7; [|reflexivity].
      assert (Hs : is_Some (embeddings (st_conn s') !! 7)) by eauto.
      apply Hdom in Hs. vm_compute in Hs. destruct Hs as [x Hx].
      discriminate.
Defined.

(** ** Effect frames *)

Section Frames.

Context {R : state -> state -> Prop} `{!PreOrder R}.

Lemma keeps_ret {A} (a : A) : keeps R (ret a).
Proof. intros s. reflexivity. Qed.

Lemma keeps_lift {A} (r : res A) : keeps R (lift r).
Proof. intros s. reflexivity. Qed.

Lemma keeps_raise {A} (e : exn) : keeps R (@raise A e).
Proof. intros s. reflexivity. Qed.

Lemma keeps_get_state : keeps R get_state.
Proof. intros s. reflexivity. Qed.

Lemma keeps_conn : keeps R conn.
Proof. intros s. reflexivity. Qed.

Lemma keeps_bind {A B} (c : M A) (k : A -> M B) :
  keeps R c -> (forall a, keeps R (k a)) -> keeps R (bind c k).
Proof.
  intros Hc Hk s. unfold bind. specialize (Hc s).
  destruct (c s) as [[a|e] s']; simpl in *.
  - etransitivity; [exact Hc|]. apply Hk.
  - exact Hc.
Qed.

Lemma keeps_try_except {A} (c : M A) (h : exn -> M A) :
  keeps R c -> (forall e, keeps R (h e)) -> keeps R (try_except c h).
Proof.
  intros Hc Hh s. unfold try_except. specialize (Hc s).
  destruct (c s) as [[a|e] s']; simpl in *.
  - exact Hc.
  - etransitivity; [exact Hc|]. apply Hh.
Qed.

Lemma keeps_for_each {A} (l : list A) (body : A -> M unit) :
  (forall a, keeps R (body a)) -> keeps R (for_each l body).
Proof.
  intros Hb. induction l as [|x l IH]; simpl.
  - apply keeps_ret.
  - apply keeps_bind; [apply Hb|]. intros _. exact IH.
Qed.

Lemma keeps_fold_m {A B} (f : B -> A -> M B) (l : list A) :
  (forall b a, keeps R (f b a)) -> forall acc, keeps R (fold_m f l acc).
Proof.
  intros Hf. induction l as [|x l IH]; intros acc; simpl.
  - apply keeps_ret.
  - apply keeps_bind; [apply Hf|]. intros b. apply IH.
Qed.

Lemma safe_ret {A} (a : A) : safe R (ret a).
Proof. intros s. exists a, s. split; reflexivity. Qed.

Lemma safe_get_state : safe R get_state.
Proof. intros s. exists s, s. split; reflexivity. Qed.

Lemma safe_conn : safe R conn.
Proof. intros s. exists (st_conn s), s. split; reflexivity. Qed.

Lemma safe_bind {A B} (c : M A) (k : A -> M B) :
  safe R c -> (forall a, safe R (k a)) -> safe R (bind c k).
Proof.
  intros Hc Hk s. unfold bind.
  destruct (Hc s) as (a & s' & -> & H1).
  destruct (Hk a s') as (b & s'' & -> & H2).
  exists b, s''. split; [reflexivity|]. etransitivity; eassumption.
Qed.

Lemma safe_for_each {A} (l : list A) (body : A -> M unit) :
  (forall a, safe R (body a)) -> safe R (for_each l body).
Proof.
  intros Hb. induction l as [|x l IH]; simpl.
  - apply safe_ret.
  - apply safe_bind; [apply Hb|]. intros _. exact IH.
Qed.

Lemma safe_keeps {A} (c : M A) : safe R c -> keeps R c.
Proof. intros H s. destruct (H s) as (a & s' & -> & Hr). exact Hr. Qed.

End Frames.

#[global] Instance same_model_preorder E : PreOrder (same_model E).
Proof.
  split.
  - intros s. reflexivity.
  - intros s1 s2 s3 H1 H2. unfold same_model in *. congruence.
Qed.

#[global] Instance same_chunks_model_preorder E :
  PreOrder (same_chunks_model E).
Proof.
  split.
  - intros s. split; reflexivity.
  - intros s1 s2 s3 [H1 H1'] [H2 H2']. split; congruence.
Qed.

Lemma keeps_model_update_conn E f : keeps (same_model E) (update_conn f).
Proof. intros s. reflexivity. Qed.

Lemma keeps_model_print E f text : keeps (same_model E) (print f text).
Proof. intros s. reflexivity. Qed.

Lemma keeps_model_connect E : keeps (same_model E) connect.
Proof. intros s. reflexivity. Qed.

Lemma keeps_model_init_db E : keeps (same_model E) init_db.
Proof. intros s. reflexivity. Qed.

Lemma keeps_model_commit E : keeps (same_model E) commit.
Proof. intros s. reflexivity. Qed.

Lemma keeps_model_remove_db E : keeps (same_model E) remove_db.
Proof. intros s. reflexivity. Qed.

Lemma safe_print E f text : safe (same_chunks_model E) (print f text).
Proof. intros s. eexists _, _. split; [reflexivity|]. split; reflexivity. Qed.

Lemma safe_commit E : safe (same_chunks_model E) commit.
Proof. intros s. eexists _, _. split; [reflexivity|]. split; reflexivity. Qed.

Lemma safe_update_conn E f :
  (forall d, chunks (f d) = chunks d) ->
  safe (same_chunks_model E) (update_conn f).
Proof.
  intros Hf s. eexists _, _. split; [reflexivity|].
  split; [apply Hf|reflexivity].
Qed.

(** Loading the model leaves the resolved model and the tables as they
    are, and gives the resolved model. *)
Lemma get_model_resolved E s :
  exists s', _get_embedding_model E s = (Ok (resolved_model E s), s')
             /\ same_chunks_model E s s'.
Proof.
  unfold _get_embedding_model, resolved_model, same_chunks_model,
    resolved_model, bind, get_state, ret.
  destruct (st_model s) as [m0|] eqn:Hm.
  - eexists. split; [reflexivity|]. rewrite ?Hm. auto.
  - destruct (fastembed E) as [|err|m1] eqn:Hf; cbn;
      (eexists; split; [reflexivity|]); cbn; rewrite ?Hm, ?Hf; auto.
Qed.

Lemma safe_get_model E : safe (same_chunks_model E) (_get_embedding_model E).
Proof. intros s. destruct (get_model_resolved E s) as (s' & H & Hr). eauto. Qed.

Lemma keeps_model_get_model E : keeps (same_model E) (_get_embedding_model E).
Proof.
  intros s. destruct (get_model_resolved E s) as (s' & -> & _ & Hr). exact Hr.
Qed.

Ltac frame_step :=
  match goal with
  | |- keeps _ (bind _ _) => apply keeps_bind; [|intros ?]
  | |- keeps _ (ret _) => apply keeps_ret
  | |- keeps _ (lift _) => apply keeps_lift
  | |- keeps _ (raise _) => apply keeps_raise
  | |- keeps _ get_state => apply keeps_get_state
  | |- keeps _ conn => apply keeps_conn
  | |- keeps _ (try_except _ _) => apply keeps_try_except; [|intros ?]
  | |- keeps _ (for_each _ _) => apply keeps_for_each; intros ?
  | |- keeps _ (fold_m _ _ _) => apply keeps_fold_m; intros ? ?
  | |- keeps _ (update_conn _) => apply keeps_model_update_conn
  | |- keeps _ (print _ _) => apply keeps_model_print
  | |- keeps _ connect => apply keeps_model_connect
  | |- keeps _ init_db => apply keeps_model_init_db
  | |- keeps _ commit => apply keeps_model_commit
  | |- keeps _ remove_db => apply keeps_model_remove_db
  | |- keeps _ (_get_embedding_model _) => apply keeps_model_get_model
  | |- safe _ (bind _ _) => apply safe_bind; [|intros ?]
  | |- safe _ (ret _) => apply safe_ret
  | |- safe _ get_state => apply safe_get_state
  | |- safe _ conn => apply safe_conn
  | |- safe _ (for_each _ _) => apply safe_for_each; intros ?
  | |- safe _ (print _ _) => apply safe_print
  | |- safe _ commit => apply safe_commit
  | |- safe _ (update_conn _) => apply safe_update_conn; intros ?; reflexivity
  | |- safe _ (_get_embedding_model _) => apply safe_get_model
  | |- _ (if ?b then _ else _) => destruct b
  | |- _ (match ?x with _ => _ end) => destruct x
  end.

Ltac frame := repeat frame_step.

Lemma safe_build_embeddings E force :
  safe (same_chunks_model E) (build_embeddings E force).
Proof.
  unfold build_embeddings, _embed_texts, insert_embedding. frame.
Qed.

Lemma keeps_model_build_embeddings E force :
  keeps (same_model E) (build_embeddings E force).
Proof.
  intros s. destruct (safe_build_embeddings E force s) as (n & s' & -> & _ & H).
  exact H.
Qed.

Lemma keeps_model_index_file E filepath :
  keeps (same_model E) (index_file E filepath).
Proof. unfold index_file, insert_chunk. frame. Qed.

Lemma keeps_model_sync_index E : keeps (same_model E) (sync_index E).
Proof.
  unfold sync_index. frame; try apply keeps_model_index_file.
Qed.

Lemma keeps_model_rebuild_index E a b :
  keeps (same_model E) (rebuild_index E a b).
Proof.
  unfold rebuild_index.
  frame; try apply keeps_model_index_file;
    try apply keeps_model_build_embeddings.
Qed.

Lemma keeps_model_open_index E : keeps (same_model E) (open_index E).
Proof.
  unfold open_index.
  frame; try apply keeps_model_rebuild_index; try apply keeps_model_sync_index.
Qed.

Lemma keeps_model_bm25_search E query cf n :
  keeps (same_model E) (bm25_search E query cf n).
Proof. unfold bm25_search. frame. Qed.

(** ** Graceful degradation of hybrid search *)

Lemma embed_query_resolved E query s :
  exists s', _embed_query E query s = (Ok (query_embedding E s query), s').
Proof.
  unfold _embed_query, bind, query_embedding.
  destruct (get_model_resolved E s) as (s' & -> & _).
  destruct (resolved_model E s) as [m|]; [|eexists; reflexivity].
  destruct (query_embed m query); eexists; reflexivity.
Qed.

Lemma vector_search_no_embedding E query cf n s :
  query_embedding E s query = None ->
  exists s', vector_search E query cf n s = (Ok [], s').
Proof.
  intros H. unfold vector_search, bind.
  destruct (embed_query_resolved E query s) as (s' & ->).
  rewrite H. eexists. reflexivity.
Qed.

Lemma bm25_search_run E query cf n s :
  bm25_search E query cf n s
  = match bm25_select E (st_conn s) (sanitize_fts_query query) cf n with
    | Ok rc => (Ok (map (bm25_hit E) rc), s)
    | Raise e =>
        match exn_kind_of e with
        | OperationalError =>
            (Ok [], mk_state (st_file s) (st_conn s) (st_model s)
                      (st_model_name s)
                      (st_out s ++ [(Stderr, MSG_SYNTAX ++ exn_msg e ++ [NL])]))
        | _ => (Raise e, s)
        end
    end.
Proof.
  unfold bm25_search, bind, conn, try_except, lift.
  destruct (bm25_select _ _ _ _ _) as [rc|e]; [reflexivity|].
  destruct (exn_kind_of e); reflexivity.
Qed.

Lemma bm25_select_chunks E d d' q cf n :
  chunks d = chunks d' -> bm25_select E d q cf n = bm25_select E d' q cf n.
Proof.
  intros H. unfold bm25_select, fts_columns. rewrite H. reflexivity.
Qed.

Lemma firstn_limit_window {A B} (f : A -> B) (n w : Z) (l : list A) :
  0 <= n <= w ->
  slice_to n (map f (sql_limit w l)) = slice_to n (map f (sql_limit n l)).
Proof.
  intros Hn. unfold slice_to, sql_limit.
  destruct (n <? 0) eqn:Hn0; [lia|]. destruct (w <? 0) eqn:Hw0; [lia|].
  rewrite <- !firstn_map. rewrite !firstn_firstn.
  f_equal. lia.
Qed.

Lemma search_hybrid_unfold E query cf n s :
  search E query cf n (lit "hybrid") s
  = bind (open_index E) (fun _ =>
      bind (bind (build_embeddings E false) (fun _ => ret tt)) (fun _ =>
        bind (bm25_search E query cf BM25_CANDIDATES) (fun bm25_results =>
          bind (vector_search E query cf VECTOR_CANDIDATES)
            (fun vector_results =>
               match vector_results with
               | [] => ret (slice_to n (tag (lit "bm25") bm25_results))
               | _ :: _ =>
                   bind (lift (rrf_fuse bm25_results vector_results RRF_K n))
                     (fun fused => ret (map Fused fused))
               end)))) s.
Proof. reflexivity. Qed.

Lemma search_bm25_unfold E query cf n s :
  search E query cf n (lit "bm25") s
  = bind (open_index E) (fun _ =>
      bind (bm25_search E query cf n) (fun results =>
        ret (slice_to n (tag (lit "bm25") results)))) s.
Proof. reflexivity. Qed.

Lemma slice_to_lexical_only n (results : list hit) :
  List.Forall lexical_only (slice_to n (tag (lit "bm25") results)).
Proof.
  unfold slice_to. destruct (n <? 0); apply Forall_take;
    unfold tag; apply List.Forall_map; apply List.Forall_forall;
    intros h _; exists h; reflexivity.
Qed.

Lemma query_embedding_same E s s' query :
  resolved_model E s' = resolved_model E s ->
  query_embedding E s' query = query_embedding E s query.
Proof. intros H. unfold query_embedding. rewrite H. reflexivity. Qed.

Lemma bind_run {A B} (c : M A) (k : A -> M B) s :
  bind c k s
  = match c s with
    | (Ok a, s') => k a s'
    | (Raise e, s') => (Raise e, s')
    end.
Proof. reflexivity. Qed.

Lemma ret_run {A} (a : A) s : ret a s = (Ok a, s).
Proof. reflexivity. Qed.

Lemma search_bm25_lexical_only E query cf limit s results :
  fst (search E query cf limit (lit "bm25") s) = Ok results ->
  List.Forall lexical_only results.
Proof.
  rewrite search_bm25_unfold. rewrite bind_run.
  destruct (open_index E s) as [[z|e] s2]; [|discriminate].
  rewrite bind_run.
  destruct (bm25_search E query cf limit s2) as [[rs|e] s3]; [|discriminate].
  rewrite ret_run. intros [= <-]. apply slice_to_lexical_only.
Qed.

Lemma search_hybrid_as_bm25 E query cf limit s :
  0 <= limit <= BM25_CANDIDATES ->
  query_embedding E s query = None ->
  fst (search E query cf limit (lit "hybrid") s)
  = fst (search E query cf limit (lit "bm25") s).
Proof.
  intros Hlimit Hnone.
  rewrite search_hybrid_unfold, search_bm25_unfold.
  rewrite !(bind_run (open_index E)).
  pose proof (keeps_model_open_index E s) as Hopen.
  destruct (open_index E s) as [[z|e] s2]; simpl in Hopen; [|reflexivity].
  destruct (safe_build_embeddings E false s2) as (k & s3 & Hb & Hch & Hmod).
  rewrite (bind_run (bind (build_embeddings E false) _)).
  rewrite (bind_run (build_embeddings E false)). rewrite Hb, ret_run.
  rewrite !(bind_run (bm25_search _ _ _ _)).
  rewrite !bm25_search_run.
  rewrite (bm25_select_chunks E (st_conn s3) (st_conn s2)) by exact Hch.
  assert (Hq3 : query_embedding E s3 query = None).
  { rewrite <- Hnone. apply query_embedding_same.
    unfold same_model in Hopen. congruence. }
  unfold bm25_select.
  destruct (fts5_match E (chunks (st_conn s2)) (sanitize_fts_query query))
    as [matched|e].
  - rewrite bind_run.
    destruct (vector_search_no_embedding E query cf VECTOR_CANDIDATES s3 Hq3)
      as (s4 & ->).
    rewrite !ret_run. simpl fst. f_equal. unfold tag. rewrite !map_map.
    apply firstn_limit_window. exact Hlimit.
  - destruct (exn_kind_of e); try reflexivity.
    rewrite bind_run.
    match goal with
    | |- context [vector_search E query cf VECTOR_CANDIDATES ?st] =>
        destruct (vector_search_no_embedding E query cf VECTOR_CANDIDATES st)
          as (s4 & ->);
          [rewrite <- Hq3; apply query_embedding_same; reflexivity|]
    end.
    reflexivity.
Qed.

(** C4, as amended. When the provider gives no embedding for the query
    (it is not installed, fails to load, or returns nothing), so that
    [vector_search] returns the empty list, and the limit is between 0 and
    the candidate window of 20, a search in hybrid mode returns the same
    result list as the search in bm25 mode with the same query, category
    filter and limit, and every result is tagged with the single source
    bm25. *)
Theorem search_hybrid_degrades (E : Env) (query : str)
    (category_filter : option str) (limit : Z) (s : state) :
  0 <= limit <= BM25_CANDIDATES ->
  query_embedding E s query = None ->
  fst (search E query category_filter limit (lit "hybrid") s)
  = fst (search E query category_filter limit (lit "bm25") s)
  /\ (forall results,
        fst (search E query category_filter limit (lit "hybrid") s)
        = Ok results ->
        List.Forall lexical_only results).
Proof.
  intros Hlimit Hnone.
  pose proof (search_hybrid_as_bm25 E query category_filter limit s
                Hlimit Hnone) as Heq.
  split; [exact Heq|].
  intros results Hr. rewrite Heq in Hr.
  eapply search_bm25_lexical_only. exact Hr.
Qed.

Lemma search_hybrid_degrades_witness :
  fst (search (sample_env NotInstalled) (lit "cache eviction") None
         MAX_RESULTS (lit "hybrid") (sample_state sample_db))
  = fst (search (sample_env NotInstalled) (lit "cache eviction") None
           MAX_RESULTS (lit "bm25") (sample_state sample_db))
  /\ (forall results,
        fst (search (sample_env NotInstalled) (lit "cache eviction") None
               MAX_RESULTS (lit "hybrid") (sample_state sample_db))
        = Ok results ->
        List.Forall lexical_only results).
Proof.
  apply (search_hybrid_degrades (sample_env NotInstalled)
           (lit "cache eviction") None MAX_RESULTS (sample_state sample_db)).
  - vm_compute. split; discriminate.
  - reflexivity.
Defined.

(** C4, as stated, fails for a limit above the candidate window: with 21
    matching chunks, no provider and the limit 21, hybrid mode returns 20
    results (its lexical search asks for 20 candidates) and bm25 mode
    returns 21. *)
Lemma search_hybrid_window_counterexample :
  query_embedding (sample_env NotInstalled) (sample_state large_db)
    (lit "cache eviction") = None
  /\ match fst (search (sample_env NotInstalled) (lit "cache eviction") None
                 21 (lit "hybrid") (sample_state large_db)),
           fst (search (sample_env NotInstalled) (lit "cache eviction") None
                 21 (lit "bm25") (sample_state large_db)) with
     | Ok hybrid, Ok lexical =>
         length hybrid = 20%nat /\ length lexical = 21%nat
         /\ hybrid <> lexical
     | _, _ => False
     end.
Proof.
  split; [reflexivity|].
  vm_compute. split; [reflexivity|]. split; [reflexivity|]. discriminate.
Qed.

(** ** Floats: signs, conversions, order *)

Lemma iter_pos_invariant {A} (P : A -> Prop) (f : A -> A) :
  (forall x, P x -> P (f x)) -> forall p x, P x -> P (SpecFloat.iter_pos f p x).
Proof.
  intros Hf. induction p as [p IH|p IH|]; intros x Hx; simpl; auto.
Qed.

Lemma shr_1_nonneg mrs : 0 <= shr_m mrs -> 0 <= shr_m (shr_1 mrs).
Proof.
  destruct mrs as [m r s]. simpl.
  destruct m as [|[p|p|]|[p|p|]]; simpl; lia.
Qed.

Lemma shr_nonneg mrs e n : 0 <= shr_m mrs -> 0 <= shr_m (fst (shr mrs e n)).
Proof.
  intros H. unfold shr. destruct n; simpl; auto.
  apply iter_pos_invariant; auto using shr_1_nonneg.
Qed.

Lemma shr_fexp_nonneg m e l :
  0 <= m -> 0 <= shr_m (fst (shr_fexp prec emax m e l)).
Proof.
  intros H. unfold shr_fexp. apply shr_nonneg.
  destruct l as [|[]]; simpl; exact H.
Qed.

Lemma round_nearest_even_nonneg m l :
  0 <= m -> 0 <= round_nearest_even m l.
Proof.
  intros H. unfold round_nearest_even.
  destruct l as [|[]]; try destruct (Z.even m); lia.
Qed.

Lemma binary_round_aux_signed sx mx ex lx :
  0 <= mx -> signed sx (binary_round_aux prec emax sx mx ex lx).
Proof.
  intros H. unfold binary_round_aux.
  pose proof (shr_fexp_nonneg mx ex lx H) as H1.
  destruct (shr_fexp prec emax mx ex lx) as [mrs' e'].
  simpl in H1.
  pose proof (shr_fexp_nonneg _ e' loc_Exact
                (round_nearest_even_nonneg _ (loc_of_shr_record mrs') H1))
    as H2.
  destruct (shr_fexp prec emax _ e' loc_Exact) as [mrs'' e''].
  simpl in H2.
  destruct (shr_m mrs'') as [|m|m]; simpl; try reflexivity; try lia.
  destruct (e'' <=? emax - prec); reflexivity.
Qed.

Lemma binary_round_signed sx mx ex :
  signed sx (binary_round prec emax sx mx ex).
Proof.
  unfold binary_round. destruct (shl_align _ _ _) as [mz ez].
  apply binary_round_aux_signed. lia.
Qed.

Lemma fadd_signed x y :
  signed false x -> signed false y -> signed false (fadd x y).
Proof.
  unfold fadd, SFadd.
  destruct x as [sx|sx| |sx mx ex]; destruct y as [sy|sy| |sy my ey];
    simpl; intros Hx Hy; subst; try reflexivity; try contradiction.
  unfold binary_normalize, cond_Zopp.
  destruct (Z.pos _ + Z.pos _) eqn:Hsum; try lia.
  apply binary_round_signed.
Qed.

Lemma fdiv_signed mx ex my ey :
  signed false (fdiv (S754_finite false mx ex) (S754_finite false my ey)).
Proof.
  unfold fdiv, SFdiv.
  destruct (SFdiv_core_binary _ _ _ _ _ _) as [[mz ez] lz] eqn:Hcore.
  apply binary_round_aux_signed.
  unfold SFdiv_core_binary in Hcore.
  set (m' := match _ with Z0 => _ | Z.pos _ => _ | Z.neg _ => _ end) in Hcore.
  assert (Hm' : 0 <= m').
  { subst m'. destruct (ex - ey - _); try lia. apply Z.shiftl_nonneg. lia. }
  pose proof (Z_div_mod m' (Z.pos my) ltac:(lia)) as Hdm.
  destruct (Z.div_eucl m' (Z.pos my)) as [q r].
  injection Hcore as <- _ _. destruct Hdm as [Hq Hr]. nia.
Qed.

Lemma digits2_pos_iter_xO p q :
  digits2_pos (Pos.iter xO p q) = (digits2_pos p + q)%positive.
Proof.
  induction q as [|q IH] using Pos.peano_ind.
  - simpl. lia.
  - rewrite Pos.iter_succ. simpl. rewrite IH. lia.
Qed.

Lemma digits2_pos_bound p : forall n,
  0 <= n -> Z.pos p < 2 ^ n -> Z.pos (digits2_pos p) <= n.
Proof.
  induction p as [p IH|p IH|]; intros n Hn Hlt; simpl.
  - assert (n <> 0) by (intros ->; simpl in Hlt; lia).
    replace n with (Z.succ (n - 1)) in Hlt by lia.
    rewrite Z.pow_succ_r in Hlt by lia.
    specialize (IH (n - 1) ltac:(lia) ltac:(lia)). lia.
  - assert (n <> 0) by (intros ->; simpl in Hlt; lia).
    replace n with (Z.succ (n - 1)) in Hlt by lia.
    rewrite Z.pow_succ_r in Hlt by lia.
    specialize (IH (n - 1) ltac:(lia) ltac:(lia)). lia.
  - assert (n <> 0) by (intros ->; simpl in Hlt; lia). lia.
Qed.

Lemma binary_round_aux_exact mz ez :
  Z.pos (digits2_pos mz) = 53 -> -52 <= ez <= 0 ->
  binary_round_aux prec emax false (Z.pos mz) ez loc_Exact
  = S754_finite false mz ez.
Proof.
  intros Hd He.
  assert (Hshr : shr_fexp prec emax (Z.pos mz) ez loc_Exact
                 = (Build_shr_record (Z.pos mz) false false, ez)).
  { unfold shr_fexp, Zdigits2. rewrite Hd.
    unfold fexp, emin, prec, emax.
    replace (Z.max (53 + ez - 53) (3 - 1024 - 53) - ez) with 0 by lia.
    reflexivity. }
  unfold binary_round_aux. rewrite Hshr. simpl shr_m. simpl loc_of_shr_record.
  simpl round_nearest_even. rewrite Hshr. simpl shr_m.
  unfold emax, prec.
  destruct (ez <=? 1024 - 53) eqn:Hle; [reflexivity|lia].
Qed.

(** An int below [2^53] converts exactly. *)
Lemma float_of_int_small z :
  0 < z < 2 ^ 53 ->
  exists m e, binary_normalize prec emax z 0 false = S754_finite false m e.
Proof.
  intros Hz. destruct z as [|p|p]; try lia.
  unfold binary_normalize, binary_round.
  pose proof (digits2_pos_bound p 53 ltac:(lia) ltac:(lia)) as Hd.
  assert (Hd1 : 1 <= Z.pos (digits2_pos p)) by lia.
  unfold fexp, emin, prec at 1 2, emax at 1.
  replace (Z.max (Z.pos (digits2_pos p) + 0 - 53) (3 - 1024 - 53))
    with (Z.pos (digits2_pos p) - 53) by lia.
  unfold shl_align.
  destruct (Z.pos (digits2_pos p) - 53 - 0) as [|q|q] eqn:Hq; try lia.
  - eexists _, _. apply binary_round_aux_exact; lia.
  - eexists _, _. apply binary_round_aux_exact.
    + rewrite digits2_pos_iter_xO. lia.
    + lia.
Qed.

Lemma float_div_int_reciprocal k r :
  0 < k + r < 2 ^ 53 ->
  float_div_int float_one (k + r) = Ok (reciprocal k r)
  /\ signed false (reciprocal k r).
Proof.
  intros H. destruct (float_of_int_small _ H) as (m & e & Hf).
  unfold float_div_int, float_of_int, reciprocal. rewrite Hf. simpl is_zero.
  split; [reflexivity|]. apply fdiv_signed.
Qed.

Lemma flt_finite m1 e1 m2 e2 :
  flt (S754_finite false m1 e1) (S754_finite false m2 e2) = true
  <-> e1 < e2 \/ (e1 = e2 /\ (m1 < m2)%positive).
Proof.
  unfold flt, SFltb, SFcompare.
  destruct (Z.compare_spec e1 e2) as [He|He|He].
  - change (Pcompare m1 m2 Eq) with (Pos.compare m1 m2).
    destruct (Pos.compare_spec m1 m2) as [Hm|Hm|Hm];
      split; intros H; try discriminate; try reflexivity; try lia.
  - split; intros H; try reflexivity; lia.
  - split; intros H; try discriminate; lia.
Qed.

(** On floats that are not NaN and not negative, not being below is
    transitive. *)
Lemma flt_false_trans a b c :
  signed false a -> signed false b -> signed false c ->
  flt a b = false -> flt b c = false -> flt a c = false.
Proof.
  intros Ha Hb Hc Hab Hbc.
  destruct a as [sa|sa| |sa ma ea]; destruct b as [sb|sb| |sb mb eb];
    destruct c as [sc|sc| |sc mc ec]; simpl in Ha, Hb, Hc; subst;
    try contradiction; try reflexivity; try discriminate.
  apply not_true_is_false. intros Hac.
  apply not_true_iff_false in Hab, Hbc.
  rewrite flt_finite in Hab, Hbc, Hac. lia.
Qed.

Lemma flt_irrefl_pair a b : flt a b = true -> flt b a = false.
Proof.
  unfold flt, SFltb, SFcompare.
  destruct a as [[]|[]| |[] ma ea]; destruct b as [[]|[]| |[] mb eb];
    simpl; try discriminate; try reflexivity;
    destruct (Z.compare_spec ea eb) as [He|He|He];
    destruct (Z.compare_spec eb ea) as [He'|He'|He'];
    try lia; try discriminate; try reflexivity; subst;
    change (Pcompare ma mb Eq) with (Pos.compare ma mb);
    change (Pcompare mb ma Eq) with (Pos.compare mb ma);
    rewrite (Pos.compare_antisym ma mb);
    destruct (Pos.compare ma mb); simpl; try discriminate; reflexivity.
Qed.

(** ** The dict of fused entries *)

Lemma dict_get_set rid v d rid' :
  dict_get rid' (dict_set rid v d)
  = if rid =? rid' then Some v else dict_get rid' d.
Proof.
  induction d as [|[r v0] d IH]; simpl.
  - destruct (rid =? rid'); reflexivity.
  - destruct (r =? rid) eqn:Hr; simpl.
    + apply Z.eqb_eq in Hr. subst r.
      destruct (rid =? rid'); reflexivity.
    + destruct (r =? rid') eqn:Hr'; [|exact IH].
      apply Z.eqb_eq in Hr'. subst r. rewrite Z.eqb_sym, Hr. reflexivity.
Qed.

Lemma dict_set_keys rid v d r :
  In r (map fst (dict_set rid v d)) -> r = rid \/ In r (map fst d).
Proof.
  induction d as [|[r0 v0] d IH]; simpl.
  - intros [H|[]]; auto.
  - destruct (r0 =? rid) eqn:Hr; simpl.
    + tauto.
    + intros [H|H]; [tauto|]. apply IH in H. tauto.
Qed.

Lemma dict_set_ok rid v d :
  dict_ok d -> rowid (f_hit v) = rid -> dict_ok (dict_set rid v d).
Proof.
  intros [Hnd Hall] Hv. induction d as [|[r0 v0] d IH]; simpl.
  - split; repeat constructor; simpl; auto.
  - simpl in Hnd. apply List.NoDup_cons_iff in Hnd as [Hnotin Hnd'].
    apply List.Forall_cons_iff in Hall as [Hhd Hall']. simpl in Hhd.
    destruct (r0 =? rid) eqn:Hr.
    + apply Z.eqb_eq in Hr.
      split; simpl; constructor; auto. simpl. congruence.
    + apply Z.eqb_neq in Hr. destruct (IH Hnd' Hall') as [IH1 IH2].
      split; simpl; constructor; auto.
      intros Hin. apply dict_set_keys in Hin. destruct Hin; auto.
Qed.

Lemma dict_get_In rid e d : dict_get rid d = Some e -> In (rid, e) d.
Proof.
  induction d as [|[r v] d IH]; simpl; [discriminate|].
  destruct (r =? rid) eqn:Hr.
  - apply Z.eqb_eq in Hr. intros [= <-]. subst. auto.
  - auto.
Qed.

Lemma dict_ok_get rid e d :
  dict_ok d -> In (rid, e) d ->
  dict_get rid d = Some e /\ rowid (f_hit e) = rid.
Proof.
  intros [Hnd Hall] Hin. split.
  - induction d as [|[r v] d IH]; simpl in *; [contradiction|].
    apply List.NoDup_cons_iff in Hnd as [Hnotin Hnd'].
    apply List.Forall_cons_iff in Hall as [_ Hall'].
    destruct Hin as [Heq|Hin].
    + injection Heq as -> ->. rewrite Z.eqb_refl. reflexivity.
    + destruct (r =? rid) eqn:Hr; [|auto].
      apply Z.eqb_eq in Hr. exfalso. apply Hnotin. rewrite Hr.
      apply (in_map fst) in Hin. exact Hin.
  - rewrite List.Forall_forall in Hall. apply (Hall _ Hin).
Qed.

Lemma entry_for_rowid fused h :
  dict_ok fused -> rowid (f_hit (entry_for fused h)) = rowid h.
Proof.
  intros Hok. unfold entry_for.
  destruct (dict_get (rowid h) fused) as [e|] eqn:Hg; [|reflexivity].
  apply dict_get_In in Hg. apply (dict_ok_get _ _ _ Hok Hg).
Qed.

Lemma entry_for_score fused h :
  rrf_score (entry_for fused h) = score_of fused (rowid h).
Proof.
  unfold entry_for, score_of.
  destruct (dict_get (rowid h) fused); reflexivity.
Qed.

Lemma fuse_bm25_step_adds : adds_contribution fuse_bm25_step.
Proof.
  intros k fused rank h Hr Hok. unfold fuse_bm25_step.
  destruct (float_div_int_reciprocal k rank Hr) as [-> _].
  eexists. split; [reflexivity|]. split.
  - apply dict_set_ok; [exact Hok|]. simpl. apply entry_for_rowid, Hok.
  - intros rid. unfold score_of at 1. rewrite dict_get_set.
    destruct (rowid h =? rid) eqn:He; [|reflexivity].
    apply Z.eqb_eq in He. subst rid. simpl. rewrite entry_for_score.
    reflexivity.
Qed.

Lemma fuse_vector_step_adds : adds_contribution fuse_vector_step.
Proof.
  intros k fused rank h Hr Hok. unfold fuse_vector_step.
  destruct (float_div_int_reciprocal k rank Hr) as [-> _].
  eexists. split; [reflexivity|]. split.
  - apply dict_set_ok; [exact Hok|]. simpl.
    pose proof (entry_for_rowid fused h Hok) as He.
    destruct (_ && _); [exact He|]. destruct (negb _); exact He.
  - intros rid. unfold score_of at 1. rewrite dict_get_set.
    destruct (rowid h =? rid) eqn:He; [|reflexivity].
    apply Z.eqb_eq in He. subst rid. simpl. rewrite entry_for_score.
    reflexivity.
Qed.

Lemma rank_from_absent rid rank results :
  ~ In rid (map rowid results) -> rank_from rid rank results = None.
Proof.
  revert rank. induction results as [|h rest IH]; intros rank Hn; simpl.
  - reflexivity.
  - destruct (rowid h =? rid) eqn:He.
    + apply Z.eqb_eq in He. exfalso. apply Hn. simpl. auto.
    + apply IH. intros Hin. apply Hn. simpl. auto.
Qed.

Lemma rank_from_range rid rank results r :
  rank_from rid rank results = Some r ->
  rank <= r < rank + Z.of_nat (length results).
Proof.
  revert rank. induction results as [|h rest IH]; intros rank; simpl.
  - discriminate.
  - destruct (rowid h =? rid).
    + intros [= <-]. lia.
    + intros H. apply IH in H. lia.
Qed.

(** A loop of [rrf_fuse] over results with distinct rows: it returns, and
    each row's score has grown by the contribution of its rank. *)
Lemma fuse_loop_scores step k results : forall fused rank,
  adds_contribution step ->
  dict_ok fused ->
  List.NoDup (map rowid results) ->
  0 < k + rank -> k + rank + Z.of_nat (length results) <= 2 ^ 53 ->
  exists fused',
    fuse_loop (step k) fused rank results = Ok fused'
    /\ dict_ok fused'
    /\ forall rid,
         score_of fused' rid
         = add_rank k (score_of fused rid) (rank_from rid rank results).
Proof.
  induction results as [|h rest IH]; intros fused rank Hstep Hok Hnd Hlo Hhi.
  - exists fused. simpl. auto.
  - simpl in Hnd. apply List.NoDup_cons_iff in Hnd as [Hnotin Hnd'].
    cbn [length] in Hhi.
    destruct (Hstep k fused rank h ltac:(lia) Hok)
      as (fused1 & Hrun & Hok1 & Hsc1).
    destruct (IH fused1 (rank + 1) Hstep Hok1 Hnd' ltac:(lia) ltac:(lia))
      as (fused' & Hloop & Hok' & Hsc').
    exists fused'. cbn [fuse_loop]. rewrite Hrun. split; [exact Hloop|].
    split; [exact Hok'|]. intros rid. rewrite Hsc', Hsc1. cbn [rank_from].
    destruct (rowid h =? rid) eqn:He; [|reflexivity].
    apply Z.eqb_eq in He. subst rid.
    rewrite (rank_from_absent _ _ _ Hnotin). reflexivity.
Qed.

Lemma add_rank_signed k total results rid rank :
  signed false total ->
  0 < k + rank -> k + rank + Z.of_nat (length results) <= 2 ^ 53 ->
  signed false (add_rank k total (rank_from rid rank results)).
Proof.
  intros Ht Hlo Hhi. unfold add_rank.
  destruct (rank_from rid rank results) as [r|] eqn:Hr; [|exact Ht].
  apply rank_from_range in Hr. apply fadd_signed; [exact Ht|].
  apply float_div_int_reciprocal. lia.
Qed.

(** ** The stable descending sort *)

Section SortedDesc.

Context {A : Type} (key : A -> float).

Lemma insert_desc_In x l z :
  In z (insert_desc key x l) <-> z = x \/ In z l.
Proof.
  induction l as [|y l IH]; simpl.
  - intuition.
  - destruct (flt (key x) (key y)); simpl; rewrite ?IH; intuition.
Qed.

Lemma sorted_desc_In l z : In z (sorted_desc key l) <-> In z l.
Proof.
  induction l as [|x l IH]; simpl; [tauto|].
  rewrite insert_desc_In, IH. intuition.
Qed.

Lemma insert_desc_sorted x l :
  signed false (key x) ->
  List.Forall (fun y => signed false (key y)) l ->
  StronglySorted (key_ge key) l ->
  StronglySorted (key_ge key) (insert_desc key x l).
Proof.
  intros Hx Hl Hs. induction Hs as [|y l Hs IH Hy]; simpl.
  - repeat constructor.
  - apply List.Forall_cons_iff in Hl as [Hky Hl].
    destruct (flt (key x) (key y)) eqn:Hxy.
    + constructor; [apply IH; exact Hl|].
      apply List.Forall_forall. intros z Hz. apply (proj1 (insert_desc_In _ _ _)) in Hz.
      destruct Hz as [->|Hz].
      * apply flt_irrefl_pair. exact Hxy.
      * rewrite List.Forall_forall in Hy. auto.
    + constructor; [constructor; assumption|].
      constructor; [exact Hxy|].
      rewrite List.Forall_forall in *. intros z Hz.
      apply (flt_false_trans _ (key y)); auto.
      apply Hy. exact Hz.
Qed.

Lemma sorted_desc_sorted l :
  List.Forall (fun y => signed false (key y)) l ->
  StronglySorted (key_ge key) (sorted_desc key l).
Proof.
  induction l as [|x l IH]; intros Hl; simpl.
  - constructor.
  - apply List.Forall_cons_iff in Hl as [Hx Hl].
    apply insert_desc_sorted; [exact Hx| |apply IH; exact Hl].
    apply List.Forall_forall. intros z Hz. apply (proj1 (sorted_desc_In _ _)) in Hz.
    rewrite List.Forall_forall in Hl. auto.
Qed.

Lemma before_head (a b : A) l : In b l -> before a b (a :: l).
Proof.
  intros H. apply in_split in H. destruct H as (l2 & l3 & ->).
  exists [], l2, l3. reflexivity.
Qed.

Lemma before_cons (a b y : A) l : before a b l -> before a b (y :: l).
Proof.
  intros (l1 & l2 & l3 & ->). exists (y :: l1), l2, l3. reflexivity.
Qed.

Lemma before_inv (a b y : A) l :
  before a b (y :: l) -> (a = y /\ In b l) \/ before a b l.
Proof.
  intros (l1 & l2 & l3 & H). destruct l1 as [|x l1]; simpl in H.
  - injection H as -> ->. left. split; [reflexivity|].
    apply in_or_app. right. left. reflexivity.
  - injection H as -> ->. right. exists l1, l2, l3. reflexivity.
Qed.

Lemma insert_desc_before x l a b :
  before a b l -> before a b (insert_desc key x l).
Proof.
  induction l as [|y l IH]; simpl; intros H.
  - destruct H as (l1 & l2 & l3 & H). destruct l1; discriminate.
  - destruct (flt (key x) (key y)); [|apply before_cons; exact H].
    apply before_inv in H. destruct H as [[-> Hb]|H].
    + apply before_head. apply insert_desc_In. auto.
    + apply before_cons. apply IH. exact H.
Qed.

Lemma insert_desc_first x l b :
  In b l -> flt (key x) (key b) = false -> before x b (insert_desc key x l).
Proof.
  induction l as [|y l IH]; simpl; intros Hb Hxb; [contradiction|].
  destruct (flt (key x) (key y)) eqn:Hxy.
  - destruct Hb as [->|Hb]; [congruence|].
    apply before_cons. apply IH; assumption.
  - apply before_head. exact Hb.
Qed.

(** The sort is stable: of two entries, the earlier one stays ahead unless
    its key is below the later one's. *)
Lemma sorted_desc_stable l a b :
  before a b l -> flt (key a) (key b) = false ->
  before a b (sorted_desc key l).
Proof.
  induction l as [|x l IH]; simpl; intros H Hab.
  - destruct H as (l1 & l2 & l3 & H). destruct l1; discriminate.
  - apply before_inv in H. destruct H as [[-> Hb]|H].
    + apply insert_desc_first; [|exact Hab]. apply sorted_desc_In. exact Hb.
    + apply insert_desc_before. apply IH; assumption.
Qed.

End SortedDesc.

(** ** The deduplication scan *)

Lemma dedup_loop_In max ranked : forall deduped f,
  In f (dedup_loop max deduped ranked) -> In f deduped \/ In f ranked.
Proof.
  induction ranked as [|item rest IH]; intros deduped f; simpl; [auto|].
  set (deduped' := if is_dup item deduped then deduped
                   else deduped ++ [item]).
  assert (Hd : In f deduped' -> In f deduped \/ item = f).
  { subst deduped'. destruct (is_dup item deduped); [auto|].
    intros H. apply in_app_or in H. simpl in H. tauto. }
  destruct (max <=? Z.of_nat (length deduped')).
  - intros H. apply Hd in H. tauto.
  - intros H. apply IH in H. destruct H as [H|H]; [apply Hd in H|]; tauto.
Qed.

Lemma StronglySorted_drop_middle {A} (R : A -> A -> Prop) l1 x l2 :
  StronglySorted R (l1 ++ x :: l2) -> StronglySorted R (l1 ++ l2).
Proof.
  induction l1 as [|y l1 IH]; simpl; intros H.
  - inversion H; assumption.
  - inversion H as [|? ? Hs Hf]; subst. constructor; [auto|].
    rewrite List.Forall_forall in *. intros z Hz. apply Hf.
    apply in_app_or in Hz. apply in_or_app. simpl. tauto.
Qed.

Lemma StronglySorted_prefix {A} (R : A -> A -> Prop) l1 l2 :
  StronglySorted R (l1 ++ l2) -> StronglySorted R l1.
Proof.
  induction l1 as [|y l1 IH]; simpl; intros H; [constructor|].
  inversion H as [|? ? Hs Hf]; subst. constructor; [auto|].
  rewrite List.Forall_forall in *. intros z Hz. apply Hf.
  apply in_or_app. auto.
Qed.

(** The scan keeps the order of the ranking. *)
Lemma dedup_loop_sorted (R : fused_hit -> fused_hit -> Prop) max ranked :
  forall deduped,
  StronglySorted R (deduped ++ ranked) ->
  StronglySorted R (dedup_loop max deduped ranked).
Proof.
  induction ranked as [|item rest IH]; intros deduped H; simpl.
  - rewrite app_nil_r in H. exact H.
  - set (deduped' := if is_dup item deduped then deduped
                     else deduped ++ [item]).
    assert (Hs : StronglySorted R (deduped' ++ rest)).
    { subst deduped'. destruct (is_dup item deduped).
      - eapply StronglySorted_drop_middle. exact H.
      - rewrite <- app_assoc. exact H. }
    destruct (max <=? Z.of_nat (length deduped')).
    + eapply StronglySorted_prefix. exact Hs.
    + apply IH. exact Hs.
Qed.

(** ** Reciprocal Rank Fusion *)

Lemma rrf_fuse_general bm25_results vector_results k max_results :
  List.NoDup (map rowid bm25_results) ->
  List.NoDup (map rowid vector_results) ->
  0 <= k ->
  k + Z.of_nat (length bm25_results) < 2 ^ 53 ->
  k + Z.of_nat (length vector_results) < 2 ^ 53 ->
  exists out,
    rrf_fuse bm25_results vector_results k max_results = Ok out
    /\ List.Forall
         (fun f => rrf_score f
                   = rrf_total k (rowid (f_hit f)) bm25_results vector_results)
         out
    /\ StronglySorted score_ge out.
Proof.
  intros Hnb Hnv Hk Hb Hv.
  assert (Hok0 : dict_ok []) by (split; constructor).
  destruct (fuse_loop_scores fuse_bm25_step k bm25_results [] 1
              fuse_bm25_step_adds Hok0 Hnb ltac:(lia) ltac:(lia))
    as (fused1 & Hrun1 & Hok1 & Hsc1).
  destruct (fuse_loop_scores fuse_vector_step k vector_results fused1 1
              fuse_vector_step_adds Hok1 Hnv ltac:(lia) ltac:(lia))
    as (fused & Hrun & Hok & Hsc).
  assert (Htotal : forall f, In f (map snd fused) ->
            rrf_score f
            = rrf_total k (rowid (f_hit f)) bm25_results vector_results).
  { intros f Hf. apply in_map_iff in Hf. destruct Hf as ([rid e] & <- & Hin).
    destruct (dict_ok_get _ _ _ Hok Hin) as [Hget Hrid]. simpl.
    rewrite Hrid.
    assert (Hs : score_of fused rid = rrf_score e)
      by (unfold score_of; rewrite Hget; reflexivity).
    rewrite <- Hs, Hsc, Hsc1. reflexivity. }
  assert (Hsigned : List.Forall (fun f => signed false (rrf_score f))
                      (map snd fused)).
  { apply List.Forall_forall. intros f Hf. rewrite (Htotal f Hf).
    unfold rrf_total, rank_in.
    apply add_rank_signed; [|lia|lia].
    apply add_rank_signed; [reflexivity|lia|lia]. }
  exists (dedup_loop max_results []
            (sorted_desc rrf_score (map snd fused))).
  unfold rrf_fuse. rewrite Hrun1, Hrun. split; [reflexivity|]. split.
  - apply List.Forall_forall. intros f Hf. apply dedup_loop_In in Hf.
    destruct Hf as [[]|Hf]. apply (proj1 (sorted_desc_In _ _ _)) in Hf.
    apply Htotal. exact Hf.
  - apply dedup_loop_sorted. simpl.
    apply (sorted_desc_sorted rrf_score). exact Hsigned.
Qed.

(** C1. For result lists with distinct rows, [rrf_fuse] returns; the score
    of every item it returns is 0.0 plus [1/(k+r)] for its 1-based rank [r]
    in the lexical list, when it appears there, plus [1/(k+r)] for its rank
    in the vector list, when it appears there (for every [k >= 0], [k = 60]
    being the default); and the output is sorted by score, descending. The
    sort is stable: of two entries, the one met first stays ahead unless
    its score is lower. Concretely, lexical ranks [A, B, C] and vector
    ranks [B, A, D] with [k = 60] give the scores 1/61 + 1/62 for A,
    1/62 + 1/61 for B (the same float, 0x1.0a6c92bff7560p-5), 1/63 for C
    and 1/63 for D (0x1.0410410410410p-6), in the order A, B, C, D. *)
Theorem rrf_fuse_scores_and_order :
  (forall bm25_results vector_results k max_results,
     List.NoDup (map rowid bm25_results) ->
     List.NoDup (map rowid vector_results) ->
     0 <= k ->
     k + Z.of_nat (length bm25_results) < 2 ^ 53 ->
     k + Z.of_nat (length vector_results) < 2 ^ 53 ->
     exists out,
       rrf_fuse bm25_results vector_results k max_results = Ok out
       /\ List.Forall
            (fun f => rrf_score f
                      = rrf_total k (rowid (f_hit f)) bm25_results
                          vector_results)
            out
       /\ StronglySorted score_ge out)
  /\ (forall (l : list fused_hit) a b,
        before a b l -> flt (rrf_score a) (rrf_score b) = false ->
        before a b (sorted_desc rrf_score l))
  /\ rrf_fuse [hit_A; hit_B; hit_C] [hit_B; hit_A; hit_D] RRF_K MAX_RESULTS
     = Ok [fused_A; fused_B; fused_C; fused_D]
  /\ two_ranks 1 2 = two_ranks 2 1
  /\ two_ranks 1 2 = S754_finite false 4686982584169824 (-57)
  /\ one_rank 3 = S754_finite false 4575085335741456 (-58)
  /\ one_rank 3 = reciprocal RRF_K 3
  /\ flt (one_rank 3) (two_ranks 2 1) = true.
Proof.
  split; [exact rrf_fuse_general|].
  split; [exact (sorted_desc_stable rrf_score)|].
  repeat split; vm_compute; reflexivity.
Qed.

Lemma rrf_fuse_scores_and_order_witness :
  exists out,
    rrf_fuse [hit_A; hit_B; hit_C] [hit_B; hit_A; hit_D] RRF_K MAX_RESULTS
    = Ok out
    /\ List.Forall
         (fun f => rrf_score f
                   = rrf_total RRF_K (rowid (f_hit f)) [hit_A; hit_B; hit_C]
                       [hit_B; hit_A; hit_D])
         out
    /\ StronglySorted score_ge out.
Proof.
  apply (proj1 rrf_fuse_scores_and_order).
  - repeat constructor; simpl; lia.
  - repeat constructor; simpl; lia.
  - vm_compute. discriminate.
  - vm_compute. reflexivity.
  - vm_compute. reflexivity.
Defined.

(** ** The deduplication rule and the limit *)

Lemma str_eqb_eq a b : str_eqb a b = true <-> a = b.
Proof.
  revert b. induction a as [|x a IH]; intros [|y b]; simpl;
    try (split; [discriminate|discriminate]); [tauto|].
  rewrite andb_true_iff, IH. unfold char_eqb. rewrite N.eqb_eq.
  split; [intros [-> ->]; reflexivity|intros [= -> ->]; auto].
Qed.

(** Below three characters the similarity is plain equality. *)
Lemma jaccard_short text_a text_b :
  len text_a < 3 \/ len text_b < 3 ->
  _jaccard_similarity text_a text_b
  = if bool_decide (text_a = text_b) then float_one else float_zero.
Proof.
  intros H. unfold _jaccard_similarity.
  replace ((len text_a <? 3) || (len text_b <? 3)) with true
    by (symmetry; apply orb_true_iff; rewrite !Z.ltb_lt; exact H).
  destruct (str_eqb text_a text_b) eqn:He.
  - apply str_eqb_eq in He. rewrite bool_decide_eq_true_2; auto.
  - rewrite bool_decide_eq_false_2; [reflexivity|].
    intros Heq. apply str_eqb_eq in Heq. congruence.
Qed.

(** A candidate is a duplicate exactly when its similarity with the content
    of some accepted result exceeds the threshold. *)
Lemma is_dup_iff item deduped :
  is_dup item deduped = true
  <-> exists existing,
        In existing deduped
        /\ flt JACCARD_THRESHOLD
             (_jaccard_similarity (h_content (f_hit item))
                (h_content (f_hit existing))) = true.
Proof. unfold is_dup. apply existsb_exists. Qed.

Lemma greedy_dedup_extends ranked : forall deduped,
  exists tail, greedy_dedup deduped ranked = deduped ++ tail.
Proof.
  induction ranked as [|item rest IH]; intros deduped; simpl.
  - exists []. rewrite app_nil_r. reflexivity.
  - destruct (is_dup item deduped).
    + apply IH.
    + destruct (IH (deduped ++ [item])) as (tail & Ht).
      exists (item :: tail). unfold greedy_dedup in *. rewrite Ht.
      rewrite <- app_assoc. reflexivity.
Qed.

(** With a limit of at least one, the scan returns the first [max_results]
    results of the unlimited greedy scan. *)
Lemma dedup_loop_greedy max_results ranked : forall deduped,
  1 <= max_results ->
  Z.of_nat (length deduped) < max_results ->
  dedup_loop max_results deduped ranked
  = firstn (Z.to_nat max_results) (greedy_dedup deduped ranked).
Proof.
  induction ranked as [|item rest IH]; intros deduped Hmax Hlen.
  - simpl. rewrite firstn_all2; [reflexivity|lia].
  - cbn [dedup_loop greedy_dedup fold_left].
    set (deduped' := if is_dup item deduped then deduped
                     else deduped ++ [item]).
    assert (Hlen' : Z.of_nat (length deduped') <= max_results).
    { subst deduped'. destruct (is_dup item deduped); [lia|].
      rewrite length_app. simpl. lia. }
    destruct (max_results <=? Z.of_nat (length deduped')) eqn:Hstop.
    + apply Z.leb_le in Hstop.
      destruct (greedy_dedup_extends rest deduped') as (tail & Ht).
      unfold greedy_dedup in Ht. rewrite Ht.
      rewrite firstn_app.
      replace (Z.to_nat max_results - length deduped')%nat with 0%nat by lia.
      rewrite firstn_all2 by lia. simpl. rewrite app_nil_r. reflexivity.
    + apply Z.leb_gt in Hstop. apply IH; [exact Hmax|exact Hstop].
Qed.

Lemma dedup_loop_within_limit max_results ranked :
  1 <= max_results ->
  Z.of_nat (length (dedup_loop max_results [] ranked)) <= max_results.
Proof.
  intros Hmax. rewrite dedup_loop_greedy by (simpl; lia).
  pose proof (firstn_le_length (Z.to_nat max_results)
                (greedy_dedup [] ranked)).
  lia.
Qed.

(** C6, on the code. The limit is tested after a candidate was accepted,
    so with the limit 0 the scan still accepts the first candidate: the
    fusion of a single result present in both lists returns one result,
    one more than the limit. (From the limit 1 on, the scan returns the
    first [max_results] results of the greedy rule, lemmas
    [dedup_loop_greedy] and [dedup_loop_within_limit].) *)
Theorem rrf_fuse_limit_zero :
  rrf_fuse [hit_A] [hit_A] RRF_K 0
  = Ok [mk_fused hit_A (two_ranks 1 1) [lit "bm25"; lit "vector"]
          (Some 1) (Some 1)]
  /\ dedup_loop 0 [] [fused_A; fused_B] = [fused_A].
Proof. split; vm_compute; reflexivity. Qed.

(** * Further properties *)

(** ** The Markdown chunker: content, span and titles *)

Lemma lines_between_prefix (pre rest : list str) (cs : Z) :
  1 <= cs <= Z.of_nat (length pre) + 1 ->
  lines_between (pre ++ rest) cs (Z.of_nat (length pre))
  = skipn (Z.to_nat (cs - 1)) pre.
Proof.
  intros H. unfold lines_between.
  rewrite skipn_app.
  replace (Z.to_nat (cs - 1) - length pre)%nat with 0%nat by lia.
  simpl skipn. rewrite firstn_app.
  rewrite firstn_all2 by (rewrite length_skipn; lia).
  rewrite length_skipn.
  replace (Z.to_nat (Z.of_nat (length pre) - cs + 1)
           - (length pre - Z.to_nat (cs - 1)))%nat with 0%nat by lia.
  simpl. apply app_nil_r.
Qed.

Lemma covers_append_chunk all pre rest cs ttl chunks :
  all = pre ++ rest ->
  1 <= cs <= Z.of_nat (length pre) + 1 ->
  List.Forall (covers all) chunks ->
  List.Forall (covers all)
    (append_chunk chunks ttl (skipn (Z.to_nat (cs - 1)) pre) cs
       (Z.of_nat (length pre))).
Proof.
  intros -> Hcs H. unfold append_chunk.
  destruct (20 <? _); [|exact H].
  apply Forall_app. split; [exact H|]. constructor; [|constructor].
  unfold covers. simpl. rewrite lines_between_prefix by exact Hcs.
  reflexivity.
Qed.

Lemma md_step_content_inv max all pre line rest st :
  all = pre ++ line :: rest ->
  md_content_inv all pre st ->
  md_content_inv all (pre ++ [line])
    (md_step max st (Z.of_nat (length pre) + 1) line).
Proof.
  intros Hall (Hch & H1 & Hlen & Hcur).
  assert (Hall' : all = (pre ++ [line]) ++ rest)
    by (rewrite <- app_assoc; exact Hall).
  assert (Hlen' : Z.of_nat (length (pre ++ [line]))
                  = Z.of_nat (length pre) + 1)
    by (rewrite length_app; simpl; lia).
  assert (Hflush :
    md_content_inv all (pre ++ [line])
      (let cl := current_lines st ++ [line] in
       if max <=? Z.of_nat (length cl)
       then mk_md (append_chunk (md_chunks st) (current_title st) cl
                     (current_start st) (Z.of_nat (length pre) + 1))
              (current_title st) [] (Z.of_nat (length pre) + 1 + 1)
       else mk_md (md_chunks st) (current_title st) cl (current_start st))).
  { assert (Hcl : current_lines st ++ [line]
                  = skipn (Z.to_nat (current_start st - 1)) (pre ++ [line])).
    { rewrite skipn_app, <- Hcur.
      replace (Z.to_nat (current_start st - 1) - length pre)%nat
        with 0%nat by lia.
      reflexivity. }
    cbv zeta. destruct (max <=? _).
    - unfold md_content_inv. cbn [md_chunks current_start current_lines].
      rewrite Hlen'. split; [|split; [lia|split; [simpl; lia|]]].
      + rewrite Hcl, <- Hlen'.
        apply covers_append_chunk with (rest := rest);
          [exact Hall'|rewrite Hlen'; lia|exact Hch].
      + replace (Z.to_nat (Z.of_nat (length pre) + 1 + 1 - 1))
          with (length (pre ++ [line])) by lia.
        symmetry. apply skipn_all.
    - unfold md_content_inv. cbn [md_chunks current_start current_lines].
      rewrite Hlen'. split; [exact Hch|]. split; [exact H1|].
      split; [rewrite length_app; simpl; lia|exact Hcl]. }
  unfold md_step.
  destruct (startswith [HASH] line); [|exact Hflush].
  destruct (current_lines st) as [|l0 ls] eqn:Hl; [exact Hflush|].
  unfold md_content_inv. cbn [md_chunks current_start current_lines].
  rewrite Hlen'. split; [|split; [lia|split; [simpl; lia|]]].
  - replace (Z.of_nat (length pre) + 1 - 1) with (Z.of_nat (length pre))
      by lia.
    rewrite Hcur.
    apply covers_append_chunk with (rest := line :: rest);
      [exact Hall|lia|exact Hch].
  - replace (Z.to_nat (Z.of_nat (length pre) + 1 - 1)) with (length pre)
      by lia.
    rewrite skipn_app, skipn_all, Nat.sub_diag. reflexivity.
Qed.

Lemma md_loop_content_inv max all rest : forall pre st,
  all = pre ++ rest ->
  md_content_inv all pre st ->
  md_content_inv all all
    (md_loop max st (Z.of_nat (length pre) + 1) rest).
Proof.
  induction rest as [|line rest IH]; intros pre st Hall Hinv.
  - rewrite app_nil_r in Hall. subst pre. exact Hinv.
  - cbn [md_loop].
    replace (Z.of_nat (length pre) + 1 + 1)
      with (Z.of_nat (length (pre ++ [line])) + 1)
      by (rewrite length_app; simpl; lia).
    apply IH.
    + rewrite <- app_assoc. exact Hall.
    + apply md_step_content_inv with (rest := rest); assumption.
Qed.

(** X1. The content of every chunk [chunk_markdown] returns is the trimmed
    text of exactly the lines it cites: the lines [line_start] to
    [line_end] of the document, joined by newlines and stripped. *)
Theorem chunk_markdown_content_of_lines (text filepath : str)
    (max_chunk_lines : Z) :
  List.Forall (covers (split_char NL text))
    (chunk_markdown text filepath max_chunk_lines).
Proof.
  unfold chunk_markdown.
  set (lines := split_char NL text).
  assert (H : md_content_inv lines lines
                (md_loop max_chunk_lines (mk_md [] (basename filepath) [] 1)
                   1 lines)).
  { apply (md_loop_content_inv max_chunk_lines lines lines []
             (mk_md [] (basename filepath) [] 1) eq_refl).
    split; [constructor|]. split; [simpl; lia|]. split; reflexivity. }
  destruct H as (Hch & H1 & Hlen & Hcur).
  set (st := md_loop max_chunk_lines _ 1 lines) in *.
  destruct (current_lines st) as [|l0 ls] eqn:Hl; [exact Hch|].
  rewrite Hcur.
  apply covers_append_chunk with (rest := []);
    [symmetry; apply app_nil_r| |exact Hch].
  rewrite Hcur in Hlen. lia.
Qed.

Lemma spans_append_chunk n chunks ttl lines ls le :
  List.Forall (spans_at_most n) chunks -> le - ls + 1 <= n ->
  List.Forall (spans_at_most n) (append_chunk chunks ttl lines ls le).
Proof.
  intros H Hs. unfold append_chunk. destruct (20 <? _); [|exact H].
  apply Forall_app. split; [exact H|]. constructor; [exact Hs|constructor].
Qed.

Lemma md_step_span_inv max st i line :
  md_span_inv max st i ->
  md_span_inv max (md_step max st i line) (i + 1).
Proof.
  intros (Hi & Hlt & Hch).
  assert (Hflush :
    md_span_inv max
      (let cl := current_lines st ++ [line] in
       if max <=? Z.of_nat (length cl)
       then mk_md (append_chunk (md_chunks st) (current_title st) cl
                     (current_start st) i)
              (current_title st) [] (i + 1)
       else mk_md (md_chunks st) (current_title st) cl (current_start st))
      (i + 1)).
  { cbv zeta.
    assert (Hcl : Z.of_nat (length (current_lines st ++ [line]))
                  = Z.of_nat (length (current_lines st)) + 1)
      by (rewrite length_app; simpl; lia).
    destruct (max <=? _) eqn:Hcmp; unfold md_span_inv;
      cbn [md_chunks current_start current_lines].
    - split; [simpl; lia|]. split; [simpl; lia|].
      apply spans_append_chunk; [exact Hch|lia].
    - apply Z.leb_gt in Hcmp. split; [lia|]. split; [lia|exact Hch]. }
  unfold md_step.
  destruct (startswith [HASH] line); [|exact Hflush].
  destruct (current_lines st) as [|l0 ls] eqn:Hl; [exact Hflush|].
  unfold md_span_inv. cbn [md_chunks current_start current_lines].
  cbn [length] in Hlt, Hi.
  split; [simpl; lia|]. split; [simpl; lia|].
  apply spans_append_chunk; [exact Hch|]. lia.
Qed.

Lemma md_loop_span_inv max lines : forall st i,
  md_span_inv max st i ->
  md_span_inv max (md_loop max st i lines) (i + Z.of_nat (length lines)).
Proof.
  induction lines as [|line rest IH]; intros st i H.
  - cbn [md_loop length]. replace (i + Z.of_nat 0) with i by lia. exact H.
  - cbn [md_loop length].
    replace (i + Z.of_nat (S (length rest)))
      with ((i + 1) + Z.of_nat (length rest)) by lia.
    apply IH. apply md_step_span_inv; assumption.
Qed.

(** X2. With [max_chunk_lines] of at least 1 (the default is 30), no chunk
    of [chunk_markdown] cites more than [max_chunk_lines] lines: the forced
    split bounds every chunk, also one opened by a heading. *)
Theorem chunk_markdown_bounded_span (text filepath : str)
    (max_chunk_lines : Z) :
  1 <= max_chunk_lines ->
  List.Forall (spans_at_most max_chunk_lines)
    (chunk_markdown text filepath max_chunk_lines).
Proof.
  intros Hmax. unfold chunk_markdown.
  set (lines := split_char NL text).
  assert (H : md_span_inv max_chunk_lines
                (md_loop max_chunk_lines (mk_md [] (basename filepath) [] 1)
                   1 lines) (1 + Z.of_nat (length lines))).
  { apply md_loop_span_inv.
    split; [reflexivity|]. split; [simpl; lia|constructor]. }
  destruct H as (Hi & Hlt & Hch).
  set (st := md_loop max_chunk_lines _ 1 lines) in *.
  destruct (current_lines st) as [|l0 ls] eqn:Hl; [exact Hch|].
  apply spans_append_chunk; [exact Hch|]. lia.
Qed.

Lemma chunk_markdown_bounded_span_witness :
  List.Forall (spans_at_most MAX_CHUNK_LINES)
    (chunk_markdown cache_doc cache_path MAX_CHUNK_LINES).
Proof.
  apply (chunk_markdown_bounded_span cache_doc cache_path MAX_CHUNK_LINES).
  vm_compute. discriminate.
Defined.

Lemma titles_append_chunk filepath all chunks ttl lines ls le :
  List.Forall (fun c => title_from filepath all (title c)) chunks ->
  title_from filepath all ttl ->
  List.Forall (fun c => title_from filepath all (title c))
    (append_chunk chunks ttl lines ls le).
Proof.
  intros H Ht. unfold append_chunk. destruct (20 <? _); [|exact H].
  apply Forall_app. split; [exact H|]. constructor; [exact Ht|constructor].
Qed.

Lemma md_step_titles filepath all max st i line :
  In line all ->
  title_from filepath all (current_title st) ->
  List.Forall (fun c => title_from filepath all (title c)) (md_chunks st) ->
  title_from filepath all (current_title (md_step max st i line))
  /\ List.Forall (fun c => title_from filepath all (title c))
       (md_chunks (md_step max st i line)).
Proof.
  intros Hin Ht Hch. unfold md_step.
  destruct (startswith [HASH] line) eqn:Hh;
    destruct (current_lines st) as [|l0 ls];
    try (destruct (max <=? _); cbn [current_title md_chunks];
         split; auto using titles_append_chunk).
  cbn [current_title md_chunks]. split.
  - destruct (strip (lstrip_chars [HASH] line)) as [|c t] eqn:Hs;
      [exact Ht|].
    right. exists line. rewrite Hs. repeat split; auto; discriminate.
  - apply titles_append_chunk; assumption.
Qed.

Lemma md_loop_titles filepath all max rest : forall st i,
  (forall line, In line rest -> In line all) ->
  title_from filepath all (current_title st) ->
  List.Forall (fun c => title_from filepath all (title c)) (md_chunks st) ->
  title_from filepath all (current_title (md_loop max st i rest))
  /\ List.Forall (fun c => title_from filepath all (title c))
       (md_chunks (md_loop max st i rest)).
Proof.
  induction rest as [|line rest IH]; intros st i Hsub Ht Hch.
  - split; assumption.
  - cbn [md_loop].
    destruct (md_step_titles filepath all max st i line
                (Hsub line (or_introl eq_refl)) Ht Hch) as [Ht' Hch'].
    apply IH; [|exact Ht'|exact Hch'].
    intros l Hl. apply Hsub. right. exact Hl.
Qed.

(** X3. The title of every chunk [chunk_markdown] returns is the base name
    of the file or the text of a heading line of the document, its [#]
    marks and surrounding whitespace removed, and then it is not empty: a
    heading of marks only never becomes a title. *)
Theorem chunk_markdown_titles (text filepath : str) (max_chunk_lines : Z) :
  List.Forall
    (fun c => title_from filepath (split_char NL text) (title c))
    (chunk_markdown text filepath max_chunk_lines).
Proof.
  unfold chunk_markdown.
  set (lines := split_char NL text).
  destruct (md_loop_titles filepath lines max_chunk_lines lines
              (mk_md [] (basename filepath) [] 1) 1)
    as [Ht Hch]; [auto|left; reflexivity|constructor|].
  destruct (current_lines _); [exact Hch|].
  apply titles_append_chunk; assumption.
Qed.

(** ** The sanitizer: empty expressions and balanced quotes *)

Lemma sanitize_as_compiled query :
  sanitize_fts_query query = compiled_query query.
Proof.
  unfold sanitize_fts_query, compiled_query.
  rewrite sanitize_tokens_terms by apply split_ws_tokens. reflexivity.
Qed.

Lemma split_ws_aux_spaces s :
  forallb is_space s = true -> split_ws_aux [] s = [].
Proof.
  induction s as [|c s IH]; simpl; [reflexivity|].
  intros H. apply andb_prop in H. destruct H as [Hc Hs].
  rewrite Hc. auto.
Qed.

Lemma split_ws_aux_some s : forall cur,
  cur <> [] \/ forallb is_space s = false -> split_ws_aux cur s <> [].
Proof.
  induction s as [|c s IH]; intros cur H; simpl.
  - destruct H as [H|H]; [|discriminate]. destruct cur; [congruence|discriminate].
  - destruct (is_space c) eqn:Hc.
    + destruct cur as [|x cur]; [|discriminate].
      apply IH. right. destruct H as [H|H]; [congruence|].
      simpl in H. rewrite Hc in H. exact H.
    + apply IH. left. discriminate.
Qed.

Lemma terms_of_token_head t :
  exists c term terms, terms_of_token t = (c :: term) :: terms.
Proof.
  unfold terms_of_token, prefix_term, quote_term.
  destruct (pure_cjk t); [|destruct (pure_latin t)].
  - destruct t; simpl; eauto.
  - simpl. eauto.
  - destruct (List.filter is_cjk t); simpl; eauto.
Qed.

Lemma join_head_nonempty sep (c : char) (p : str) rest :
  join sep (((c :: p) :: rest)) <> [].
Proof. destruct rest; simpl; discriminate. Qed.

(** X4. The expression [sanitize_fts_query] compiles is empty exactly when
    the query has no character other than whitespace (the empty query
    included): every token gives at least one non-empty term. *)
Theorem sanitize_fts_query_empty (query : str) :
  sanitize_fts_query query = [] <-> forallb is_space query = true.
Proof.
  rewrite sanitize_as_compiled. unfold compiled_query, split_ws. split.
  - intros H. destruct (forallb is_space query) eqn:Hs; [reflexivity|].
    exfalso.
    pose proof (split_ws_aux_some query [] (or_intror Hs)) as Hne.
    destruct (split_ws_aux [] query) as [|t ts]; [congruence|].
    destruct (terms_of_token_head t) as (c & term & terms & Ht).
    cbn [map concat] in H. rewrite Ht in H.
    exact (join_head_nonempty _ _ _ _ H).
  - intros H. rewrite split_ws_aux_spaces by exact H. reflexivity.
Qed.

Lemma dquotes_app a b : dquotes (a ++ b) = (dquotes a + dquotes b)%nat.
Proof. apply count_occ_app. Qed.

Lemma dquotes_doubled s :
  dquotes (replace_char DQUOTE [DQUOTE; DQUOTE] s) = (2 * dquotes s)%nat.
Proof.
  unfold replace_char, dquotes, char_eqb.
  induction s as [|c s IH]; simpl; [reflexivity|].
  destruct (N.eqb_spec c DQUOTE) as [->|Hc].
  - simpl. rewrite IH. lia.
  - simpl. destruct (N.eq_dec c DQUOTE); [contradiction|]. exact IH.
Qed.

Lemma dquotes_quote_term s : dquotes (quote_term s) = (2 + 2 * dquotes s)%nat.
Proof.
  unfold quote_term. rewrite !dquotes_app, dquotes_doubled.
  change (dquotes [DQUOTE]) with 1%nat. lia.
Qed.

Lemma dquotes_cjk s : dquotes (List.filter is_cjk s) = 0%nat.
Proof.
  unfold dquotes. induction s as [|c s IH]; simpl; [reflexivity|].
  destruct (is_cjk c) eqn:Hc; [|exact IH]. simpl.
  destruct (N.eq_dec c DQUOTE) as [->|_]; [discriminate|exact IH].
Qed.

Lemma terms_of_token_balanced t :
  List.Forall (fun term => Nat.Even (dquotes term)) (terms_of_token t).
Proof.
  unfold terms_of_token, prefix_term.
  destruct (pure_cjk t) eqn:Hc; [|destruct (pure_latin t)].
  - constructor; [|constructor]. unfold pure_cjk in Hc.
    rewrite <- (filter_all _ _ Hc), dquotes_app, dquotes_cjk. exists 0%nat.
    reflexivity.
  - constructor; [|constructor]. rewrite dquotes_quote_term.
    exists (1 + dquotes t)%nat. lia.
  - constructor; [|constructor; [|constructor]].
    + rewrite dquotes_app, dquotes_cjk. exists 0%nat. reflexivity.
    + rewrite dquotes_quote_term.
      exists (1 + dquotes (List.filter (fun c => negb (is_cjk c)) t))%nat.
      lia.
Qed.

Lemma join_cons2 sep (p q : str) rest :
  join sep (p :: q :: rest) = p ++ sep ++ join sep (q :: rest).
Proof. reflexivity. Qed.

Lemma dquotes_join parts :
  List.Forall (fun term => Nat.Even (dquotes term)) parts ->
  Nat.Even (dquotes (join [SPACE] parts)).
Proof.
  induction 1 as [|p parts [n Hp] Hparts [m IH]].
  - exists 0%nat. reflexivity.
  - destruct parts as [|q parts]; [exists n; exact Hp|].
    rewrite join_cons2, !dquotes_app, Hp, IH. exists (n + m)%nat.
    change (dquotes [SPACE]) with 0%nat. lia.
Qed.

(** X5. In the expression [sanitize_fts_query] compiles the double quotes
    are balanced, whatever the query contains: their number is even, each
    quoted term opening and closing once and doubling the quotes inside. *)
Theorem sanitize_fts_query_balanced (query : str) :
  Nat.Even (dquotes (sanitize_fts_query query)).
Proof.
  rewrite sanitize_as_compiled. unfold compiled_query.
  apply dquotes_join. induction (split_ws query) as [|t ts IH]; simpl.
  - constructor.
  - apply Forall_app. split; [apply terms_of_token_balanced|exact IH].
Qed.

(** ** The trigram similarity *)

Lemma str_eqb_sym a b : str_eqb a b = str_eqb b a.
Proof.
  destruct (str_eqb a b) eqn:H1; destruct (str_eqb b a) eqn:H2;
    try reflexivity.
  - apply str_eqb_eq in H1. subst b.
    assert (str_eqb a a = true) by (apply str_eqb_eq; reflexivity).
    congruence.
  - apply str_eqb_eq in H2. subst b.
    assert (str_eqb a a = true) by (apply str_eqb_eq; reflexivity).
    congruence.
Qed.

Lemma trigram_inter_comm (A B : gset str) : A ∩ B = B ∩ A.
Proof. apply (comm_L (∩)). Qed.

Lemma trigram_union_comm (A B : gset str) : A ∪ B = B ∪ A.
Proof. apply (comm_L (∪)). Qed.

Lemma trigram_inter_idemp (A : gset str) : A ∩ A = A.
Proof. apply (idemp_L (∩)). Qed.

Lemma trigram_union_idemp (A : gset str) : A ∪ A = A.
Proof. apply (idemp_L (∪)). Qed.

(** X6. The similarity is symmetric: comparing a candidate with an accepted
    result gives the same value as comparing them the other way round. *)
Theorem jaccard_similarity_symmetric (text_a text_b : str) :
  _jaccard_similarity text_a text_b = _jaccard_similarity text_b text_a.
Proof.
  unfold _jaccard_similarity.
  rewrite (orb_comm (len text_a <? 3)), (str_eqb_sym text_a text_b).
  cbv zeta.
  rewrite (trigram_inter_comm (trigram_set text_a)),
    (trigram_union_comm (trigram_set text_a)).
  reflexivity.
Qed.

(** An int divided by itself is exactly 1.0. *)
Lemma int_truediv_same n : 0 < n -> int_truediv n n = float_one.
Proof.
  intros Hn. destruct n as [|p|p]; try lia.
  unfold int_truediv, fdiv, SFdiv, SFdiv_core_binary.
  replace (Zdigits2 (Z.pos p) + 0 - (Zdigits2 (Z.pos p) + 0)) with 0 by lia.
  change (Z.min (fexp prec emax 0) (0 - 0)) with (-53).
  change (0 - 0 - -53) with 53.
  cbv iota beta zeta.
  assert (Hdiv : Z.div_eucl (Z.shiftl (Z.pos p) 53) (Z.pos p)
                 = (2 ^ 53, 0)).
  { rewrite Z.shiftl_mul_pow2 by lia.
    pose proof (Z.div_mul (2 ^ 53) (Z.pos p) ltac:(lia)) as Hq.
    pose proof (Z.mod_mul (2 ^ 53) (Z.pos p) ltac:(lia)) as Hr.
    rewrite (Z.mul_comm (2 ^ 53)) in Hq, Hr.
    rewrite (Z.mul_comm (Z.pos p)).
    unfold Z.div, Z.modulo in Hq, Hr.
    rewrite (Z.mul_comm (Z.pos p)) in Hq, Hr.
    destruct (Z.div_eucl (2 ^ 53 * Z.pos p) (Z.pos p)) as [q r].
    congruence. }
  rewrite Hdiv.
  assert (Hloc : new_location (Z.pos p) 0 = loc_Exact).
  { unfold new_location, new_location_even, new_location_odd.
    destruct (Z.even (Z.pos p)); reflexivity. }
  rewrite Hloc. vm_compute. reflexivity.
Qed.

Lemma trigrams_nonempty s : 3 <= len s -> trigrams s <> [].
Proof.
  unfold len. destruct s as [|a [|b [|c s]]]; simpl; try lia. discriminate.
Qed.

(** X7. A text has the similarity 1.0 with itself, whatever its length, so
    a candidate whose content equals that of an accepted result is always
    a duplicate. *)
Theorem jaccard_similarity_self (text : str) :
  _jaccard_similarity text text = float_one
  /\ forall item existing deduped,
       In existing deduped ->
       h_content (f_hit item) = text ->
       h_content (f_hit existing) = text ->
       is_dup item deduped = true.
Proof.
  assert (Hself : _jaccard_similarity text text = float_one).
  { unfold _jaccard_similarity.
    destruct ((len text <? 3) || (len text <? 3)) eqn:Hshort.
    - replace (str_eqb text text) with true
        by (symmetry; apply str_eqb_eq; reflexivity).
      reflexivity.
    - apply orb_false_elim in Hshort. destruct Hshort as [Hlen _].
      apply Z.ltb_ge in Hlen.
      cbv zeta.
      rewrite trigram_inter_idemp, trigram_union_idemp.
      assert (Hpos : 0 < Z.of_nat (size (trigram_set text))).
      { assert (size (trigram_set text) <> 0%nat); [|lia].
        apply size_non_empty_iff. unfold trigram_set.
        pose proof (trigrams_nonempty text Hlen) as Hne.
        destruct (trigrams text) as [|t ts]; [congruence|].
        intros Hempty.
        assert (Hin : t ∈ (list_to_set (t :: ts) : gset str))
          by (apply elem_of_list_to_set; left).
        rewrite Hempty in Hin. set_solver. }
      replace (0 <? Z.of_nat (size (trigram_set text))) with true
        by (symmetry; apply Z.ltb_lt; exact Hpos).
      apply int_truediv_same. exact Hpos. }
  split; [exact Hself|].
  intros item existing deduped Hin Hi He.
  apply is_dup_iff. exists existing. split; [exact Hin|].
  rewrite Hi, He, Hself. vm_compute. reflexivity.
Qed.

Lemma jaccard_similarity_self_witness :
  is_dup fused_A [fused_B; fused_A] = true.
Proof.
  apply (proj2 (jaccard_similarity_self (h_content hit_A)) fused_A fused_A
           [fused_B; fused_A]).
  - right. left. reflexivity.
  - reflexivity.
  - reflexivity.
Defined.

(** X8. Two texts of at least three characters that share no trigram have
    the similarity 0.0, which is not above the threshold. *)
Theorem jaccard_similarity_disjoint (text_a text_b : str) :
  3 <= len text_a -> 3 <= len text_b ->
  trigram_set text_a ∩ trigram_set text_b = ∅ ->
  _jaccard_similarity text_a text_b = float_zero
  /\ flt JACCARD_THRESHOLD (_jaccard_similarity text_a text_b) = false.
Proof.
  intros Ha Hb Hdis.
  assert (H0 : _jaccard_similarity text_a text_b = float_zero).
  { unfold _jaccard_similarity.
    replace ((len text_a <? 3) || (len text_b <? 3)) with false
      by (symmetry; apply orb_false_intro; apply Z.ltb_ge; assumption).
    rewrite Hdis, size_empty. simpl Z.of_nat.
    destruct (0 <? _); reflexivity. }
  split; [exact H0|]. rewrite H0. reflexivity.
Qed.

Lemma jaccard_similarity_disjoint_witness :
  _jaccard_similarity (lit "alpha") (lit "omega") = float_zero
  /\ flt JACCARD_THRESHOLD (_jaccard_similarity (lit "alpha") (lit "omega"))
     = false.
Proof.
  apply (jaccard_similarity_disjoint (lit "alpha") (lit "omega")).
  - vm_compute. discriminate.
  - vm_compute. discriminate.
  - vm_compute. reflexivity.
Defined.


(** ** The fusion: what is returned *)

Lemma is_dup_near_duplicate item deduped :
  is_dup item deduped = false ->
  forall existing, In existing deduped -> near_duplicate item existing = false.
Proof.
  unfold is_dup, near_duplicate. induction deduped as [|x l IH]; simpl.
  - intros _ ? [].
  - intros H existing [<-|Hin].
    + apply orb_false_elim in H. tauto.
    + apply orb_false_elim in H. apply IH; tauto.
Qed.

Lemma no_near_duplicates_snoc deduped item :
  no_near_duplicates deduped -> is_dup item deduped = false ->
  no_near_duplicates (deduped ++ [item]).
Proof.
  intros Hd Hdup i j a b Hij Ha Hb.
  assert (Hjlen : (j < length (deduped ++ [item]))%nat)
    by (apply nth_error_Some; congruence).
  rewrite length_app in Hjlen. simpl in Hjlen.
  rewrite nth_error_app1 in Ha by lia.
  destruct (Nat.eq_dec j (length deduped)) as [->|Hne].
  - rewrite nth_error_app2 in Hb by lia.
    rewrite Nat.sub_diag in Hb. simpl in Hb. injection Hb as <-.
    apply (is_dup_near_duplicate _ _ Hdup). eapply nth_error_In, Ha.
  - rewrite nth_error_app1 in Hb by lia. exact (Hd i j a b Hij Ha Hb).
Qed.

Lemma dedup_loop_no_near_duplicates max_results ranked : forall deduped,
  no_near_duplicates deduped ->
  no_near_duplicates (dedup_loop max_results deduped ranked).
Proof.
  induction ranked as [|item rest IH]; intros deduped Hd; simpl; [exact Hd|].
  assert (Hd' : no_near_duplicates
                  (if is_dup item deduped then deduped else deduped ++ [item])).
  { destruct (is_dup item deduped) eqn:Hdup; [exact Hd|].
    apply no_near_duplicates_snoc; assumption. }
  destruct (max_results <=? _); [exact Hd'|]. apply IH, Hd'.
Qed.

(** X9. Whatever the inputs and the limit, no returned result is a
    near-duplicate of a result returned before it: its trigram similarity
    with each earlier one is not above the threshold. *)
Theorem rrf_fuse_no_near_duplicates (bm25_results vector_results : list hit)
    (k max_results : Z) (out : list fused_hit) :
  rrf_fuse bm25_results vector_results k max_results = Ok out ->
  no_near_duplicates out.
Proof.
  unfold rrf_fuse.
  destruct (fuse_loop _ _ _ bm25_results) as [fused1|]; [|discriminate].
  destruct (fuse_loop _ _ _ vector_results) as [fused|]; [|discriminate].
  intros [= <-]. apply dedup_loop_no_near_duplicates.
  intros i j a b _ Ha. destruct i; discriminate.
Qed.

Lemma rrf_fuse_no_near_duplicates_witness :
  near_duplicate fused_B fused_A = false.
Proof.
  apply (rrf_fuse_no_near_duplicates [hit_A; hit_B; hit_C]
           [hit_B; hit_A; hit_D] RRF_K MAX_RESULTS
           [fused_A; fused_B; fused_C; fused_D] eq_refl 0%nat 1%nat).
  - lia.
  - reflexivity.
  - reflexivity.
Defined.

Lemma fuse_loop_returns (step : fused_dict -> Z -> hit -> res fused_dict) k
    results : forall fused rank,
  (forall fused rank h, 0 < k + rank < 2 ^ 53 ->
     exists fused', step fused rank h = Ok fused') ->
  0 < k + rank -> k + rank + Z.of_nat (length results) <= 2 ^ 53 ->
  exists fused', fuse_loop step fused rank results = Ok fused'.
Proof.
  induction results as [|h rest IH]; intros fused rank Hstep Hlo Hhi.
  - exists fused. reflexivity.
  - cbn [length] in Hhi. cbn [fuse_loop].
    destruct (Hstep fused rank h ltac:(lia)) as [fused1 ->].
    apply IH; [exact Hstep|lia|lia].
Qed.

Lemma fuse_bm25_step_returns k fused rank h :
  0 < k + rank < 2 ^ 53 -> exists fused', fuse_bm25_step k fused rank h = Ok fused'.
Proof.
  intros Hr. unfold fuse_bm25_step.
  destruct (float_div_int_reciprocal k rank Hr) as [-> _]. eexists. reflexivity.
Qed.

Lemma fuse_vector_step_returns k fused rank h :
  0 < k + rank < 2 ^ 53 ->
  exists fused', fuse_vector_step k fused rank h = Ok fused'.
Proof.
  intros Hr. unfold fuse_vector_step.
  destruct (float_div_int_reciprocal k rank Hr) as [-> _]. eexists. reflexivity.
Qed.

(** X10. With a constant [k] that is not negative the fusion returns for
    all result lists (of fewer than 2^53 - k entries); with [k = -1] the
    first lexical result has the rank sum 0 and the fusion raises
    ZeroDivisionError. *)
Theorem rrf_fuse_returns :
  (forall bm25_results vector_results k max_results,
     0 <= k ->
     k + Z.of_nat (length bm25_results) < 2 ^ 53 ->
     k + Z.of_nat (length vector_results) < 2 ^ 53 ->
     exists out,
       rrf_fuse bm25_results vector_results k max_results = Ok out)
  /\ (forall result bm25_results vector_results max_results,
        exists e,
          rrf_fuse (result :: bm25_results) vector_results (-1) max_results
          = Raise e
          /\ exn_kind_of e = ZeroDivisionError).
Proof.
  split.
  - intros bm25_results vector_results k max_results Hk Hb Hv.
    unfold rrf_fuse.
    destruct (fuse_loop_returns (fuse_bm25_step k) k bm25_results [] 1
                (fun f r h => fuse_bm25_step_returns k f r h)
                ltac:(lia) ltac:(lia)) as [fused1 ->].
    destruct (fuse_loop_returns (fuse_vector_step k) k vector_results fused1 1
                (fun f r h => fuse_vector_step_returns k f r h)
                ltac:(lia) ltac:(lia)) as [fused ->].
    eexists. reflexivity.
  - intros result bm25_results vector_results max_results.
    eexists. split; reflexivity.
Qed.

Lemma rrf_fuse_returns_witness :
  exists out,
    rrf_fuse [hit_A; hit_B; hit_C] [hit_B; hit_A; hit_D] RRF_K MAX_RESULTS
    = Ok out.
Proof.
  apply (proj1 rrf_fuse_returns); vm_compute; congruence.
Defined.

Lemma set_snippet_same h : set_snippet (snippet h) h = h.
Proof. destruct h; reflexivity. Qed.

Lemma from_inputs_fresh inputs h :
  In h inputs -> from_inputs inputs (fresh_entry h).
Proof.
  intros Hin. exists h. split; [exact Hin|]. simpl.
  symmetry. apply set_snippet_same.
Qed.

Lemma from_inputs_same_row inputs e v :
  from_inputs inputs e ->
  (f_hit v = f_hit e \/ exists s, f_hit v = set_snippet s (f_hit e)) ->
  from_inputs inputs v.
Proof.
  intros (h & Hin & Heq) [Hv|[s Hv]]; exists h; (split; [exact Hin|]).
  - rewrite Hv. exact Heq.
  - rewrite Hv, Heq. reflexivity.
Qed.

Lemma from_inputs_weaken inputs inputs' f :
  (forall h, In h inputs -> In h inputs') ->
  from_inputs inputs f -> from_inputs inputs' f.
Proof. intros Hsub (h & Hin & Heq). exists h. auto. Qed.

Lemma dict_set_In rid v d p :
  In p (dict_set rid v d) -> p = (rid, v) \/ In p d.
Proof.
  induction d as [|[r v0] d IH]; simpl.
  - intros [H|[]]; auto.
  - destruct (r =? rid) eqn:Hr; simpl.
    + apply Z.eqb_eq in Hr. subst r. intros [H|H]; auto.
    + intros [H|H]; [auto|]. apply IH in H. tauto.
Qed.

Lemma entry_for_from inputs fused h :
  dict_from inputs fused -> In h inputs ->
  from_inputs inputs (entry_for fused h).
Proof.
  intros [_ Hall] Hin. unfold entry_for.
  destruct (dict_get (rowid h) fused) as [e|] eqn:Hg.
  - apply dict_get_In in Hg. rewrite List.Forall_forall in Hall.
    apply (Hall _ Hg).
  - apply from_inputs_fresh, Hin.
Qed.

Lemma dict_set_from inputs rid v fused :
  dict_from inputs fused -> rowid (f_hit v) = rid -> from_inputs inputs v ->
  dict_from inputs (dict_set rid v fused).
Proof.
  intros [Hok Hall] Hrid Hv. split; [apply dict_set_ok; assumption|].
  apply List.Forall_forall. intros p Hp. apply dict_set_In in Hp.
  destruct Hp as [->|Hp]; [exact Hv|].
  rewrite List.Forall_forall in Hall. auto.
Qed.

Lemma fuse_bm25_step_from inputs k fused rank h fused' :
  dict_from inputs fused -> In h inputs ->
  fuse_bm25_step k fused rank h = Ok fused' -> dict_from inputs fused'.
Proof.
  intros Hd Hin. unfold fuse_bm25_step.
  destruct (float_div_int _ _); [|discriminate]. intros [= <-].
  apply dict_set_from; [exact Hd| |].
  - simpl. apply entry_for_rowid, Hd.
  - apply (from_inputs_same_row _ (entry_for fused h));
      [apply entry_for_from; assumption|]. left. reflexivity.
Qed.

Lemma fuse_vector_step_from inputs k fused rank h fused' :
  dict_from inputs fused -> In h inputs ->
  fuse_vector_step k fused rank h = Ok fused' -> dict_from inputs fused'.
Proof.
  intros Hd Hin. unfold fuse_vector_step.
  destruct (float_div_int _ _); [|discriminate]. cbv zeta. intros [= <-].
  pose proof (entry_for_rowid fused h (proj1 Hd)) as He.
  apply dict_set_from; [exact Hd| |].
  - simpl. destruct (_ && _); [exact He|]. destruct (negb _); exact He.
  - apply (from_inputs_same_row _ (entry_for fused h));
      [apply entry_for_from; assumption|]. simpl.
    destruct (_ && _); [left; reflexivity|].
    destruct (negb _); [right; eexists; reflexivity|left; reflexivity].
Qed.

Lemma fuse_loop_from inputs (step : fused_dict -> Z -> hit -> res fused_dict)
    results : forall fused rank fused',
  (forall fused rank h fused',
     dict_from inputs fused -> In h inputs ->
     step fused rank h = Ok fused' -> dict_from inputs fused') ->
  dict_from inputs fused ->
  (forall h, In h results -> In h inputs) ->
  fuse_loop step fused rank results = Ok fused' ->
  dict_from inputs fused'.
Proof.
  induction results as [|h rest IH]; intros fused rank fused' Hstep Hd Hsub;
    cbn [fuse_loop].
  - intros [= <-]. exact Hd.
  - destruct (step fused rank h) as [fused1|] eqn:Hrun; [|discriminate].
    apply IH; [exact Hstep| |intros; apply Hsub; right; assumption].
    apply (Hstep _ _ _ _ Hd (Hsub h (or_introl eq_refl)) Hrun).
Qed.

Lemma insert_desc_perm {A} (key : A -> float) x l :
  Permutation (insert_desc key x l) (x :: l).
Proof.
  induction l as [|y l IH]; simpl; [reflexivity|].
  destruct (flt (key x) (key y)); [|reflexivity].
  rewrite IH. apply perm_swap.
Qed.

Lemma sorted_desc_perm {A} (key : A -> float) l :
  Permutation (sorted_desc key l) l.
Proof.
  induction l as [|x l IH]; simpl; [reflexivity|].
  rewrite insert_desc_perm, IH. reflexivity.
Qed.

Lemma dedup_loop_NoDup {B} (g : fused_hit -> B) max_results ranked :
  forall deduped,
  List.NoDup (map g (deduped ++ ranked)) ->
  List.NoDup (map g (dedup_loop max_results deduped ranked)).
Proof.
  induction ranked as [|item rest IH]; intros deduped Hnd; simpl.
  - rewrite app_nil_r in Hnd. exact Hnd.
  - assert (Hd' : List.NoDup
                    (map g ((if is_dup item deduped then deduped
                             else deduped ++ [item]) ++ rest))).
    { destruct (is_dup item deduped).
      - rewrite map_app in *. simpl in Hnd.
        apply List.NoDup_remove_1 in Hnd. exact Hnd.
      - rewrite <- app_assoc. exact Hnd. }
    destruct (max_results <=? _); [|apply IH, Hd'].
    rewrite map_app in Hd'. apply List.NoDup_app_remove_r in Hd'. exact Hd'.
Qed.

Lemma dict_ok_rowids fused :
  dict_ok fused ->
  map (fun f => rowid (f_hit f)) (map snd fused) = map fst fused.
Proof.
  intros [_ Hall]. induction Hall as [|p l Hp _ IH]; simpl; [reflexivity|].
  rewrite Hp, IH. reflexivity.
Qed.

(** X11. The fusion invents no result and returns none twice: every
    returned record is one of the records of the two lists, with the
    snippet possibly taken from the other list, and the returned rows are
    pairwise distinct. *)
Theorem rrf_fuse_rows (bm25_results vector_results : list hit)
    (k max_results : Z) (out : list fused_hit) :
  rrf_fuse bm25_results vector_results k max_results = Ok out ->
  List.Forall (from_inputs (bm25_results ++ vector_results)) out
  /\ List.NoDup (map (fun f => rowid (f_hit f)) out).
Proof.
  unfold rrf_fuse.
  destruct (fuse_loop _ _ _ bm25_results) as [fused1|] eqn:H1; [|discriminate].
  destruct (fuse_loop _ _ _ vector_results) as [fused|] eqn:H2;
    [|discriminate].
  intros [= <-].
  set (inputs := bm25_results ++ vector_results).
  assert (Hb : forall h, In h bm25_results -> In h inputs)
    by (intros h Hh; apply in_or_app; left; exact Hh).
  assert (Hv : forall h, In h vector_results -> In h inputs)
    by (intros h Hh; apply in_or_app; right; exact Hh).
  assert (Hd0 : dict_from inputs []) by (repeat constructor).
  assert (Hd1 : dict_from inputs fused1).
  { apply (fuse_loop_from inputs _ _ _ _ _
             (fun f r h f' => fuse_bm25_step_from inputs k f r h f')
             Hd0 Hb H1). }
  assert (Hd : dict_from inputs fused).
  { apply (fuse_loop_from inputs _ _ _ _ _
             (fun f r h f' => fuse_vector_step_from inputs k f r h f')
             Hd1 Hv H2). }
  destruct Hd as [Hok Hall]. split.
  - apply List.Forall_forall. intros f Hf.
    apply dedup_loop_In in Hf. destruct Hf as [[]|Hf].
    apply (proj1 (sorted_desc_In _ _ _)) in Hf.
    apply in_map_iff in Hf. destruct Hf as (p & <- & Hp).
    rewrite List.Forall_forall in Hall. auto.
  - apply dedup_loop_NoDup. simpl.
    rewrite (Permutation_map _ (sorted_desc_perm rrf_score (map snd fused))).
    rewrite dict_ok_rowids by exact Hok. apply Hok.
Qed.

Lemma rrf_fuse_rows_witness :
  List.Forall (from_inputs ([hit_A; hit_B; hit_C] ++ [hit_B; hit_A; hit_D]))
    [fused_A; fused_B; fused_C; fused_D]
  /\ List.NoDup (map (fun f => rowid (f_hit f))
                   [fused_A; fused_B; fused_C; fused_D]).
Proof.
  apply (rrf_fuse_rows [hit_A; hit_B; hit_C] [hit_B; hit_A; hit_D] RRF_K
           MAX_RESULTS).
  vm_compute. reflexivity.
Defined.

(** ** The fusion: ranks, sources and snippets *)

Lemma rank_from_result_from rid results : forall rank,
  rank_from rid rank results = option_map fst (result_from rid rank results).
Proof.
  induction results as [|h rest IH]; intros rank; simpl; [reflexivity|].
  destruct (rowid h =? rid); [reflexivity|apply IH].
Qed.

Lemma result_from_absent rid results : forall rank,
  ~ In rid (map rowid results) -> result_from rid rank results = None.
Proof.
  induction results as [|h rest IH]; intros rank Hn; simpl; [reflexivity|].
  destruct (rowid h =? rid) eqn:He.
  - apply Z.eqb_eq in He. exfalso. apply Hn. simpl. auto.
  - apply IH. intros Hin. apply Hn. simpl. auto.
Qed.

Section Fields.

Context {X : Type} (proj : fused_hit -> X) (d : X) (upd : Z -> hit -> X -> X).

Lemma fuse_loop_field step results : forall fused rank fused',
  updates_field proj d upd step ->
  List.NoDup (map rowid results) ->
  fuse_loop step fused rank results = Ok fused' ->
  forall rid,
    field_of proj d fused' rid
    = field_after upd rid rank results (field_of proj d fused rid).
Proof.
  induction results as [|h rest IH]; intros fused rank fused' Hstep Hnd;
    cbn [fuse_loop].
  - intros [= <-] rid. reflexivity.
  - simpl in Hnd. apply List.NoDup_cons_iff in Hnd as [Hnotin Hnd'].
    destruct (step fused rank h) as [fused1|] eqn:Hrun; [|discriminate].
    intros Hloop rid.
    rewrite (IH _ _ _ Hstep Hnd' Hloop rid), (Hstep _ _ _ _ Hrun rid).
    unfold field_after. cbn [result_from].
    destruct (rowid h =? rid) eqn:He; [|reflexivity].
    apply Z.eqb_eq in He. subst rid.
    rewrite (result_from_absent _ _ _ Hnotin). reflexivity.
Qed.

End Fields.

Ltac step_field step :=
  intros fused rank h fused'; unfold step;
  destruct (float_div_int _ _); [|discriminate]; cbv zeta;
  intros [= <-] rid; unfold field_of at 1; rewrite dict_get_set;
  destruct (rowid h =? rid) eqn:He; [|reflexivity];
  apply Z.eqb_eq in He; subst rid; cbn [bm25_rank vec_rank sources f_hit];
  unfold field_of, entry_for;
  destruct (dict_get (rowid h) fused); reflexivity.

Lemma bm25_step_bm25_rank k :
  updates_field bm25_rank None (fun r _ _ => Some r) (fuse_bm25_step k).
Proof. step_field fuse_bm25_step. Qed.

Lemma bm25_step_vec_rank k :
  updates_field vec_rank None (fun _ _ x => x) (fuse_bm25_step k).
Proof. step_field fuse_bm25_step. Qed.

Lemma bm25_step_sources k :
  updates_field sources [] (fun _ _ x => x ++ [lit "bm25"])
    (fuse_bm25_step k).
Proof. step_field fuse_bm25_step. Qed.

Lemma vector_step_bm25_rank k :
  updates_field bm25_rank None (fun _ _ x => x) (fuse_vector_step k).
Proof. step_field fuse_vector_step. Qed.

Lemma vector_step_vec_rank k :
  updates_field vec_rank None (fun r _ _ => Some r) (fuse_vector_step k).
Proof. step_field fuse_vector_step. Qed.

Lemma vector_step_sources k :
  updates_field sources [] (fun _ _ x => x ++ [lit "vector"])
    (fuse_vector_step k).
Proof. step_field fuse_vector_step. Qed.

Lemma rrf_fuse_entries bm25_results vector_results k max_results out :
  rrf_fuse bm25_results vector_results k max_results = Ok out ->
  exists fused1 fused,
    fuse_loop (fuse_bm25_step k) [] 1 bm25_results = Ok fused1
    /\ fuse_loop (fuse_vector_step k) fused1 1 vector_results = Ok fused
    /\ dict_ok fused
    /\ forall f, In f out ->
         dict_get (rowid (f_hit f)) fused = Some f.
Proof.
  unfold rrf_fuse.
  destruct (fuse_loop _ _ _ bm25_results) as [fused1|] eqn:H1; [|discriminate].
  destruct (fuse_loop _ _ _ vector_results) as [fused|] eqn:H2;
    [|discriminate].
  intros [= <-]. exists fused1, fused.
  set (inputs := bm25_results ++ vector_results).
  assert (Hb : forall h, In h bm25_results -> In h inputs)
    by (intros h Hh; apply in_or_app; left; exact Hh).
  assert (Hv : forall h, In h vector_results -> In h inputs)
    by (intros h Hh; apply in_or_app; right; exact Hh).
  assert (Hd0 : dict_from inputs []) by (repeat constructor).
  assert (Hd1 : dict_from inputs fused1).
  { apply (fuse_loop_from inputs _ _ _ _ _
             (fun f r h f' => fuse_bm25_step_from inputs k f r h f')
             Hd0 Hb H1). }
  assert (Hd : dict_from inputs fused).
  { apply (fuse_loop_from inputs _ _ _ _ _
             (fun f r h f' => fuse_vector_step_from inputs k f r h f')
             Hd1 Hv H2). }
  destruct Hd as [Hok _].
  split; [reflexivity|]. split; [exact H2|]. split; [exact Hok|].
  intros f Hf. apply dedup_loop_In in Hf. destruct Hf as [[]|Hf].
  apply (proj1 (sorted_desc_In _ _ _)) in Hf.
  apply in_map_iff in Hf. destruct Hf as ([rid e] & <- & Hp). simpl.
  destruct (dict_ok_get _ _ _ Hok Hp) as [Hg Hrid]. rewrite Hrid. exact Hg.
Qed.

(** X12. For result lists without repeated rows, every returned record
    carries its row's rank in the lexical list and in the vector list
    (none where the row is absent), and its sources name exactly the lists
    that hold the row, the lexical one first. *)
Theorem rrf_fuse_ranks_and_sources (bm25_results vector_results : list hit)
    (k max_results : Z) (out : list fused_hit) :
  List.NoDup (map rowid bm25_results) ->
  List.NoDup (map rowid vector_results) ->
  rrf_fuse bm25_results vector_results k max_results = Ok out ->
  List.Forall
    (fun f =>
       bm25_rank f = rank_in (rowid (f_hit f)) bm25_results
       /\ vec_rank f = rank_in (rowid (f_hit f)) vector_results
       /\ sources f = sources_of_ranks (bm25_rank f) (vec_rank f))
    out.
Proof.
  intros Hnb Hnv Hrun.
  destruct (rrf_fuse_entries _ _ _ _ _ Hrun) as (fused1 & fused & H1 & H2 & _ & Hget).
  apply List.Forall_forall. intros f Hf. specialize (Hget f Hf).
  set (rid := rowid (f_hit f)) in *.
  pose proof (fuse_loop_field _ _ _ _ _ _ _ _ (bm25_step_bm25_rank k) Hnb H1 rid)
    as Hb1.
  pose proof (fuse_loop_field _ _ _ _ _ _ _ _ (bm25_step_vec_rank k) Hnb H1 rid)
    as Hv1.
  pose proof (fuse_loop_field _ _ _ _ _ _ _ _ (bm25_step_sources k) Hnb H1 rid)
    as Hs1.
  pose proof (fuse_loop_field _ _ _ _ _ _ _ _ (vector_step_bm25_rank k) Hnv H2 rid)
    as Hb2.
  pose proof (fuse_loop_field _ _ _ _ _ _ _ _ (vector_step_vec_rank k) Hnv H2 rid)
    as Hv2.
  pose proof (fuse_loop_field _ _ _ _ _ _ _ _ (vector_step_sources k) Hnv H2 rid)
    as Hs2.
  rewrite Hb1 in Hb2. rewrite Hv1 in Hv2. rewrite Hs1 in Hs2.
  unfold field_of in Hb2 at 1, Hv2 at 1, Hs2 at 1. rewrite Hget in Hb2, Hv2, Hs2.
  unfold field_of in Hb2, Hv2, Hs2. cbn [dict_get] in Hb2, Hv2, Hs2.
  unfold rank_in. rewrite !rank_from_result_from.
  unfold field_after in *.
  rewrite Hb2, Hv2, Hs2. unfold sources_of_ranks.
  destruct (result_from rid 1 bm25_results) as [[rb hb]|];
    destruct (result_from rid 1 vector_results) as [[rv hv]|];
    repeat split; reflexivity.
Qed.

Lemma rrf_fuse_ranks_and_sources_witness :
  List.Forall
    (fun f =>
       bm25_rank f = rank_in (rowid (f_hit f)) [hit_A; hit_B; hit_C]
       /\ vec_rank f = rank_in (rowid (f_hit f)) [hit_B; hit_A; hit_D]
       /\ sources f = sources_of_ranks (bm25_rank f) (vec_rank f))
    [fused_A; fused_B; fused_C; fused_D].
Proof.
  apply (rrf_fuse_ranks_and_sources [hit_A; hit_B; hit_C]
           [hit_B; hit_A; hit_D] RRF_K MAX_RESULTS).
  - repeat constructor; simpl; intuition discriminate.
  - repeat constructor; simpl; intuition discriminate.
  - vm_compute. reflexivity.
Defined.

Lemma bm25_step_snippet k :
  updates_field (fun f => Some (snippet (f_hit f))) None
    (fun _ h x => match x with Some s => Some s | None => Some (snippet h) end)
    (fuse_bm25_step k).
Proof. step_field fuse_bm25_step. Qed.

Lemma vector_step_snippet k :
  updates_field (fun f => Some (snippet (f_hit f))) None
    (fun _ h x =>
       let s := match x with Some s => s | None => snippet h end in
       Some (if contains (lit ">>>") s then s else snippet h))
    (fuse_vector_step k).
Proof.
  intros fused rank h fused'. unfold fuse_vector_step.
  set (mark := lit ">>>").
  destruct (float_div_int _ _); [|discriminate]. cbv zeta.
  intros [= <-] rid. unfold field_of at 1. rewrite dict_get_set.
  destruct (rowid h =? rid) eqn:He; [|reflexivity].
  apply Z.eqb_eq in He. subst rid. cbn [f_hit].
  assert (Hs : snippet (f_hit (entry_for fused h))
               = match field_of (fun f => Some (snippet (f_hit f))) None fused
                         (rowid h) with
                 | Some s => s
                 | None => snippet h
                 end).
  { unfold field_of, entry_for.
    destruct (dict_get (rowid h) fused); reflexivity. }
  rewrite <- Hs.
  destruct (contains mark (snippet (f_hit (entry_for fused h))));
    [destruct (existsb _ _)|rewrite andb_false_r]; simpl;
    reflexivity.
Qed.

(** X13. For result lists without repeated rows, the snippet of a returned
    record is the lexical result's snippet when that carries a highlight
    mark or the row has no vector result, and the vector result's snippet
    otherwise. *)
Theorem rrf_fuse_snippet (bm25_results vector_results : list hit)
    (k max_results : Z) (out : list fused_hit) :
  List.NoDup (map rowid bm25_results) ->
  List.NoDup (map rowid vector_results) ->
  rrf_fuse bm25_results vector_results k max_results = Ok out ->
  List.Forall
    (fun f =>
       Some (snippet (f_hit f))
       = fused_snippet (result_in (rowid (f_hit f)) bm25_results)
           (result_in (rowid (f_hit f)) vector_results))
    out.
Proof.
  intros Hnb Hnv Hrun.
  destruct (rrf_fuse_entries _ _ _ _ _ Hrun)
    as (fused1 & fused & H1 & H2 & _ & Hget).
  apply List.Forall_forall. intros f Hf. specialize (Hget f Hf).
  set (rid := rowid (f_hit f)) in *.
  pose proof (fuse_loop_field _ _ _ _ _ _ _ _ (bm25_step_snippet k) Hnb H1 rid)
    as Hs1.
  pose proof (fuse_loop_field _ _ _ _ _ _ _ _ (vector_step_snippet k) Hnv H2
                rid) as Hs2.
  rewrite Hs1 in Hs2. unfold field_of in Hs2 at 1. rewrite Hget in Hs2.
  unfold field_of in Hs2. cbn [dict_get] in Hs2.
  rewrite Hs2. unfold field_after, result_in, fused_snippet.
  destruct (result_from rid 1 bm25_results) as [[rb hb]|];
    destruct (result_from rid 1 vector_results) as [[rv hv]|]; simpl;
    try reflexivity.
  destruct (contains _ _); reflexivity.
Qed.

Lemma rrf_fuse_snippet_witness :
  List.Forall
    (fun f =>
       Some (snippet (f_hit f))
       = fused_snippet (result_in (rowid (f_hit f)) [hit_A; hit_B; hit_C])
           (result_in (rowid (f_hit f)) [hit_B; hit_A; hit_D]))
    [fused_A; fused_B; fused_C; fused_D].
Proof.
  apply (rrf_fuse_snippet [hit_A; hit_B; hit_C] [hit_B; hit_A; hit_D] RRF_K
           MAX_RESULTS).
  - repeat constructor; simpl; intuition discriminate.
  - repeat constructor; simpl; intuition discriminate.
  - vm_compute. reflexivity.
Defined.

(** ** Triples *)

Section Hoare.

Context {A B : Type}.

Lemma hoare_consequence (P P' : state -> Prop) (c : M A)
    (Q Q' : A -> state -> Prop) (X X' : exn -> state -> Prop) :
  hoare P' c Q' X' ->
  (forall s, P s -> P' s) ->
  (forall a s, Q' a s -> Q a s) ->
  (forall e s, X' e s -> X e s) ->
  hoare P c Q X.
Proof.
  intros Hc HP HQ HX s Hs. specialize (Hc s (HP s Hs)).
  destruct (c s) as [[a|e] s']; auto.
Qed.

Lemma hoare_bind (P : state -> Prop) (c : M A) (k : A -> M B)
    (Q1 : A -> state -> Prop) (Q : B -> state -> Prop)
    (X : exn -> state -> Prop) :
  hoare P c Q1 X -> (forall a, hoare (Q1 a) (k a) Q X) ->
  hoare P (bind c k) Q X.
Proof.
  intros Hc Hk s Hs. unfold bind. specialize (Hc s Hs).
  destruct (c s) as [[a|e] s']; [|exact Hc]. apply (Hk a s' Hc).
Qed.

Lemma hoare_try_except (P : state -> Prop) (c : M A) (h : exn -> M A)
    (Q : A -> state -> Prop) (X1 X : exn -> state -> Prop) :
  hoare P c Q X1 -> (forall e, hoare (X1 e) (h e) Q X) ->
  hoare P (try_except c h) Q X.
Proof.
  intros Hc Hh s Hs. unfold try_except. specialize (Hc s Hs).
  destruct (c s) as [[a|e] s']; [exact Hc|]. apply (Hh e s' Hc).
Qed.

Lemma hoare_ret (P : state -> Prop) (a : A) (Q : A -> state -> Prop) X :
  (forall s, P s -> Q a s) -> hoare P (ret a) Q X.
Proof. intros H s Hs. apply H, Hs. Qed.

Lemma hoare_lift (P : state -> Prop) (r : res A) (Q : A -> state -> Prop)
    (X : exn -> state -> Prop) :
  (forall s, P s -> match r with Ok a => Q a s | Raise e => X e s end) ->
  hoare P (lift r) Q X.
Proof.
  intros H s Hs. specialize (H s Hs). unfold lift. destruct r; exact H.
Qed.

Lemma hoare_for_each (I : list A -> state -> Prop) (body : A -> M unit)
    (X : exn -> state -> Prop) (l : list A) :
  (forall pre a rest, l = pre ++ a :: rest ->
     hoare (I (a :: rest)) (body a) (fun _ => I rest) X) ->
  hoare (I l) (for_each l body) (fun _ => I []) X.
Proof.
  induction l as [|a rest IH]; intros Hbody; cbn [for_each].
  - intros s Hs. exact Hs.
  - intros s Hs. unfold bind.
    pose proof (Hbody [] a rest eq_refl s Hs) as Hrun.
    destruct (body a s) as [[[]|e] s']; [|exact Hrun].
    apply (IH (fun pre a0 rest0 Heq =>
                 Hbody (a :: pre) a0 rest0 (f_equal (cons a) Heq)) s' Hrun).
Qed.

Lemma hoare_fold_m (I : list A -> B -> state -> Prop) (f : B -> A -> M B)
    (X : exn -> state -> Prop) (l : list A) : forall acc,
  (forall pre a rest acc, l = pre ++ a :: rest ->
     hoare (I (a :: rest) acc) (f acc a) (I rest) X) ->
  hoare (I l acc) (fold_m f l acc) (I []) X.
Proof.
  induction l as [|a rest IH]; intros acc Hf; cbn [fold_m].
  - intros s Hs. exact Hs.
  - intros s Hs. unfold bind.
    pose proof (Hf [] a rest acc eq_refl s Hs) as Hrun.
    destruct (f acc a s) as [[acc'|e] s']; [|exact Hrun].
    apply (IH acc' (fun pre a0 rest0 acc0 Heq =>
                      Hf (a :: pre) a0 rest0 acc0 (f_equal (cons a) Heq))
             s' Hrun).
Qed.

Lemma hoare_const (phi : Prop) (c : M A) :
  hoare (fun _ => phi) c (fun _ _ => phi) (fun _ _ => True).
Proof. intros s H. destruct (c s) as [[a|e] s']; auto. Qed.

End Hoare.

Lemma hoare_conn (P : state -> Prop) (Q : db -> state -> Prop) X :
  (forall s, P s -> Q (st_conn s) s) -> hoare P conn Q X.
Proof. intros H s Hs. apply H, Hs. Qed.

Lemma hoare_get_state (P : state -> Prop) (Q : state -> state -> Prop) X :
  (forall s, P s -> Q s s) -> hoare P get_state Q X.
Proof. intros H s Hs. apply H, Hs. Qed.

Lemma hoare_update_conn (P : state -> Prop) (f : db -> db)
    (Q : unit -> state -> Prop) X :
  (forall s, P s -> Q tt (with_conn (f (st_conn s)) s)) ->
  hoare P (update_conn f) Q X.
Proof. intros H s Hs. apply H, Hs. Qed.

Lemma hoare_print (P : state -> Prop) (f : stream) (text : str)
    (Q : unit -> state -> Prop) X :
  (forall s, P s ->
     Q tt (mk_state (st_file s) (st_conn s) (st_model s) (st_model_name s)
             (st_out s ++ [(f, text)]))) ->
  hoare P (print f text) Q X.
Proof. intros H s Hs. apply H, Hs. Qed.

(** ** The rowids of the index *)

Lemma next_rowid_above {V} (m : gmap Z V) rid :
  is_Some (m !! rid) -> rid < next_rowid m.
Proof.
  unfold next_rowid.
  assert (H : forall k, is_Some (m !! k)
                        -> k <= map_fold (fun k _ acc => Z.max k acc) 0 m).
  { apply (map_fold_weak_ind
             (fun r (m : gmap Z V) => forall k, is_Some (m !! k) -> k <= r)).
    - intros k Hk. rewrite lookup_empty in Hk. destruct Hk. discriminate.
    - intros i x m' r _ IH k Hk.
      destruct (decide (k = i)) as [->|Hne]; [lia|].
      rewrite lookup_insert_ne in Hk by congruence.
      specialize (IH k Hk). lia. }
  intros Hs. specialize (H rid Hs). lia.
Qed.

Lemma next_rowid_fresh {V} (m : gmap Z V) : next_rowid m ∉ dom m.
Proof.
  intros Hin. apply elem_of_dom in Hin. apply next_rowid_above in Hin. lia.
Qed.

Lemma old_rowids_dom filepath (d : db) :
  dom (filter (fun kv : Z * chunk_row => cr_path (snd kv) <> filepath)
         (chunks d))
  =@{gset Z}
  dom (chunks d)
  ∖ list_to_set
      (map fst (List.filter
                  (fun kv => bool_decide (cr_path (snd kv) = filepath))
                  (rows_of (chunks d)))).
Proof.
  apply set_eq. intros rid.
  rewrite elem_of_difference, !elem_of_dom, elem_of_list_to_set.
  rewrite list_elem_of_fmap. unfold is_Some.
  setoid_rewrite map_lookup_filter_Some. simpl.
  setoid_rewrite list_elem_of_In. setoid_rewrite filter_In.
  unfold rows_of.
  split.
  - intros (row & Hrow & Hpath). split; [eauto|].
    intros ([k row'] & -> & Hin & Hp). simpl in *.
    apply bool_decide_eq_true in Hp.
    apply list_elem_of_In in Hin.
    rewrite (merge_sort_Permutation rowid_le (map_to_list (chunks d))) in Hin.
    apply elem_of_map_to_list in Hin. congruence.
  - intros [(row & Hrow) Hnot]. exists row. split; [exact Hrow|].
    intros Hpath. apply Hnot. exists (rid, row). split; [reflexivity|].
    split; [|apply bool_decide_eq_true; exact Hpath].
    apply list_elem_of_In.
    rewrite (merge_sort_Permutation rowid_le (map_to_list (chunks d))).
    apply elem_of_map_to_list. exact Hrow.
Qed.

(** ** The index stays consistent *)

Lemma consistent_but_nil d : consistent_but [] d <-> consistent d.
Proof.
  unfold consistent_but, consistent. simpl.
  rewrite !difference_empty_L. reflexivity.
Qed.

Lemma insert_chunk_consistent filepath category c :
  hoare index_ok (insert_chunk filepath category c) (fun _ => index_ok)
    (fun _ _ => False).
Proof.
  intros s [[Hm He] Hf]. unfold insert_chunk, bind, conn, update_conn, raise.
  cbn [st_conn chunks_meta chunks set_chunks].
  destruct (chunks_meta (st_conn s) !! next_rowid (chunks (st_conn s)))
    as [r|] eqn:Hl.
  - apply (next_rowid_fresh (chunks (st_conn s))). rewrite <- Hm.
    apply elem_of_dom. eauto.
  - split; [|exact Hf]. split; simpl.
    + rewrite !dom_insert_L, Hm. reflexivity.
    + rewrite dom_insert_L. set_solver.
Qed.

Lemma index_file_hoare E filepath :
  hoare index_ok (index_file E filepath) (fun _ => index_ok)
    (fun e s => index_ok s /\ raised_by_file E filepath e).
Proof.
  unfold index_file.
  apply hoare_bind
    with (Q1 := fun h s => index_ok s /\ get_file_hash E filepath = Ok h).
  { apply hoare_lift. intros s Hs.
    destruct (get_file_hash E filepath) eqn:Hh; [auto|].
    split; [exact Hs|]. left. exact Hh. }
  intros file_hash.
  apply hoare_bind with (Q1 := fun d s => index_ok s /\ d = st_conn s).
  { apply hoare_conn. intros s [Hs _]. auto. }
  intros d. destruct (unchanged d filepath file_hash).
  { apply hoare_ret. intros s [Hs _]. exact Hs. }
  set (old_rowids := map fst (List.filter _ (rows_of (chunks d)))).
  apply hoare_bind
    with (Q1 := fun _ => on_conn (consistent_but old_rowids)).
  { apply hoare_update_conn. intros s [[[Hm He] Hf] ->].
    split; [|exact Hf]. unfold consistent_but. simpl.
    rewrite old_rowids_dom. fold old_rowids. rewrite Hm. split; set_solver. }
  intros _.
  apply hoare_bind with (Q1 := fun _ => index_ok).
  { eapply hoare_consequence;
      [apply (hoare_for_each (fun rest => on_conn (consistent_but rest)))
      |auto| |intros e s H; exact H].
    - intros _ rid rest _ s [[Hm He] Hf].
      unfold bind, update_conn. cbn [st_conn st_file].
      split; [|exact Hf]. unfold consistent_but in *. simpl in *.
      rewrite !dom_delete_L. split; set_solver.
    - intros _ s [Hc Hf]. split; [|exact Hf]. apply consistent_but_nil, Hc. }
  intros _.
  apply hoare_bind
    with (Q1 := fun text s => index_ok s /\ read_text E filepath = Ok text).
  { apply hoare_lift. intros s Hs.
    destruct (read_text E filepath) eqn:Hr; [auto|].
    split; [exact Hs|]. right. left. exact Hr. }
  intros text.
  apply hoare_bind with (Q1 := fun _ => index_ok).
  { destruct (endswith _ _) eqn:Hjson.
    - apply hoare_lift. intros s [Hs Hr].
      destruct (chunk_json E text filepath) eqn:Hj; [exact Hs|].
      split; [exact Hs|]. right. right. eauto.
    - apply hoare_ret. tauto. }
  intros new_chunks.
  apply hoare_bind with (Q1 := fun _ => index_ok).
  { apply (hoare_for_each (fun _ => index_ok)). intros _ c _ _.
    eapply hoare_consequence;
      [apply insert_chunk_consistent|auto|auto|intros e s []]. }
  intros _.
  apply hoare_bind with (Q1 := fun _ => index_ok).
  { apply hoare_update_conn. intros s [Hc Hf]. split; [exact Hc|exact Hf]. }
  intros _. apply hoare_ret. auto.
Qed.

(** X14. When every line range and every embedding belongs to a chunk row
    before [index_file] runs, the same holds afterwards, also when it
    raises; and it raises only what reading the file raises (from
    [os.stat], from [read], or from [chunk_json]): the inserts never fail
    on a rowid that is taken. *)
Theorem index_file_consistent (E : Env) (filepath : str) (s : state) :
  index_ok s ->
  index_ok (snd (index_file E filepath s))
  /\ forall e, fst (index_file E filepath s) = Raise e ->
               raised_by_file E filepath e.
Proof.
  intros Hs. pose proof (index_file_hoare E filepath s Hs) as H.
  destruct (index_file E filepath s) as [[n|e] s']; simpl.
  - split; [exact H|]. discriminate.
  - split; [apply H|]. intros e' [= <-]. apply H.
Qed.

Lemma index_file_consistent_witness :
  index_ok (snd (index_file (sample_env NotInstalled) cache_path
                   (sample_state empty_db)))
  /\ forall e,
       fst (index_file (sample_env NotInstalled) cache_path
              (sample_state empty_db)) = Raise e ->
       raised_by_file (sample_env NotInstalled) cache_path e.
Proof.
  apply (index_file_consistent (sample_env NotInstalled) cache_path
           (sample_state empty_db)).
  split.
  - split; [reflexivity|]. intros x Hx. exact Hx.
  - intros d [= <-]. split; [reflexivity|]. intros x Hx. exact Hx.
Defined.

(** ** What the searchers leave alone *)

#[global] Instance same_index_preorder : PreOrder same_index.
Proof.
  split.
  - intros s. split; reflexivity.
  - intros s1 s2 s3 [H1 H2] [H3 H4]. split; congruence.
Qed.

Lemma keeps_index_print f text : keeps same_index (print f text).
Proof. intros s. split; reflexivity. Qed.

Lemma keeps_index_set_model m : keeps same_index (set_model m).
Proof. intros s. split; reflexivity. Qed.

Lemma keeps_index_set_model_name n : keeps same_index (set_model_name n).
Proof. intros s. split; reflexivity. Qed.

Ltac read_step :=
  match goal with
  | |- keeps _ (bind _ _) => apply keeps_bind; [|intros ?]
  | |- keeps _ (ret _) => apply keeps_ret
  | |- keeps _ (lift _) => apply keeps_lift
  | |- keeps _ (raise _) => apply keeps_raise
  | |- keeps _ get_state => apply keeps_get_state
  | |- keeps _ conn => apply keeps_conn
  | |- keeps _ (try_except _ _) => apply keeps_try_except; [|intros ?]
  | |- keeps _ (print _ _) => apply keeps_index_print
  | |- keeps _ (set_model _) => apply keeps_index_set_model
  | |- keeps _ (set_model_name _) => apply keeps_index_set_model_name
  | |- _ (if ?b then _ else _) => destruct b
  | |- _ (match ?x with _ => _ end) => destruct x
  end.

Lemma keeps_index_get_model E : keeps same_index (_get_embedding_model E).
Proof. unfold _get_embedding_model. repeat read_step. Qed.

Lemma keeps_index_embed_texts E texts : keeps same_index (_embed_texts E texts).
Proof.
  unfold _embed_texts. apply keeps_bind; [apply keeps_index_get_model|].
  intros ?. repeat read_step.
Qed.

Lemma keeps_index_embed_query E query : keeps same_index (_embed_query E query).
Proof.
  unfold _embed_query. apply keeps_bind; [apply keeps_index_get_model|].
  intros ?. repeat read_step.
Qed.

Lemma keeps_index_bm25_search E query cf n :
  keeps same_index (bm25_search E query cf n).
Proof. unfold bm25_search. repeat read_step. Qed.

Lemma keeps_index_vector_search E query cf n :
  keeps same_index (vector_search E query cf n).
Proof.
  unfold vector_search. apply keeps_bind; [apply keeps_index_embed_query|].
  intros ?. repeat read_step.
Qed.

(** X15. The two searchers only read the index: whatever they return or
    raise, the tables seen through the connection and the committed
    database are what they were. *)
Theorem searchers_read_only (E : Env) (query : str)
    (category_filter : option str) (max_results : Z) (s : state) :
  same_index s (snd (bm25_search E query category_filter max_results s))
  /\ same_index s (snd (vector_search E query category_filter max_results s)).
Proof.
  split; [apply keeps_index_bm25_search|apply keeps_index_vector_search].
Qed.

(** ** Every entry point keeps the index consistent *)

Lemma preserves_of_keeps {A} (c : M A) : keeps same_index c -> preserves c.
Proof.
  intros Hc s [Hs Hf]. destruct (Hc s) as [H1 H2].
  assert (Hok : index_ok (snd (c s))).
  { split; [rewrite H1; exact Hs|]. intros d Hd. rewrite H2 in Hd. auto. }
  destruct (c s) as [[a|e] s']; exact Hok.
Qed.

Lemma preserves_bind {A B} (c : M A) (k : A -> M B) :
  preserves c -> (forall a, preserves (k a)) -> preserves (bind c k).
Proof. intros Hc Hk. eapply hoare_bind; [exact Hc|exact Hk]. Qed.

Lemma preserves_try_except {A} (c : M A) (h : exn -> M A) :
  preserves c -> (forall e, preserves (h e)) -> preserves (try_except c h).
Proof. intros Hc Hh. eapply hoare_try_except; [exact Hc|exact Hh]. Qed.

Lemma preserves_fold_m {A B} (f : B -> A -> M B) (l : list A) acc :
  (forall acc a, preserves (f acc a)) -> preserves (fold_m f l acc).
Proof.
  intros Hf. apply (hoare_fold_m (fun _ _ => index_ok)). intros. apply Hf.
Qed.

Lemma preserves_update_conn f :
  (forall d, consistent d -> consistent (f d)) -> preserves (update_conn f).
Proof. intros Hf s [Hs Hfile]. split; [apply Hf, Hs|exact Hfile]. Qed.

Lemma consistent_empty : consistent empty_db.
Proof. split; [reflexivity|]. intros x Hx. exact Hx. Qed.

Lemma preserves_connect : preserves connect.
Proof.
  intros s [Hs Hf]. split; [|exact Hf]. simpl.
  destruct (st_file s) as [d|] eqn:Hd; [apply Hf; exact Hd|].
  apply consistent_empty.
Qed.

Lemma preserves_init_db : preserves init_db.
Proof.
  intros s [Hs Hf]. split; [exact Hs|]. simpl.
  destruct (st_file s) as [d|] eqn:Hd; intros d' [= <-]; [|exact Hs].
  apply Hf. exact Hd.
Qed.

Lemma preserves_commit : preserves commit.
Proof. intros s [Hs Hf]. split; [exact Hs|]. intros d [= <-]. exact Hs. Qed.

Lemma preserves_remove_db : preserves remove_db.
Proof. intros s [Hs Hf]. split; [exact Hs|]. intros d [=]. Qed.

Lemma preserves_index_file E filepath : preserves (index_file E filepath).
Proof.
  eapply hoare_consequence; [apply index_file_hoare|auto|auto|].
  intros e s [H _]. exact H.
Qed.

Ltac pres_step :=
  match goal with
  | |- preserves (bind _ _) => apply preserves_bind; [|intros ?]
  | |- preserves (try_except _ _) => apply preserves_try_except; [|intros ?]
  | |- preserves (fold_m _ _ _) => apply preserves_fold_m; intros ? ?
  | |- preserves (index_file _ _) => apply preserves_index_file
  | |- preserves connect => apply preserves_connect
  | |- preserves init_db => apply preserves_init_db
  | |- preserves commit => apply preserves_commit
  | |- preserves remove_db => apply preserves_remove_db
  | |- preserves (ret _) => apply preserves_of_keeps, keeps_ret
  | |- preserves (lift _) => apply preserves_of_keeps, keeps_lift
  | |- preserves get_state => apply preserves_of_keeps, keeps_get_state
  | |- preserves conn => apply preserves_of_keeps, keeps_conn
  | |- preserves (print _ _) => apply preserves_of_keeps, keeps_index_print
  | |- preserves (_get_embedding_model _) =>
      apply preserves_of_keeps, keeps_index_get_model
  | |- preserves (bm25_search _ _ _ _) =>
      apply preserves_of_keeps, keeps_index_bm25_search
  | |- preserves (vector_search _ _ _ _) =>
      apply preserves_of_keeps, keeps_index_vector_search
  | |- _ (if ?b then _ else _) => destruct b
  | |- _ (match ?x with _ => _ end) => destruct x
  end.

Lemma preserves_sync_index E : preserves (sync_index E).
Proof. unfold sync_index. repeat pres_step. Qed.

Lemma zip3_In {A B C} (a : list A) : forall (b : list B) (c : list C) x y z,
  In (x, y, z) (zip3 a b c) -> In x a.
Proof.
  induction a as [|x0 a IH]; intros [|y0 b] [|z0 c] x y z; simpl;
    try contradiction.
  intros [[= <- _ _]|H]; [auto|]. right. apply (IH _ _ _ _ _ H).
Qed.

Lemma filter_rowids {V} (p : Z * V -> bool) (l : list (Z * V)) rid :
  In rid (map fst (List.filter p l)) -> In rid (map fst l).
Proof.
  rewrite !in_map_iff. intros (x & Hx & Hin). apply filter_In in Hin.
  exists x. tauto.
Qed.

Lemma hoare_of_keeps_conn {A} (d : db) (c : M A) :
  keeps same_index c ->
  hoare (fun s => index_ok s /\ st_conn s = d) c
    (fun _ s => index_ok s /\ st_conn s = d) (fun _ => index_ok).
Proof.
  intros Hc s [[Hs Hf] Hd]. destruct (Hc s) as [H1 H2].
  assert (Hok : index_ok (snd (c s))).
  { split; [rewrite H1; exact Hs|]. intros d' Hd'. rewrite H2 in Hd'. auto. }
  destruct (c s) as [[x|e] s']; simpl in *; [|exact Hok].
  split; [exact Hok|congruence].
Qed.

Lemma preserves_from {A} (P : state -> Prop) (c : M A) :
  preserves c -> (forall s, P s -> index_ok s) ->
  hoare P c (fun _ => index_ok) (fun _ => index_ok).
Proof. intros Hc HP s Hs. apply Hc, HP, Hs. Qed.

Lemma preserves_build_embeddings E force : preserves (build_embeddings E force).
Proof.
  unfold build_embeddings.
  apply preserves_bind; [pres_step|]. intros [m|]; [|repeat pres_step].
  apply preserves_bind; [pres_step|]. intros s0. cbv zeta.
  apply preserves_bind; [pres_step|]. intros d0.
  apply preserves_bind.
  { destruct (vec_meta d0 !! _) as [stored|];
      [destruct (bool_decide _)|]; [pres_step| |pres_step].
    repeat pres_step.
    apply preserves_update_conn. intros d [Hm _]. split; [exact Hm|].
    simpl. rewrite dom_empty_L. set_solver. }
  intros force'.
  apply preserves_bind; [apply preserves_update_conn; auto|]. intros _.
  apply hoare_bind with (Q1 := fun d s => index_ok s /\ st_conn s = d).
  { apply hoare_conn. auto. }
  intros d.
  remember (if force' then rows_of (chunks d) else List.filter _ _)
    as rows eqn:Hdef.
  assert (Hrows : forall rid, In rid (map fst rows) -> rid ∈ dom (chunks d)).
  { intros rid Hin. apply elem_of_dom, rows_of_rowids.
    subst rows. destruct force'; [exact Hin|]. apply filter_rowids in Hin.
    exact Hin. }
  clear Hdef. destruct rows as [|r rows'].
  { apply hoare_ret. tauto. }
  eapply hoare_bind; [apply hoare_of_keeps_conn, keeps_index_print|].
  intros ?.
  eapply hoare_bind; [apply hoare_of_keeps_conn, keeps_index_embed_texts|].
  intros embs.
  destruct embs as [|v embs'].
  { apply preserves_from; [repeat pres_step|tauto]. }
  apply hoare_bind with (Q1 := fun _ => index_ok).
  { eapply hoare_consequence;
      [apply (hoare_for_each
                (fun _ s => index_ok s /\ chunks (st_conn s) = chunks d))
      |intros s [H Hd]; split; [exact H|rewrite Hd; reflexivity]
      |intros ? s H; apply (proj1 H)
      |intros e s H; exact H].
    intros pre [[rid text] emb] rest Hz s [[[Hm He] Hf] Hc].
    assert (Hin : In rid (map fst (r :: rows'))).
    { apply (zip3_In _ (map embedded_text (r :: rows')) (v :: embs') rid
               text emb).
      rewrite Hz.
      apply in_or_app. right. left. reflexivity. }
    apply Hrows in Hin. rewrite <- Hc in Hin.
    unfold insert_embedding, update_conn. cbn [st_conn st_file].
    split; [|exact Hc].
    split; [|exact Hf]. split; [exact Hm|]. simpl.
    rewrite dom_insert_L. set_solver. }
  intros _. apply preserves_from; [repeat pres_step|auto].
Qed.

Lemma preserves_rebuild_index E rebuild_bm25 rebuild_vec :
  preserves (rebuild_index E rebuild_bm25 rebuild_vec).
Proof.
  unfold rebuild_index.
  repeat pres_step; apply preserves_build_embeddings.
Qed.

Lemma preserves_open_index E : preserves (open_index E).
Proof.
  unfold open_index.
  repeat pres_step;
    first [apply preserves_rebuild_index|apply preserves_sync_index].
Qed.

Lemma preserves_search E query cf n mode : preserves (search E query cf n mode).
Proof.
  unfold search.
  repeat pres_step;
    first [apply preserves_open_index|apply preserves_build_embeddings].
Qed.

(** X16. The entry points keep the index consistent: when every line
    range and every embedding belongs to a chunk row, in the connection's
    view and in the committed database, the same holds after [search] and
    after [rebuild_index], whether they return or raise. *)
Theorem entry_points_consistent (E : Env) (s : state) :
  index_ok s ->
  (forall query category_filter max_results mode,
     index_ok (snd (search E query category_filter max_results mode s)))
  /\ (forall rebuild_bm25 rebuild_vec,
        index_ok (snd (rebuild_index E rebuild_bm25 rebuild_vec s))).
Proof.
  intros Hs. split.
  - intros query cf n mode. pose proof (preserves_search E query cf n mode s Hs).
    destruct (search E query cf n mode s) as [[a|e] s']; assumption.
  - intros b v. pose proof (preserves_rebuild_index E b v s Hs).
    destruct (rebuild_index E b v s) as [[a|e] s']; assumption.
Qed.

Lemma entry_points_consistent_witness :
  (forall query category_filter max_results mode,
     index_ok (snd (search (sample_env (Loads sample_model)) query
                      category_filter max_results mode
                      (sample_state sample_db))))
  /\ (forall rebuild_bm25 rebuild_vec,
        index_ok (snd (rebuild_index (sample_env (Loads sample_model))
                         rebuild_bm25 rebuild_vec (sample_state sample_db)))).
Proof.
  apply (entry_points_consistent (sample_env (Loads sample_model))
           (sample_state sample_db)).
  split.
  - split; [reflexivity|]. simpl. rewrite dom_empty_L. apply empty_subseteq.
  - intros d [= <-]. split; [reflexivity|].
    simpl. rewrite dom_empty_L. apply empty_subseteq.
Defined.


(** ** Indexing a file twice, and the other documents *)

Lemma index_file_stores_hash E filepath :
  hoare (fun _ => True) (index_file E filepath)
    (fun _ s => exists r, files (st_conn s) !! filepath = Some r
                          /\ get_file_hash E filepath = Ok (fr_hash r))
    (fun _ _ => True).
Proof.
  unfold index_file.
  apply hoare_bind
    with (Q1 := fun h _ => get_file_hash E filepath = Ok h).
  { apply hoare_lift. intros s _.
    destruct (get_file_hash E filepath); [reflexivity|exact I]. }
  intros file_hash.
  apply hoare_bind
    with (Q1 := fun d s => get_file_hash E filepath = Ok file_hash
                           /\ d = st_conn s).
  { apply hoare_conn. auto. }
  intros d. destruct (unchanged d filepath file_hash) eqn:Hun.
  { apply hoare_ret. intros s [Hh ->]. unfold unchanged in Hun.
    destruct (files (st_conn s) !! filepath) as [r|]; [|discriminate].
    apply bool_decide_eq_true in Hun. exists r. split; [reflexivity|].
    rewrite Hun. exact Hh. }
  set (phi := get_file_hash E filepath = Ok file_hash).
  apply hoare_bind with (Q1 := fun _ _ => phi).
  { eapply hoare_consequence;
      [apply (hoare_const phi)|intros s H; apply H|auto|auto]. }
  intros _.
  do 4 (apply hoare_bind with (Q1 := fun _ _ => phi);
        [apply (hoare_const phi)|]; intros ?).
  eapply hoare_bind with (Q1 := fun _ s =>
    exists r, files (st_conn s) !! filepath = Some r
              /\ get_file_hash E filepath = Ok (fr_hash r)).
  { apply hoare_update_conn. intros s Hh. eexists. simpl.
    rewrite lookup_insert_eq. split; [reflexivity|]. exact Hh. }
  intros _. apply hoare_ret. auto.
Qed.

(** X17. Indexing is idempotent: right after [index_file] has returned
    for a file, a second call for the same file finds the fingerprint it
    stored, returns 0 and changes nothing. *)
Theorem index_file_idempotent (E : Env) (filepath : str) (s s' : state)
    (n : Z) :
  index_file E filepath s = (Ok n, s') ->
  index_file E filepath s' = (Ok 0, s').
Proof.
  intros Hrun. pose proof (index_file_stores_hash E filepath s I) as H.
  rewrite Hrun in H. destruct H as (r & Hr & Hh).
  apply (index_file_skips E filepath (fr_hash r) s' r Hh Hr eq_refl).
Qed.

Lemma index_file_idempotent_witness :
  index_file (sample_env NotInstalled) cache_path
    (snd (index_file (sample_env NotInstalled) cache_path
            (sample_state empty_db)))
  = (Ok 0, snd (index_file (sample_env NotInstalled) cache_path
                  (sample_state empty_db))).
Proof.
  apply (index_file_idempotent (sample_env NotInstalled) cache_path
           (sample_state empty_db) _ 1).
  vm_compute. reflexivity.
Defined.

#[global] Instance same_file_preorder : PreOrder same_file.
Proof.
  split.
  - intros s. reflexivity.
  - intros s1 s2 s3 H1 H2. unfold same_file in *. congruence.
Qed.

#[global] Instance same_others_preorder filepath :
  PreOrder (same_others filepath).
Proof.
  split.
  - intros s. split; reflexivity.
  - intros s1 s2 s3 [H1 H2] [H3 H4]. split; congruence.
Qed.

Lemma keeps_file_update_conn f : keeps same_file (update_conn f).
Proof. intros s. reflexivity. Qed.

Ltac file_step :=
  match goal with
  | |- keeps _ (bind _ _) => apply keeps_bind; [|intros ?]
  | |- keeps _ (ret _) => apply keeps_ret
  | |- keeps _ (lift _) => apply keeps_lift
  | |- keeps _ (raise _) => apply keeps_raise
  | |- keeps _ conn => apply keeps_conn
  | |- keeps _ (for_each _ _) => apply keeps_for_each; intros ?
  | |- keeps same_file (update_conn _) => apply keeps_file_update_conn
  | |- _ (if ?b then _ else _) => destruct b
  | |- _ (match ?x with _ => _ end) => destruct x
  end.

Lemma keeps_file_index_file E filepath : keeps same_file (index_file E filepath).
Proof. unfold index_file, insert_chunk. repeat file_step. Qed.

(** X18. [sync_index] never raises, whatever the files raise: it returns
    a count between 0 and the number of collected files, and it commits
    exactly when that count is positive; otherwise the committed database
    stays as it was. *)
Theorem sync_index_returns (E : Env) (s : state) :
  exists n s',
    sync_index E s = (Ok n, s')
    /\ 0 <= n <= count (collect_files E)
    /\ st_file s' = if 0 <? n then Some (st_conn s') else st_file s.
Proof.
  assert (H : hoare (fun s0 => st_file s0 = st_file s) (sync_index E)
                (fun n s' =>
                   0 <= n <= count (collect_files E)
                   /\ st_file s' = if 0 <? n then Some (st_conn s')
                                   else st_file s)
                (fun _ _ => False)).
  { unfold sync_index.
    apply hoare_bind
      with (Q1 := fun updated s0 =>
                    0 <= updated <= count (collect_files E)
                    /\ st_file s0 = st_file s).
    { eapply hoare_consequence;
        [apply (hoare_fold_m
                  (fun rest acc s0 =>
                     0 <= acc
                     /\ acc + count rest <= count (collect_files E)
                     /\ st_file s0 = st_file s)
                  _ (fun _ _ => False))
        |intros s0 H0; unfold count; repeat split; [lia|lia|exact H0]
        |intros n s0 (H1 & H2 & H3); unfold count in *; simpl in *;
         repeat split; [lia|lia|exact H3]
        |intros e s0 []].
      intros pre filepath rest acc _ s0 (H1 & H2 & H3).
      unfold try_except, bind, ret.
      pose proof (keeps_file_index_file E filepath s0) as Hk.
      unfold same_file in Hk. unfold count in *. cbn [length] in H2.
      destruct (index_file E filepath s0) as [[n|e] s1]; simpl in Hk.
      - destruct (0 <? n); repeat split; try lia; congruence.
      - repeat split; try lia; congruence. }
    intros updated.
    apply hoare_bind
      with (Q1 := fun _ s0 =>
                    0 <= updated <= count (collect_files E)
                    /\ st_file s0 = if 0 <? updated then Some (st_conn s0)
                                    else st_file s).
    { destruct (0 <? updated).
      - intros s0 [H1 H2]. split; [exact H1|reflexivity].
      - apply hoare_ret. auto. }
    intros _. apply hoare_ret. auto. }
  specialize (H s eq_refl).
  destruct (sync_index E s) as [[n|e] s']; [|destruct H].
  exists n, s'. split; [reflexivity|exact H].
Qed.

(** ** The rows of other documents *)

Lemma keeps_others_update_conn filepath f :
  (forall d, other_rows filepath (f d) = other_rows filepath d
             /\ delete filepath (files (f d)) = delete filepath (files d)) ->
  keeps (same_others filepath) (update_conn f).
Proof. intros Hf s. apply Hf. Qed.

Lemma keeps_others_insert_chunk filepath category c :
  keeps (same_others filepath) (insert_chunk filepath category c).
Proof.
  intros s. unfold insert_chunk, bind, conn, update_conn, raise.
  cbn [st_conn chunks_meta set_chunks].
  assert (Hrows :
    filter (fun kv : Z * chunk_row => cr_path (snd kv) <> filepath)
      (<[next_rowid (chunks (st_conn s)) :=
           mk_chunk_row filepath category (title c) (content c)]>
         (chunks (st_conn s)))
    = other_rows filepath (st_conn s)).
  { unfold other_rows. apply map_filter_insert_not'.
    - simpl. intros H. apply H. reflexivity.
    - intros y Hy. exfalso.
      apply (next_rowid_fresh (chunks (st_conn s))).
      apply elem_of_dom. eauto. }
  destruct (chunks_meta (st_conn s) !! next_rowid (chunks (st_conn s)));
    split; simpl; try reflexivity; exact Hrows.
Qed.

Lemma keeps_others_index_file E filepath :
  keeps (same_others filepath) (index_file E filepath).
Proof.
  unfold index_file.
  apply keeps_bind; [apply keeps_lift|]. intros file_hash.
  apply keeps_bind; [apply keeps_conn|]. intros d.
  destruct (unchanged d filepath file_hash); [apply keeps_ret|].
  apply keeps_bind.
  { apply keeps_others_update_conn. intros d0. split; [|reflexivity].
    unfold other_rows. simpl. apply map_filter_filter_l. auto. }
  intros _. apply keeps_bind.
  { apply keeps_for_each. intros rid.
    apply keeps_bind; [|intros _];
      apply keeps_others_update_conn; intros d0; split; reflexivity. }
  intros _. apply keeps_bind; [apply keeps_lift|]. intros text.
  apply keeps_bind.
  { destruct (endswith _ _); [apply keeps_lift|apply keeps_ret]. }
  intros new_chunks. apply keeps_bind.
  { apply keeps_for_each. intros c. apply keeps_others_insert_chunk. }
  intros _. apply keeps_bind; [|intros _; apply keeps_ret].
  apply keeps_others_update_conn. intros d0. split; [reflexivity|].
  simpl. apply delete_insert_eq.
Qed.

(** X19. Indexing a file touches the rows of no other document: whether
    [index_file] returns or raises, the chunk rows whose path is another
    file's and the rows of [files] for the other paths are what they
    were; a new chunk never takes the rowid of a row that is there. *)
Theorem index_file_other_documents (E : Env) (filepath : str) (s : state) :
  let s' := snd (index_file E filepath s) in
  (forall rid row,
     cr_path row <> filepath ->
     chunks (st_conn s') !! rid = Some row
     <-> chunks (st_conn s) !! rid = Some row)
  /\ (forall other, other <> filepath ->
        files (st_conn s') !! other = files (st_conn s) !! other).
Proof.
  intros s'. destruct (keeps_others_index_file E filepath s) as [Hrows Hfiles].
  fold s' in Hrows, Hfiles. split.
  - intros rid row Hpath.
    assert (Hl : forall d, other_rows filepath d !! rid = Some row
                           <-> chunks d !! rid = Some row).
    { intros d. unfold other_rows. rewrite map_lookup_filter_Some. simpl.
      tauto. }
    rewrite <- !Hl, Hrows. reflexivity.
  - intros other Hne.
    rewrite <- (lookup_delete_ne (files (st_conn s')) filepath other)
      by congruence.
    rewrite <- (lookup_delete_ne (files (st_conn s)) filepath other)
      by congruence.
    rewrite Hfiles. reflexivity.
Qed.

(** ** What the searchers return *)

Lemma category_matches_in cf (h : hit) :
  category_matches cf (category h) = true -> in_category cf h.
Proof.
  intros H c -> Hc. destruct c as [|c0 c']; [congruence|].
  simpl in H. apply bool_decide_eq_true in H. exact H.
Qed.

Lemma firstn_subset {A} n (l : list A) x : In x (firstn n l) -> In x l.
Proof.
  intros H. rewrite <- (firstn_skipn n l). apply in_or_app. left. exact H.
Qed.

Lemma sql_limit_In {A} n (l : list A) x : In x (sql_limit n l) -> In x l.
Proof.
  unfold sql_limit. destruct (n <? 0); [auto|]. apply firstn_subset.
Qed.

Lemma sql_limit_length {A} n (l : list A) :
  0 <= n -> count (sql_limit n l) <= n.
Proof.
  intros Hn. unfold sql_limit, count.
  destruct (n <? 0) eqn:Hlt; [apply Z.ltb_lt in Hlt; lia|].
  pose proof (firstn_le_length (Z.to_nat n) l). lia.
Qed.

Lemma slice_to_In {A} n (l : list A) x : In x (slice_to n l) -> In x l.
Proof. unfold slice_to. destruct (n <? 0); apply firstn_subset. Qed.

Lemma slice_to_length {A} n (l : list A) :
  0 <= n -> count (slice_to n l) <= n.
Proof.
  intros Hn. unfold slice_to, count.
  destruct (n <? 0) eqn:Hlt; [apply Z.ltb_lt in Hlt; lia|].
  pose proof (firstn_le_length (Z.to_nat n) l). lia.
Qed.

Lemma bm25_select_rows E d q cf n rows :
  bm25_select E d q cf n = Ok rows ->
  List.Forall
    (fun rc => chunks d !! fts_rowid (fst rc) = Some (snd rc)
               /\ category_matches cf (cr_category (snd rc)) = true)
    rows
  /\ (0 <= n -> count rows <= n).
Proof.
  unfold bm25_select. destruct (fts5_match E (chunks d) q) as [matched|];
    [|discriminate].
  intros [= <-]. split; [|apply sql_limit_length].
  apply List.Forall_forall. intros rc Hin. apply sql_limit_In in Hin.
  apply filter_In in Hin. destruct Hin as [Hin Hcat]. split; [|exact Hcat].
  apply list_elem_of_In, list_elem_of_omap in Hin.
  destruct Hin as (r & _ & Hr). unfold fts_columns in Hr.
  destruct (chunks d !! fts_rowid r) as [c|] eqn:Hc; [|discriminate].
  injection Hr as <-. exact Hc.
Qed.

(** X20. Every result [bm25_search] returns shows a chunk row of the
    index, with the path made relative to the memory directory, and is in
    the category asked for; with a limit that is not negative there are at
    most that many results. *)
Theorem bm25_search_results (E : Env) (query : str)
    (category_filter : option str) (max_results : Z) (s s' : state)
    (results : list hit) :
  bm25_search E query category_filter max_results s = (Ok results, s') ->
  List.Forall
    (fun h => hit_of_row E (st_conn s) h /\ in_category category_filter h)
    results
  /\ (0 <= max_results -> count results <= max_results).
Proof.
  rewrite bm25_search_run.
  destruct (bm25_select E (st_conn s) (sanitize_fts_query query)
              category_filter max_results) as [rows|e] eqn:Hsel.
  - intros [= <- _]. destruct (bm25_select_rows _ _ _ _ _ _ Hsel) as [Hall Hn].
    split.
    + apply List.Forall_forall. intros h Hin. apply in_map_iff in Hin.
      destruct Hin as ([r c] & <- & Hin).
      rewrite List.Forall_forall in Hall. destruct (Hall _ Hin) as [Hc Hcat].
      simpl in *. split.
      * exists c. simpl. repeat split; auto.
      * apply category_matches_in. exact Hcat.
    + intros H. unfold count in *. rewrite length_map. apply Hn, H.
  - destruct (exn_kind_of e); try discriminate.
    intros [= <- _]. split; [constructor|]. unfold count. simpl. lia.
Qed.

Lemma bm25_search_results_witness :
  List.Forall
    (fun h => hit_of_row (sample_env NotInstalled) sample_db h
              /\ in_category (Some (lit "pattern")) h)
    (match fst (bm25_search (sample_env NotInstalled) (lit "cache")
                  (Some (lit "pattern")) 5 (sample_state sample_db)) with
     | Ok results => results
     | Raise _ => []
     end)
  /\ (0 <= 5 ->
      count (match fst (bm25_search (sample_env NotInstalled) (lit "cache")
                          (Some (lit "pattern")) 5 (sample_state sample_db))
             with
             | Ok results => results
             | Raise _ => []
             end) <= 5).
Proof.
  apply (bm25_search_results (sample_env NotInstalled) (lit "cache")
           (Some (lit "pattern")) 5 (sample_state sample_db)
           (sample_state sample_db)).
  vm_compute. reflexivity.
Defined.

Lemma rows_of_In {V} (m : gmap Z V) rid v :
  In (rid, v) (rows_of m) <-> m !! rid = Some v.
Proof.
  unfold rows_of. rewrite <- list_elem_of_In.
  rewrite (merge_sort_Permutation rowid_le (map_to_list m)).
  apply elem_of_map_to_list.
Qed.

Lemma hoare_of_keeps_index {A} (P : state -> Prop) (c : M A) :
  keeps same_index c ->
  (forall s s', same_index s s' -> P s -> P s') ->
  hoare P c (fun _ => P) (fun _ => P).
Proof.
  intros Hc HP s Hs. specialize (Hc s). specialize (HP s _ Hc Hs).
  destruct (c s) as [[a|e] s']; exact HP.
Qed.

(** X21. Every result [vector_search] returns shows a chunk row of the
    index that has a stored embedding, and is in the category asked for;
    with a limit that is not negative there are at most that many
    results. *)
Theorem vector_search_results (E : Env) (query : str)
    (category_filter : option str) (max_results : Z) (s s' : state)
    (results : list hit) :
  vector_search E query category_filter max_results s = (Ok results, s') ->
  List.Forall
    (fun h => hit_of_row E (st_conn s) h
              /\ is_Some (embeddings (st_conn s) !! rowid h)
              /\ in_category category_filter h)
    results
  /\ (0 <= max_results -> count results <= max_results).
Proof.
  intros Hrun.
  assert (H : hoare (fun s0 => st_conn s0 = st_conn s)
                (vector_search E query category_filter max_results)
                (fun results _ =>
                   List.Forall
                     (fun h => hit_of_row E (st_conn s) h
                               /\ is_Some (embeddings (st_conn s) !! rowid h)
                               /\ in_category category_filter h)
                     results
                   /\ (0 <= max_results -> count results <= max_results))
                (fun _ _ => True)).
  { unfold vector_search.
    apply hoare_bind with (Q1 := fun _ s0 => st_conn s0 = st_conn s).
    { eapply hoare_consequence;
        [apply (hoare_of_keeps_index (fun s0 => st_conn s0 = st_conn s));
         [apply keeps_index_embed_query
         |intros s1 s2 [H1 _] H2; congruence]
        |auto|auto|auto]. }
    intros [qv|]; [|apply hoare_ret; intros; split;
                     [constructor|unfold count; simpl; lia]].
    apply hoare_bind with (Q1 := fun d _ => d = st_conn s).
    { apply hoare_conn. auto. }
    intros d.
    destruct (List.filter _ _) as [|r0 rows'] eqn:Hrows.
    { apply hoare_ret. intros s0 _. split;
        [constructor|unfold count; simpl; lia]. }
    apply hoare_ret. intros s0 ->. rewrite <- Hrows. clear Hrows.
    split; [|apply slice_to_length].
    apply List.Forall_forall. intros h Hin. apply slice_to_In in Hin.
    apply (proj1 (sorted_desc_In _ _ _)) in Hin.
    apply in_map_iff in Hin. destruct Hin as ([[rid e] c] & <- & Hin).
    apply filter_In in Hin. destruct Hin as [Hin Hcat]. simpl in Hcat.
    apply list_elem_of_In, list_elem_of_omap in Hin.
    destruct Hin as ([rid' e'] & Hin' & Hr). unfold embedding_columns in Hr.
    simpl in Hr.
    destruct (chunks (st_conn s) !! rid') as [c'|] eqn:Hc; [|discriminate].
    injection Hr as -> -> ->.
    apply list_elem_of_In, rows_of_In in Hin'. simpl.
    split; [exists c; simpl; repeat split; auto|].
    split; [eauto|]. apply category_matches_in. exact Hcat. }
  specialize (H s eq_refl). rewrite Hrun in H. exact H.
Qed.

Lemma vector_search_results_witness :
  List.Forall
    (fun h => hit_of_row (sample_env (Loads sample_model)) switched_db h
              /\ is_Some (embeddings switched_db !! rowid h)
              /\ in_category (Some (lit "pattern")) h)
    (match fst (vector_search (sample_env (Loads sample_model)) (lit "cache")
                  (Some (lit "pattern")) 5 (sample_state switched_db)) with
     | Ok results => results
     | Raise _ => []
     end)
  /\ (0 <= 5 ->
      count (match fst (vector_search (sample_env (Loads sample_model))
                          (lit "cache") (Some (lit "pattern")) 5
                          (sample_state switched_db)) with
             | Ok results => results
             | Raise _ => []
             end) <= 5).
Proof.
  apply (vector_search_results (sample_env (Loads sample_model)) (lit "cache")
           (Some (lit "pattern")) 5 (sample_state switched_db)
           (snd (vector_search (sample_env (Loads sample_model)) (lit "cache")
                   (Some (lit "pattern")) 5 (sample_state switched_db)))).
  vm_compute. reflexivity.
Defined.

(** ** The number of results of a search *)

Lemma returns_only_bind {A B} (Q : B -> Prop) (c : M A) (k : A -> M B) :
  (forall a, returns_only Q (k a)) -> returns_only Q (bind c k).
Proof.
  intros Hk s b s'. unfold bind. destruct (c s) as [[a|e] s1]; [|discriminate].
  apply Hk.
Qed.

Lemma returns_only_ret {A} (Q : A -> Prop) (a : A) :
  Q a -> returns_only Q (ret a).
Proof. intros H s a' s' [= <- _]. exact H. Qed.

Lemma returns_only_lift_bind {A B} (Q : B -> Prop) (r : res A)
    (k : A -> M B) :
  (forall a, r = Ok a -> returns_only Q (k a)) ->
  returns_only Q (bind (lift r) k).
Proof.
  intros Hk s b s'. unfold bind, lift. destruct r as [a|e]; [|discriminate].
  apply (Hk a eq_refl).
Qed.

Lemma rrf_fuse_within_limit bm25_results vector_results k max_results out :
  1 <= max_results ->
  rrf_fuse bm25_results vector_results k max_results = Ok out ->
  count out <= max_results.
Proof.
  intros Hn. unfold rrf_fuse.
  destruct (fuse_loop _ _ _ bm25_results); [|discriminate].
  destruct (fuse_loop _ _ _ vector_results); [|discriminate].
  intros [= <-]. apply dedup_loop_within_limit, Hn.
Qed.

Lemma tag_length src results : length (tag src results) = length results.
Proof. unfold tag. apply length_map. Qed.

(** X22. With a limit of at least 1, [search] returns at most that many
    results, in every mode. *)
Theorem search_at_most_limit (E : Env) (query : str)
    (category_filter : option str) (max_results : Z) (mode : str)
    (s s' : state) (results : list search_result) :
  1 <= max_results ->
  search E query category_filter max_results mode s = (Ok results, s') ->
  count results <= max_results.
Proof.
  intros Hn.
  assert (H : returns_only (fun rs => count rs <= max_results)
                (search E query category_filter max_results mode)).
  { unfold search.
    apply returns_only_bind. intros _.
    apply returns_only_bind. intros _.
    destruct (bool_decide (mode = lit "bm25")).
    { apply returns_only_bind. intros rs. apply returns_only_ret.
      apply slice_to_length. lia. }
    destruct (bool_decide (mode = lit "vector")).
    { apply returns_only_bind. intros rs. apply returns_only_ret.
      apply slice_to_length. lia. }
    apply returns_only_bind. intros bm25_results.
    apply returns_only_bind. intros [|v vector_results].
    { apply returns_only_ret. apply slice_to_length. lia. }
    apply returns_only_lift_bind. intros fused Hfused.
    apply returns_only_ret. unfold count. rewrite length_map.
    apply (rrf_fuse_within_limit _ _ _ _ _ Hn Hfused). }
  exact (H s results s').
Qed.

Lemma search_at_most_limit_witness :
  count (match fst (search (sample_env (Loads sample_model)) (lit "cache")
                      None 1 (lit "hybrid") (sample_state switched_db)) with
         | Ok results => results
         | Raise _ => []
         end) <= 1.
Proof.
  apply (search_at_most_limit (sample_env (Loads sample_model)) (lit "cache")
           None 1 (lit "hybrid") (sample_state switched_db)
           (snd (search (sample_env (Loads sample_model)) (lit "cache")
                   None 1 (lit "hybrid") (sample_state switched_db)))).
  - lia.
  - vm_compute. reflexivity.
Defined.

(** ** The provider *)

(** X23. The model is loaded once: after a call of [_get_embedding_model]
    has returned a model, every further call returns the same model and
    changes nothing, printing nothing. A failed load is not remembered:
    the call returns no model, reports the failure on stderr, and leaves
    no model behind, so the next call tries again. *)
Theorem get_embedding_model_once (E : Env) (s : state) :
  (forall m s',
     _get_embedding_model E s = (Ok (Some m), s') ->
     _get_embedding_model E s' = (Ok (Some m), s'))
  /\ (forall err,
        st_model s = None -> fastembed E = LoadFails err ->
        exists s',
          _get_embedding_model E s = (Ok None, s')
          /\ st_model s' = None
          /\ st_out s' = st_out s ++ load_failure E err).
Proof.
  split.
  - intros m s' Hrun. apply get_model_cached.
    apply (get_model_inv E s m s' Hrun).
  - intros err Hm Hf.
    unfold _get_embedding_model, bind, get_state, set_model_name, print, ret.
    rewrite Hm, Hf. eexists. split; [reflexivity|]. simpl.
    split; [exact Hm|]. rewrite <- app_assoc. reflexivity.
Qed.

Lemma get_embedding_model_once_witness :
  _get_embedding_model (sample_env (Loads sample_model))
    (snd (_get_embedding_model (sample_env (Loads sample_model))
            (sample_state sample_db)))
  = (Ok (Some sample_model),
     snd (_get_embedding_model (sample_env (Loads sample_model))
            (sample_state sample_db))).
Proof.
  apply (proj1 (get_embedding_model_once (sample_env (Loads sample_model))
                  (sample_state sample_db)) sample_model).
  reflexivity.
Defined.

Lemma fmul_comm x y : fmul x y = fmul y x.
Proof.
  unfold fmul, SFmul.
  destruct x as [sx|sx| |sx mx ex]; destruct y as [sy|sy| |sy my ey];
    try reflexivity; rewrite (xorb_comm sx sy); try reflexivity.
  rewrite (Pos.mul_comm mx my), (Z.add_comm ex ey). reflexivity.
Qed.

Lemma products_comm (a : vec) : forall b : vec,
  map (fun xy => fmul (fst xy) (snd xy)) (combine a b)
  = map (fun xy => fmul (fst xy) (snd xy)) (combine b a).
Proof.
  induction a as [|x a IH]; intros [|y b]; simpl; try reflexivity.
  rewrite (fmul_comm x y), IH. reflexivity.
Qed.

Lemma combine_app_longer {A B} (a : list A) : forall (b extra : list B),
  (length a <= length b)%nat -> combine a (b ++ extra) = combine a b.
Proof.
  induction a as [|x a IH]; intros [|y b] extra Hlen; simpl in *;
    try reflexivity; try lia.
  rewrite IH by lia. reflexivity.
Qed.

(** X24. The similarity of two vectors does not depend on their order, and
    components that have no partner in the other vector are ignored: a
    stored vector longer than the query vector is compared on the query's
    dimensions only, without an error. *)
Theorem cosine_similarity_pairs (E : Env) (a b : vec) :
  _cosine_similarity E a b = _cosine_similarity E b a
  /\ forall extra,
       (length a <= length b)%nat ->
       _cosine_similarity E a (b ++ extra) = _cosine_similarity E a b.
Proof.
  unfold _cosine_similarity. split.
  - rewrite products_comm. reflexivity.
  - intros extra Hlen. rewrite combine_app_longer by exact Hlen. reflexivity.
Qed.

Lemma cosine_similarity_pairs_witness :
  _cosine_similarity (sample_env NotInstalled) [float_one]
    ([float_one] ++ [float_one; float_one])
  = _cosine_similarity (sample_env NotInstalled) [float_one] [float_one].
Proof.
  apply (proj2 (cosine_similarity_pairs (sample_env NotInstalled) [float_one]
                  [float_one])).
  simpl. lia.
Defined.

(** ** Building the embeddings *)

(** X25. Without a provider [build_embeddings] returns 0 and writes
    nothing: the connection's view and the committed database stay as
    they were, whether a rebuild is forced or not. *)
Theorem build_embeddings_unavailable (E : Env) (force : bool) (s : state) :
  resolved_model E s = None ->
  exists s', build_embeddings E force s = (Ok 0, s') /\ same_index s s'.
Proof.
  intros Hnone. destruct (get_model_resolved E s) as (s1 & Hrun & _).
  pose proof (keeps_index_get_model E s) as Hk. rewrite Hrun in Hk.
  simpl in Hk. rewrite Hnone in Hrun.
  unfold build_embeddings. rewrite bind_run, Hrun.
  unfold bind, print, ret. eexists. split; [reflexivity|].
  destruct Hk as [H1 H2]. split; simpl; assumption.
Qed.

Lemma build_embeddings_unavailable_witness :
  exists s',
    build_embeddings (sample_env NotInstalled) true (sample_state sample_db)
    = (Ok 0, s')
    /\ same_index (sample_state sample_db) s'.
Proof.
  apply (build_embeddings_unavailable (sample_env NotInstalled) true
           (sample_state sample_db)).
  reflexivity.
Defined.

(** X26. While the model stays the same, a build that is not forced keeps
    every stored embedding as it is: it only adds rows for chunks that have
    none, and whether it returns or raises no existing row is rewritten or
    removed. *)
Theorem build_embeddings_keeps_rows (E : Env) (s : state) (rid : Z)
    (row : emb_row) :
  (forall stored,
     vec_meta (st_conn s) !! lit "model_name" = Some stored ->
     stored = active_model E s) ->
  embeddings (st_conn s) !! rid = Some row ->
  embeddings (st_conn (snd (build_embeddings E false s))) !! rid = Some row.
Proof.
  intros Hmodel Hrow.
  set (J := fun s0 : state => embeddings (st_conn s0) !! rid = Some row).
  assert (HJ : forall s1 s2, same_index s1 s2 -> J s1 -> J s2).
  { intros s1 s2 [H1 _] H. unfold J in *. rewrite H1. exact H. }
  assert (H : hoare
                (fun s0 => J s0
                   /\ forall stored,
                        vec_meta (st_conn s0) !! lit "model_name"
                        = Some stored ->
                        stored = active_model E s0)
                (build_embeddings E false) (fun _ => J) (fun _ => J)).
  { unfold build_embeddings.
    apply hoare_bind
      with (Q1 := fun _ s1 =>
                    J s1
                    /\ forall stored,
                         vec_meta (st_conn s1) !! lit "model_name"
                         = Some stored ->
                         stored = current_model_of s1).
    { intros s0 [H0 Hm0]. unfold active_model in Hm0.
      pose proof (keeps_index_get_model E s0) as Hk.
      destruct (_get_embedding_model E s0) as [[m|e] s1]; simpl in *.
      - split; [apply (HJ s0 s1 Hk H0)|]. destruct Hk as [-> _]. exact Hm0.
      - apply (HJ s0 s1 Hk H0). }
    intros [m|].
    2:{ eapply hoare_consequence;
          [apply (hoare_of_keeps_index J); [|exact HJ]|intros s0 H0; apply H0
          |auto|auto].
        apply keeps_bind; [apply keeps_index_print|]. intros _.
        apply keeps_ret. }
    apply hoare_bind
      with (Q1 := fun st s1 =>
                    J s1
                    /\ forall stored,
                         vec_meta (st_conn s1) !! lit "model_name"
                         = Some stored ->
                         stored = current_model_of st).
    { apply hoare_get_state. auto. }
    intros st. cbv zeta.
    apply hoare_bind
      with (Q1 := fun d s1 =>
                    J s1
                    /\ forall stored,
                         vec_meta d !! lit "model_name" = Some stored ->
                         stored = current_model_of st).
    { apply hoare_conn. auto. }
    intros d.
    apply hoare_bind with (Q1 := fun force' s1 => J s1 /\ force' = false).
    { destruct (vec_meta d !! lit "model_name") as [stored|] eqn:Hs.
      - intros s1 [H1 Hm1]. rewrite (Hm1 stored eq_refl).
        rewrite bool_decide_eq_true_2 by reflexivity. split; [exact H1|].
        reflexivity.
      - apply hoare_ret. intros s1 [H1 _]. auto. }
    intros force'.
    destruct force'; [intros s1 [_ Hf]; discriminate|]. cbv iota.
    apply hoare_bind with (Q1 := fun _ => J).
    { apply hoare_update_conn. intros s1 H1. apply H1. }
    intros _.
    apply hoare_bind with (Q1 := fun d2 s1 => J s1 /\ d2 = st_conn s1).
    { apply hoare_conn. auto. }
    intros d2.
    remember (List.filter _ (rows_of (chunks d2))) as rows eqn:Hdef.
    destruct rows as [|r rows'].
    { apply hoare_ret. intros s1 H1. apply H1. }
    set (P := fun s1 : state => J s1 /\ d2 = st_conn s1).
    assert (HP : forall s1 s2, same_index s1 s2 -> P s1 -> P s2).
    { intros s1 s2 Hsame (H1 & H3). split; [apply (HJ s1 s2 Hsame H1)|].
      destruct Hsame as [-> _]. exact H3. }
    apply hoare_bind with (Q1 := fun _ => P).
    { eapply hoare_consequence;
        [apply (hoare_of_keeps_index P _ (keeps_index_print _ _) HP)
        |auto|auto|intros e s1 H1; apply H1]. }
    intros _.
    apply hoare_bind with (Q1 := fun _ => P).
    { eapply hoare_consequence;
        [apply (hoare_of_keeps_index P _ (keeps_index_embed_texts E _) HP)
        |auto|auto|intros e s1 H1; apply H1]. }
    intros [|v embs'].
    { eapply hoare_consequence;
        [apply (hoare_of_keeps_index J); [|exact HJ]|intros s0 H0; apply H0
        |auto|auto].
      apply keeps_bind; [apply keeps_index_print|]. intros _.
      apply keeps_ret. }
    apply hoare_bind with (Q1 := fun _ => J).
    { eapply hoare_consequence;
        [apply (hoare_for_each
                  (fun _ s1 => J s1 /\ embeddings d2 !! rid = Some row)
                  _ (fun _ => J))
        |intros s1 (H1 & H3); split; [exact H1|rewrite H3; exact H1]
        |intros ? s1 H1; apply H1
        |auto].
      intros pre [[rid' text] emb] rest Hz s1 [H1 H2].
      assert (Hin : In rid' (map fst (r :: rows'))).
      { apply (zip3_In _ (map embedded_text (r :: rows')) (v :: embs') rid'
                 text emb).
        rewrite Hz. apply in_or_app. right. left. reflexivity. }
      assert (Hne : rid' <> rid).
      { intros ->. rewrite Hdef in Hin. apply in_map_iff in Hin.
        destruct Hin as ([k c] & Hk & Hin). simpl in Hk. subst k.
        apply filter_In in Hin. destruct Hin as [_ Hnone].
        apply bool_decide_eq_true in Hnone. simpl in Hnone. congruence. }
      unfold insert_embedding, update_conn, J. cbn [st_conn]. simpl.
      rewrite lookup_insert_ne by exact Hne. split; [exact H1|exact H2]. }
    intros _ s1 H1. exact H1. }
  specialize (H s (conj Hrow Hmodel)).
  destruct (build_embeddings E false s) as [[n|e] s']; exact H.
Qed.

Lemma build_embeddings_keeps_rows_witness :
  embeddings
    (st_conn (snd (build_embeddings (sample_env (Loads sample_model)) false
                     (with_conn
                        (set_embeddings
                           {[ 7 := mk_emb_row [] (lit "BAAI/bge-small-zh-v1.5")
                                     (lit "fedcba9876543210") ]}
                           sample_db)
                        (sample_state sample_db)))))
  !! 7
  = Some (mk_emb_row [] (lit "BAAI/bge-small-zh-v1.5")
            (lit "fedcba9876543210")).
Proof.
  apply (build_embeddings_keeps_rows (sample_env (Loads sample_model))).
  - intros stored H. vm_compute in H. discriminate.
  - vm_compute. reflexivity.
Defined.

(** ** Synchronising twice *)

Lemma index_file_settles E filepath (done : list str) :
  hoare (synced E done) (index_file E filepath)
    (fun _ => synced E (filepath :: done))
    (fun _ => synced E (filepath :: done)).
Proof.
  intros s [Hok Hdone].
  pose proof (index_file_hoare E filepath s Hok) as H1.
  pose proof (index_file_stores_hash E filepath s I) as H2.
  destruct (keeps_others_index_file E filepath s) as [_ H3].
  assert (Hother : forall s', 
            delete filepath (files (st_conn s'))
            = delete filepath (files (st_conn s)) ->
            forall p, p <> filepath -> settled E p s -> settled E p s').
  { intros s' Hd p Hne [Hf|(r & Hr & Hh)]; [left; exact Hf|].
    right. exists r. split; [|exact Hh].
    rewrite <- (lookup_delete_ne (files (st_conn s')) filepath p)
      by congruence.
    rewrite Hd. rewrite lookup_delete_ne by congruence. exact Hr. }
  destruct (index_file E filepath s) as [[n|e] s']; simpl in H3.
  - split; [exact H1|]. intros p Hp.
    destruct (decide (p = filepath)) as [->|Hne].
    + right. exact H2.
    + destruct Hp as [Hp|Hp]; [congruence|].
      apply (Hother s' H3 p Hne), Hdone, Hp.
  - destruct H1 as [H1 Hraised]. split; [exact H1|]. intros p Hp.
    destruct (decide (p = filepath)) as [->|Hne].
    + left. exists e. exact Hraised.
    + destruct Hp as [Hp|Hp]; [congruence|].
      apply (Hother s' H3 p Hne), Hdone, Hp.
Qed.

Lemma index_file_counts_nothing E filepath s :
  settled E filepath s ->
  match index_file E filepath s with
  | (Ok n, _) => n = 0
  | (Raise _, _) => True
  end.
Proof.
  intros [[e Hfails]|(r & Hr & Hh)].
  2:{ rewrite (index_file_skips E filepath (fr_hash r) s r Hh Hr eq_refl).
      reflexivity. }
  unfold index_file, bind, lift, conn.
  destruct (get_file_hash E filepath) as [h|e0] eqn:Hh; [|exact I].
  destruct (unchanged (st_conn s) filepath h); [reflexivity|].
  destruct (update_conn _ s) as [[[]|e1] s1]; [|exact I].
  destruct (for_each _ _ s1) as [[[]|e2] s2]; [|exact I].
  destruct (read_text E filepath) as [text|e3] eqn:Hread; [|exact I].
  destruct Hfails as [Hf|[Hf|(text' & Ht & Hjson & Hf)]]; try congruence.
  rewrite Hjson. unfold lift.
  assert (text' = text) by congruence. subst text'. rewrite Hf. exact I.
Qed.

Lemma synced_weaken E done done' s :
  (forall p, In p done' -> In p done) -> synced E done s -> synced E done' s.
Proof. intros Hsub [Hok Hd]. split; [exact Hok|]. auto. Qed.

Lemma synced_commit E done s :
  synced E done s -> synced E done (snd (commit s)).
Proof.
  intros [Hok Hd]. split.
  - pose proof (preserves_commit s Hok) as H. exact H.
  - intros p Hp. exact (Hd p Hp).
Qed.

Lemma sync_index_settles E :
  hoare index_ok (sync_index E) (fun _ => synced E (collect_files E))
    (fun _ _ => False).
Proof.
  unfold sync_index.
  apply hoare_bind with (Q1 := fun _ => synced E (collect_files E)).
  { eapply hoare_consequence;
      [apply (hoare_fold_m
                (fun rest (_ : Z) s =>
                   forall done, collect_files E = done ++ rest ->
                                synced E done s)
                _ (fun _ _ => False))
      |intros s Hs done Hd; split; [exact Hs|];
       intros p Hp; apply (f_equal (@length str)) in Hd;
       rewrite length_app in Hd;
       assert (length done = 0%nat) by lia;
       destruct done; [destruct Hp|discriminate]
      |intros n s Hs; apply (Hs (collect_files E)); rewrite app_nil_r;
       reflexivity
      |intros e s []].
    intros pre filepath rest acc Hl s Hs.
    specialize (Hs pre Hl).
    pose proof (index_file_settles E filepath pre s Hs) as Hrun.
    unfold try_except, bind, ret.
    assert (Hnext : forall s', synced E (filepath :: pre) s' ->
              forall done, collect_files E = done ++ rest -> synced E done s').
    { intros s' Hs' done Hd. rewrite Hl in Hd.
      assert (done = pre ++ [filepath]).
      { apply (app_inv_tail rest). rewrite <- app_assoc. simpl.
        symmetry. exact Hd. }
      subst done. apply (synced_weaken E (filepath :: pre)); [|exact Hs'].
      intros p Hp. apply in_app_or in Hp. simpl in *. tauto. }
    destruct (index_file E filepath s) as [[n|e] s']; apply Hnext, Hrun. }
  intros updated.
  apply hoare_bind with (Q1 := fun _ => synced E (collect_files E)).
  { destruct (0 <? updated).
    - intros s Hs. apply (synced_commit E _ s Hs).
    - apply hoare_ret. auto. }
  intros _. apply hoare_ret. auto.
Qed.

Lemma sync_index_nothing_left E s :
  synced E (collect_files E) s ->
  exists s', sync_index E s = (Ok 0, s') /\ st_file s' = st_file s.
Proof.
  intros Hs.
  assert (H : hoare (fun s0 => synced E (collect_files E) s0
                               /\ st_file s0 = st_file s)
                (sync_index E)
                (fun n s' => n = 0 /\ st_file s' = st_file s)
                (fun _ _ => False)).
  { unfold sync_index.
    apply hoare_bind
      with (Q1 := fun updated s0 => updated = 0 /\ st_file s0 = st_file s).
    { eapply hoare_consequence;
        [apply (hoare_fold_m
                  (fun _ acc s0 =>
                     acc = 0 /\ synced E (collect_files E) s0
                     /\ st_file s0 = st_file s)
                  _ (fun _ _ => False))
        |intros s0 [H1 H2]; auto
        |intros n s0 (H1 & _ & H3); auto
        |intros e s0 []].
      intros pre filepath rest acc Hl s0 (-> & Hsync & Hfile).
      assert (Hin : In filepath (collect_files E)).
      { rewrite Hl. apply in_or_app. right. left. reflexivity. }
      pose proof (index_file_counts_nothing E filepath s0
                    (proj2 Hsync filepath Hin)) as Hcount.
      pose proof (index_file_settles E filepath (collect_files E) s0 Hsync)
        as Hrun.
      pose proof (keeps_file_index_file E filepath s0) as Hk.
      unfold same_file in Hk.
      unfold try_except, bind, ret.
      assert (Hnext : forall s',
                synced E (filepath :: collect_files E) s' ->
                synced E (collect_files E) s').
      { intros s'. apply synced_weaken. intros p Hp. right. exact Hp. }
      destruct (index_file E filepath s0) as [[n|e] s']; simpl in Hk.
      - subst n. simpl.
        split; [reflexivity|split; [apply Hnext, Hrun|congruence]].
      - split; [reflexivity|split; [apply Hnext, Hrun|congruence]]. }
    intros updated.
    apply hoare_bind
      with (Q1 := fun _ s0 => updated = 0 /\ st_file s0 = st_file s).
    { intros s0 [-> H0]. simpl. auto. }
    intros _. apply hoare_ret. auto. }
  specialize (H s (conj Hs eq_refl)).
  destruct (sync_index E s) as [[n|e] s']; [|destruct H].
  destruct H as [-> H]. exists s'. auto.
Qed.

(** X27. Synchronising converges: on a consistent index, right after
    [sync_index] has run, a second run finds nothing to do, returns 0 and
    commits nothing, also when some files could not be read or indexed. *)
Theorem sync_index_converges (E : Env) (s : state) :
  index_ok s ->
  exists s2,
    sync_index E (snd (sync_index E s)) = (Ok 0, s2)
    /\ st_file s2 = st_file (snd (sync_index E s)).
Proof.
  intros Hs. apply sync_index_nothing_left.
  pose proof (sync_index_settles E s Hs) as H.
  destruct (sync_index E s) as [[n|e] s1]; [exact H|destruct H].
Qed.

Lemma sync_index_converges_witness :
  exists s2,
    sync_index (sample_env NotInstalled)
      (snd (sync_index (sample_env NotInstalled) (sample_state empty_db)))
    = (Ok 0, s2)
    /\ st_file s2
       = st_file (snd (sync_index (sample_env NotInstalled)
                         (sample_state empty_db))).
Proof.
  apply (sync_index_converges (sample_env NotInstalled)
           (sample_state empty_db)).
  split.
  - exact consistent_empty.
  - intros d [= <-]. exact consistent_empty.
Defined.

(** ** Rebuilding from scratch *)

#[global] Instance same_rows_preorder : PreOrder same_rows.
Proof.
  split.
  - intros s. split; reflexivity.
  - intros s1 s2 s3 [H1 H2] [H3 H4]. split; congruence.
Qed.

Lemma keeps_rows_update_conn f :
  (forall d, chunks (f d) = chunks d /\ files (f d) = files d) ->
  keeps same_rows (update_conn f).
Proof. intros Hf s. apply Hf. Qed.

Lemma keeps_rows_of_index {A} (c : M A) :
  keeps same_index c -> keeps same_rows c.
Proof. intros Hc s. destruct (Hc s) as [H _]. split; rewrite H; reflexivity. Qed.

Lemma keeps_rows_commit : keeps same_rows commit.
Proof. intros s. split; reflexivity. Qed.

Lemma keeps_rows_build_embeddings E force :
  keeps same_rows (build_embeddings E force).
Proof.
  unfold build_embeddings, insert_embedding.
  repeat first
    [ apply keeps_bind; [|intros ?]
    | apply keeps_ret
    | apply keeps_get_state
    | apply keeps_conn
    | apply keeps_for_each; intros [[? ?] ?]
    | apply keeps_rows_commit
    | apply keeps_rows_of_index, keeps_index_print
    | apply keeps_rows_of_index, keeps_index_get_model
    | apply keeps_rows_of_index, keeps_index_embed_texts
    | apply keeps_rows_update_conn; intros ?; split; reflexivity
    | match goal with
      | |- _ (if ?b then _ else _) => destruct b
      | |- _ (match ?x with _ => _ end) => destruct x
      end ].
Qed.

Lemma index_file_only_collected E filepath :
  In filepath (collect_files E) ->
  hoare (fun s => only_collected E (st_conn s)) (index_file E filepath)
    (fun _ s => only_collected E (st_conn s))
    (fun _ s => only_collected E (st_conn s)).
Proof.
  intros Hin. set (C := fun s : state => only_collected E (st_conn s)).
  assert (Hupd : forall f,
            (forall d, only_collected E d -> only_collected E (f d)) ->
            hoare C (update_conn f) (fun _ => C) (fun _ => C)).
  { intros f Hf. apply hoare_update_conn. intros s Hs. apply Hf, Hs. }
  unfold index_file.
  apply hoare_bind with (Q1 := fun _ => C).
  { apply hoare_lift. intros s Hs. destruct (get_file_hash E filepath); exact Hs. }
  intros file_hash.
  apply hoare_bind with (Q1 := fun _ => C); [apply hoare_conn; auto|].
  intros d. destruct (unchanged d filepath file_hash);
    [apply hoare_ret; auto|].
  apply hoare_bind with (Q1 := fun _ => C).
  { apply Hupd. intros d0 [Hc Hf]. split; [|exact Hf]. simpl.
    intros rid row Hrow. apply map_lookup_filter_Some in Hrow.
    apply (Hc rid row), Hrow. }
  intros _.
  apply hoare_bind with (Q1 := fun _ => C).
  { apply (hoare_for_each (fun _ => C)). intros _ rid _ _.
    apply hoare_bind with (Q1 := fun _ => C); [|intros _];
      apply Hupd; intros d0 H0; exact H0. }
  intros _.
  apply hoare_bind with (Q1 := fun _ => C).
  { apply hoare_lift. intros s Hs. destruct (read_text E filepath); exact Hs. }
  intros text.
  apply hoare_bind with (Q1 := fun _ => C).
  { destruct (endswith _ _); [|apply hoare_ret; auto].
    apply hoare_lift. intros s Hs. destruct (chunk_json E text filepath);
      exact Hs. }
  intros new_chunks.
  apply hoare_bind with (Q1 := fun _ => C).
  { apply (hoare_for_each (fun _ => C)). intros _ c _ _ s [Hc Hf].
    unfold insert_chunk, bind, conn, update_conn, raise.
    cbn [st_conn chunks_meta set_chunks].
    assert (Hnew : only_collected E
              (set_chunks
                 (<[next_rowid (chunks (st_conn s)) :=
                      mk_chunk_row filepath (categorize_file E filepath)
                        (title c) (content c)]> (chunks (st_conn s)))
                 (st_conn s))).
    { split; [|exact Hf]. simpl. intros rid row Hrow.
      apply lookup_insert_Some in Hrow.
      destruct Hrow as [[_ <-]|[_ Hrow]]; [exact Hin|apply (Hc rid row Hrow)]. }
    destruct (chunks_meta (st_conn s) !! next_rowid (chunks (st_conn s)));
      exact Hnew. }
  intros _.
  apply hoare_bind with (Q1 := fun _ => C); [|intros _; apply hoare_ret; auto].
  apply Hupd. intros d0 [Hc Hf]. split; [exact Hc|]. simpl.
  intros p r Hp. apply lookup_insert_Some in Hp.
  destruct Hp as [[<- _]|[_ Hp]]; [exact Hin|apply (Hf p r Hp)].
Qed.

(** X28. A rebuild from scratch returns whatever reading or indexing the
    individual files raises, with or without a provider, and the index it
    leaves holds rows of collected files only: what the old database held
    for files that are gone is not carried over. *)
Theorem rebuild_index_from_scratch (E : Env) (rebuild_vec : bool)
    (s : state) :
  exists s',
    rebuild_index E true rebuild_vec s = (Ok tt, s')
    /\ only_collected E (st_conn s').
Proof.
  set (C := fun s : state => only_collected E (st_conn s)).
  assert (Hprint : forall f text,
            hoare C (print f text) (fun _ => C) (fun _ _ => False)).
  { intros f text s0 H0. exact H0. }
  assert (H : hoare (fun _ => True) (rebuild_index E true rebuild_vec)
                (fun _ => C) (fun _ _ => False)).
  { unfold rebuild_index.
    apply hoare_bind with (Q1 := fun _ => C).
    { apply hoare_bind with (Q1 := fun _ s0 => st_file s0 = None).
      { intros s0 _. reflexivity. }
      intros _.
      apply hoare_bind with (Q1 := fun _ => C).
      { intros s0 H0. unfold C. simpl. rewrite H0.
        split; intros ? ? Hl; simpl in Hl; rewrite lookup_empty in Hl;
          discriminate. }
      intros _.
      apply hoare_bind with (Q1 := fun _ => C); [intros s0 H0; exact H0|].
      intros _.
      apply hoare_bind with (Q1 := fun _ => C).
      { eapply hoare_consequence;
          [apply (hoare_fold_m (fun _ (_ : Z) => C) _ (fun _ _ => False))
          |auto|auto|auto].
        intros pre filepath rest acc Hl.
        assert (Hin : In filepath (collect_files E)).
        { rewrite Hl. apply in_or_app. right. left. reflexivity. }
        apply hoare_try_except with (X1 := fun _ => C).
        - apply hoare_bind with (Q1 := fun _ => C);
            [apply index_file_only_collected, Hin|].
          intros n.
          apply hoare_bind with (Q1 := fun _ => C);
            [|intros _; apply hoare_ret; auto].
          destruct (0 <? n); [|apply hoare_ret; auto].
          eapply hoare_consequence;
            [apply Hprint|auto|auto|intros e s0 []].
        - intros e.
          apply hoare_bind with (Q1 := fun _ => C);
            [apply Hprint|intros _; apply hoare_ret; auto]. }
      intros total.
      apply hoare_bind with (Q1 := fun _ => C); [intros s0 H0; exact H0|].
      intros _. apply Hprint. }
    intros _. destruct rebuild_vec; [|apply hoare_ret; auto].
    apply hoare_bind with (Q1 := fun _ => C); [|intros n; apply Hprint].
    intros s0 [Hc Hf].
    destruct (safe_build_embeddings E true s0) as (n & s1 & Hrun & _).
    destruct (keeps_rows_build_embeddings E true s0) as [H1 H2].
    rewrite Hrun in *. simpl in H1, H2. unfold C, only_collected.
    rewrite H1, H2. split; assumption. }
  specialize (H s I).
  destruct (rebuild_index E true rebuild_vec s) as [[[]|e] s']; [|destruct H].
  exists s'. split; [reflexivity|exact H].
Qed.

(** ** The JSON chunker *)





(** ** No stale embeddings *)

Lemma insert_chunk_fresh filepath category c :
  hoare (fun s => index_ok s /\ fresh_for filepath (st_conn s))
    (insert_chunk filepath category c)
    (fun _ s => index_ok s /\ fresh_for filepath (st_conn s))
    (fun _ _ => False).
Proof.
  intros s [Hok Hfresh].
  pose proof (insert_chunk_consistent filepath category c s Hok) as Hrun.
  destruct Hok as [[Hm He] Hf].
  revert Hrun. unfold insert_chunk, bind, conn, update_conn, raise.
  cbn [st_conn chunks_meta chunks set_chunks].
  destruct (chunks_meta (st_conn s) !! next_rowid (chunks (st_conn s)));
    [auto|].
  intros Hok'. split; [exact Hok'|]. intros rid row Hrow Hpath.
  simpl in Hrow |- *.
  apply lookup_insert_Some in Hrow. destruct Hrow as [[<- _]|[_ Hrow]].
  - apply not_elem_of_dom. intros Hin. apply He in Hin.
    apply (next_rowid_fresh _ Hin).
  - apply (Hfresh rid row Hrow Hpath).
Qed.

(** X30. Re-indexing a changed file leaves no stale embedding: on a
    consistent index, when the stored fingerprint of the file differs from
    the current one, after [index_file] no chunk row of the file has an
    embedding, whether the call returns or raises, so a vector computed
    for the old text is never kept for a new chunk that takes its rowid. *)
Theorem index_file_no_stale_embeddings (E : Env) (filepath file_hash : str)
    (s : state) :
  index_ok s ->
  get_file_hash E filepath = Ok file_hash ->
  unchanged (st_conn s) filepath file_hash = false ->
  fresh_for filepath (st_conn (snd (index_file E filepath s))).
Proof.
  intros Hs Hh Hun.
  set (K := fun s0 : state => index_ok s0 /\ fresh_for filepath (st_conn s0)).
  assert (H : hoare
                (fun s0 => index_ok s0
                           /\ unchanged (st_conn s0) filepath file_hash = false)
                (index_file E filepath)
                (fun _ s0 => fresh_for filepath (st_conn s0))
                (fun _ s0 => fresh_for filepath (st_conn s0))).
  { unfold index_file. rewrite Hh.
    apply hoare_bind
      with (Q1 := fun h s0 =>
                    index_ok s0 /\ h = file_hash
                    /\ unchanged (st_conn s0) filepath file_hash = false).
    { apply hoare_lift. intros s0 [H0 H1]. auto. }
    intros h.
    apply hoare_bind
      with (Q1 := fun d s0 =>
                    index_ok s0 /\ h = file_hash /\ d = st_conn s0
                    /\ unchanged (st_conn s0) filepath file_hash = false).
    { apply hoare_conn. intros s0 (H0 & H1 & H2). auto. }
    intros d. destruct (unchanged d filepath h) eqn:Hud.
    { intros s0 (_ & -> & -> & H3). congruence. }
    set (old_rowids := map fst (List.filter _ (rows_of (chunks d)))).
    apply hoare_bind
      with (Q1 := fun _ s0 =>
                    on_conn (consistent_but old_rowids) s0
                    /\ no_rows_of filepath (st_conn s0)).
    { apply hoare_update_conn. intros s0 ([[Hm He] Hf] & _ & -> & _).
      split.
      - split; [|exact Hf]. unfold consistent_but. simpl.
        rewrite old_rowids_dom. fold old_rowids. rewrite Hm.
        split; set_solver.
      - intros rid row Hrow. simpl in Hrow.
        apply map_lookup_filter_Some in Hrow. apply Hrow. }
    intros _.
    apply hoare_bind with (Q1 := fun _ => K).
    { eapply hoare_consequence;
        [apply (hoare_for_each
                  (fun rest s0 => on_conn (consistent_but rest) s0
                                  /\ no_rows_of filepath (st_conn s0))
                  _ (fun _ s0 => fresh_for filepath (st_conn s0)))
        |auto| |auto].
      - intros _ rid rest _ s0 [[[Hm He] Hf] Hno].
        unfold bind, update_conn. cbn [st_conn st_file].
        split; [|exact Hno]. split; [|exact Hf].
        unfold consistent_but in *. simpl in *.
        rewrite !dom_delete_L. split; set_solver.
      - intros _ s0 [[Hc Hf] Hno]. split.
        + split; [apply consistent_but_nil, Hc|exact Hf].
        + intros rid row Hrow Hpath. exfalso.
          apply (Hno rid row Hrow Hpath). }
    intros _.
    apply hoare_bind with (Q1 := fun _ => K).
    { apply hoare_lift. intros s0 H0.
      destruct (read_text E filepath); [exact H0|apply H0]. }
    intros text.
    apply hoare_bind with (Q1 := fun _ => K).
    { destruct (endswith _ _); [|apply hoare_ret; auto].
      apply hoare_lift. intros s0 H0.
      destruct (chunk_json E text filepath); [exact H0|apply H0]. }
    intros new_chunks.
    apply hoare_bind with (Q1 := fun _ => K).
    { eapply hoare_consequence;
        [apply (hoare_for_each (fun _ => K) _ (fun _ _ => False))
        |auto|auto|intros e s0 []].
      intros _ c _ _. apply insert_chunk_fresh. }
    intros _.
    apply hoare_bind with (Q1 := fun _ => K).
    { apply hoare_update_conn. intros s0 H0. exact H0. }
    intros _. apply hoare_ret. intros s0 H0. apply H0. }
  specialize (H s (conj Hs Hun)).
  destruct (index_file E filepath s) as [[n|e] s']; exact H.
Qed.

Lemma index_file_no_stale_embeddings_witness :
  embeddings
    (st_conn (snd (index_file (sample_env NotInstalled) cache_path
                     (sample_state stale_db))))
  !! 1 = None.
Proof.
  apply (index_file_no_stale_embeddings (sample_env NotInstalled) cache_path
           sample_hash (sample_state stale_db)
           ltac:(split;
                 [split; [reflexivity|intros x Hx; exact Hx]
                 |intros d [= <-];
                  split; [reflexivity|intros x Hx; exact Hx]])
           ltac:(vm_compute; reflexivity) ltac:(vm_compute; reflexivity)
           1 (mk_chunk_row cache_path (lit "pattern") (lit "cache.md")
                cache_doc)).
  - vm_compute. reflexivity.
  - reflexivity.
Defined.
